(** * Apple Music to Spotify converter: decoders, lookups, matching

    A shallow embedding of

    - [src/applePlaylistParser.js]  (tab-delimited export decoder),
    - [src/appleXmlParser.js]       (property-list decoder, library lookups),
    - [src/spotifyAuth.js]          (access token and its refresh),
    - [src/spotifyClient.js]        (search strategy, best-match scorer,
                                     batch matching, batched additions),
    - [index.js]                    (the report of the tracks not found),

    followed by the properties established about them.

    Conventions of the embedding.

    - A JavaScript string is a [string]: one [ascii] per UTF-16 code unit.
      The embedding therefore covers the strings whose code units are all
      below 256 (Basic Latin and Latin-1 Supplement); on those,
      [toLowerCase], [trim], [\w] and [\s] are given exactly.
    - A JavaScript number produced by [parseInt] and integer arithmetic is a
      [num]: [NaN] or an exact integer (exact below 2^53 in the source).
    - An object used as a record is the list of its own properties in
      creation order, with the order of enumeration given apart.
    - A value that may or may not be a string where the code calls a
      string method on it keeps both cases, and the call on a value that
      is not a string is the TypeError it raises.
    - A thrown exception is a constructor of [completion]. *)

From Stdlib Require Import List String Ascii ZArith Lia Bool Arith.
From Stdlib Require Import Decimal DecimalString.
From Stdlib Require Import Sorting.Permutation Sorting.Sorted.
Import ListNotations.
Set Warnings "-register-all".
Open Scope string_scope.
Open Scope list_scope.
Open Scope nat_scope.

(* ================================================================== *)
(** * The JavaScript primitives the program relies on                  *)
(* ================================================================== *)

Module Js.

(** Code unit of a character. *)
Definition code (c : ascii) : nat := nat_of_ascii c.

Definition between (lo hi n : nat) : bool := (lo <=? n) && (n <=? hi).

(** [\s], also the set stripped by [trim] and skipped by [parseInt]:
    TAB, LF, VT, FF, CR, SPACE and NO-BREAK SPACE. *)
Definition isWhiteSpace (c : ascii) : bool :=
  between 9 13 (code c) || (code c =? 32) || (code c =? 160).

Definition isDigit (c : ascii) : bool := between 48 57 (code c).
Definition isUpper (c : ascii) : bool := between 65 90 (code c).
Definition isLower (c : ascii) : bool := between 97 122 (code c).

(** [\w] is [[A-Za-z0-9_]]. *)
Definition isWordChar (c : ascii) : bool :=
  isUpper c || isLower c || isDigit c || (code c =? 95).

(** [toLowerCase] on one code unit: A-Z, and the Latin-1 capitals
    U+00C0..U+00DE except the multiplication sign U+00D7. *)
Definition lowerChar (c : ascii) : ascii :=
  if isUpper c || (between 192 222 (code c) && negb (code c =? 215))
  then ascii_of_nat (code c + 32) else c.

Fixpoint toLowerCase (s : string) : string :=
  match s with
  | EmptyString => EmptyString
  | String c s' => String (lowerChar c) (toLowerCase s')
  end.

(** [s.replace(/[^...]/g, '')] for a character class: keep the characters
    of the class. *)
Fixpoint keepChars (keep : ascii -> bool) (s : string) : string :=
  match s with
  | EmptyString => EmptyString
  | String c s' =>
      if keep c then String c (keepChars keep s') else keepChars keep s'
  end.

Fixpoint trimStart (s : string) : string :=
  match s with
  | EmptyString => EmptyString
  | String c s' => if isWhiteSpace c then trimStart s' else s
  end.

Fixpoint trimEnd (s : string) : string :=
  match s with
  | EmptyString => EmptyString
  | String c s' =>
      match trimEnd s' with
      | EmptyString => if isWhiteSpace c then EmptyString else String c EmptyString
      | t => String c t
      end
  end.

Definition trim (s : string) : string := trimEnd (trimStart s).

(** Truthiness of a string: non-empty. *)
Definition truthyStr (s : string) : bool :=
  match s with EmptyString => false | _ => true end.

(** [s.split(sep)] for a one-character separator; [''.split(sep)] is
    [['']]. *)
Fixpoint split (sep : ascii) (s : string) : list string :=
  match s with
  | EmptyString => [EmptyString]
  | String c s' =>
      if Ascii.eqb c sep then EmptyString :: split sep s'
      else match split sep s' with
           | h :: t => String c h :: t
           | [] => [String c EmptyString]
           end
  end.

Fixpoint startsWith (p s : string) : bool :=
  match p, s with
  | EmptyString, _ => true
  | String _ _, EmptyString => false
  | String a p', String b s' => Ascii.eqb a b && startsWith p' s'
  end.

(** [s.includes(p)]. *)
Fixpoint includes (s p : string) : bool :=
  startsWith p s ||
  match s with
  | EmptyString => false
  | String _ s' => includes s' p
  end.

(** [s.replace(/pat/g, rep)] for a literal, non-empty pattern: matches are
    found left to right, do not overlap, and the replacement text is not
    scanned again. [skip] counts the characters of a match still to drop. *)
Fixpoint replaceFrom (pat rep : string) (skip : nat) (s : string) : string :=
  match s with
  | EmptyString => EmptyString
  | String c s' =>
      match skip with
      | S n => replaceFrom pat rep n s'
      | O =>
          if startsWith pat s
          then (rep ++ replaceFrom pat rep (String.length pat - 1) s')%string
          else String c (replaceFrom pat rep 0 s')
      end
  end.

Definition replaceAll (pat rep s : string) : string := replaceFrom pat rep 0 s.

(** ** Numbers *)

Inductive num : Type :=
| NaN
| Fin (z : Z).

Definition nadd (a b : num) : num :=
  match a, b with
  | Fin x, Fin y => Fin (x + y)
  | _, _ => NaN
  end.

Definition nmul (a b : num) : num :=
  match a, b with
  | Fin x, Fin y => Fin (x * y)
  | _, _ => NaN
  end.

(** Truthiness of a number: neither 0 nor NaN. *)
Definition truthyNum (n : num) : bool :=
  match n with
  | NaN => false
  | Fin z => negb (z =? 0)%Z
  end.

(** [n || 0]. *)
Definition orZero (n : num) : num := if truthyNum n then n else Fin 0.

Definition digitVal (c : ascii) : option Z :=
  if isDigit c then Some (Z.of_nat (code c - 48)) else None.

Definition hexVal (c : ascii) : option Z :=
  if isDigit c then Some (Z.of_nat (code c - 48))
  else if between 97 102 (code c) then Some (Z.of_nat (code c - 87))
  else if between 65 70 (code c) then Some (Z.of_nat (code c - 55))
  else None.

(** Longest prefix of digits in the given radix, read most significant
    first; [None] when the prefix is empty. *)
Fixpoint readDigits (val : ascii -> option Z) (radix : Z) (acc : option Z)
    (s : string) : option Z :=
  match s with
  | EmptyString => acc
  | String c s' =>
      match val c with
      | None => acc
      | Some d =>
          readDigits val radix
            (Some (match acc with Some a => a * radix + d | None => d end)%Z) s'
      end
  end.

(** [parseInt(s)] with no radix argument: leading white space is skipped, a
    sign is read, a [0x]/[0X] prefix selects radix 16, and the longest
    prefix of digits is the value; no digit gives [NaN]. *)
Definition parseInt (s : string) : num :=
  let s1 := trimStart s in
  let '(sign, s2) :=
    match s1 with
    | String c r =>
        if (code c =? 45) then ((-1)%Z, r)
        else if (code c =? 43) then (1%Z, r)
        else (1%Z, s1)
    | EmptyString => (1%Z, s1)
    end in
  let hex :=
    match s2 with
    | String z (String x r) =>
        if (code z =? 48) && ((code x =? 120) || (code x =? 88))
        then Some r else None
    | _ => None
    end in
  let digits :=
    match hex with
    | Some r => readDigits hexVal 16 None r
    | None => readDigits digitVal 10 None s2
    end in
  match digits with
  | Some v => Fin (sign * v)
  | None => NaN
  end.

(** ** Objects used as records

    The own properties of an object, kept in creation order.  [obj_set] is
    the assignment [o[k] = v]: an existing property takes the new value, a
    new one is created after those that exist.  The name [__proto__] is
    not an own property of an object literal: assigning to it goes to the
    inherited setter and creates nothing.

    [obj_get] reads a property.  [obj_keys] lists the names in creation
    order, which is not the order in which JavaScript enumerates them:
    [ownKeys] is that order ([Object.keys], [for ... in],
    [JSON.stringify]), the names that are array indices first, by
    ascending value, then the others in creation order. *)

Definition JsObject (V : Type) : Type := list (string * V).

Definition proto_name : string := "__proto__".

Fixpoint obj_get {V : Type} (k : string) (o : JsObject V) : option V :=
  match o with
  | [] => None
  | (k', v) :: o' => if String.eqb k k' then Some v else obj_get k o'
  end.

Fixpoint obj_put {V : Type} (k : string) (v : V) (o : JsObject V) : JsObject V :=
  match o with
  | [] => [(k, v)]
  | (k', v') :: o' =>
      if String.eqb k k' then (k', v) :: o' else (k', v') :: obj_put k v o'
  end.

Definition obj_set {V : Type} (k : string) (v : V) (o : JsObject V) : JsObject V :=
  if String.eqb k proto_name then o else obj_put k v o.

Definition obj_keys {V : Type} (o : JsObject V) : list string := map fst o.

Fixpoint digitsOnly (s : string) : bool :=
  match s with
  | EmptyString => true
  | String c s' => isDigit c && digitsOnly s'
  end.

(** The value of a name that is an array index: the canonical decimal
    numeral (no leading zero, except ["0"] itself) of an integer from 0
    to 2^32 - 2. *)
Definition asIndex (k : string) : option Z :=
  match k with
  | EmptyString => None
  | String c r =>
      if digitsOnly k
         && (negb (code c =? 48) || match r with EmptyString => true | _ => false end)
      then
        match readDigits digitVal 10 None k with
        | Some z => if (z <? 4294967295)%Z then Some z else None
        | None => None
        end
      else None
  end.

Definition isIndex (k : string) : bool :=
  match asIndex k with Some _ => true | None => false end.

(** Insertion by ascending value. *)
Fixpoint insertIndex (z : Z) (k : string) (l : list (Z * string))
    : list (Z * string) :=
  match l with
  | [] => [(z, k)]
  | (z', k') :: l' =>
      if (z <? z')%Z then (z, k) :: l else (z', k') :: insertIndex z k l'
  end.

(** The array indices among the names, by ascending value. *)
Fixpoint sortedIndices (names : list string) : list (Z * string) :=
  match names with
  | [] => []
  | k :: rest =>
      match asIndex k with
      | Some z => insertIndex z k (sortedIndices rest)
      | None => sortedIndices rest
      end
  end.

(** The order of enumeration of names created in the order [names]. *)
Definition enumerate (names : list string) : list string :=
  map snd (sortedIndices names) ++ filter (fun k => negb (isIndex k)) names.

Definition ownKeys {V : Type} (o : JsObject V) : list string :=
  enumerate (obj_keys o).

(** ** Completions *)

Inductive completion (A : Type) : Type :=
| Return (a : A)
| ThrowError (msg : string)
| ThrowTypeError.

Arguments Return {A} a.
Arguments ThrowError {A} msg.
Arguments ThrowTypeError {A}.

Definition dquote : ascii := ascii_of_nat 34.
Definition tab : ascii := ascii_of_nat 9.
Definition newline : ascii := ascii_of_nat 10.
Definition colon : ascii := ascii_of_nat 58.

(** A string between double quotes. *)
Definition quoted (s : string) : string :=
  String dquote (s ++ String dquote EmptyString)%string.

End Js.

(* ================================================================== *)
(** * src/applePlaylistParser.js                                       *)
(* ================================================================== *)

Module ApplePlaylistParser.
Import Js.

(** [headers.forEach((header, index) => track[header] = values[index] || '')] *)
Fixpoint fillTrack (headers : list string) (index : nat) (values : list string)
    (track : JsObject string) : JsObject string :=
  match headers with
  | [] => track
  | header :: rest =>
      let value :=
        match nth_error values index with
        | Some v => if truthyStr v then v else EmptyString
        | None => EmptyString
        end in
      fillTrack rest (S index) values (obj_set header value track)
  end.

(** The lines kept by [content.split('\n').filter(line => line.trim())]. *)
Definition contentLines (content : string) : list string :=
  filter (fun line => truthyStr (trim line)) (split newline content).

(** [parseFile], from the content read from the file on. *)
Definition parseFile (content : string) : completion (list (JsObject string)) :=
  match contentLines content with
  | [] => ThrowError "Error parsing Apple Music playlist: File is empty"
  | first :: rest =>
      let headers := split tab first in
      Return (map (fun line => fillTrack headers 0 (split tab line) []) rest)
  end.

(** [parseTime(timeString)]; [None] is [undefined] (no [Time] column). *)
Definition parseTime (timeString : option string) : num :=
  match timeString with
  | None => Fin 0
  | Some s =>
      if negb (truthyStr s) then Fin 0
      else
        match split colon s with
        | [p0; p1] => nadd (nmul (parseInt p0) (Fin 60)) (parseInt p1)
        | [p0; p1; p2] =>
            nadd (nadd (nmul (parseInt p0) (Fin 3600))
                       (nmul (parseInt p1) (Fin 60)))
                 (parseInt p2)
        | _ => orZero (parseInt s)
        end
  end.

(** The canonical track built by [getTracksForSpotify]. *)
Record canonical : Type := mkCanonical {
  name : string;
  artist : string;
  album : string;
  year : string;
  duration : num;
  originalTrack : JsObject string
}.

(** [track[k] || ''] *)
Definition fieldOr (k : string) (track : JsObject string) : string :=
  match obj_get k track with
  | Some v => v
  | None => EmptyString
  end.

(** [getTracksForSpotify()] *)
Definition getTracksForSpotify (tracks : list (JsObject string)) : list canonical :=
  filter (fun t => truthyStr (name t) && truthyStr (artist t))
    (map (fun track =>
            mkCanonical (fieldOr "Name" track) (fieldOr "Artist" track)
                        (fieldOr "Album" track) (fieldOr "Year" track)
                        (parseTime (obj_get "Time" track)) track)
         tracks).

Record playlistInfo : Type := mkInfo {
  totalTracks : nat;
  validTracks : nat;
  info_headers : list string
}.

(** [getPlaylistInfo()], on the headers and tracks the parser holds. *)
Definition getPlaylistInfo (headers : list string)
    (tracks : list (JsObject string)) : playlistInfo :=
  mkInfo (List.length tracks) (List.length (getTracksForSpotify tracks)) headers.

End ApplePlaylistParser.

(* ================================================================== *)
(** * src/appleXmlParser.js                                            *)
(* ================================================================== *)

Module AppleXmlParser.
Import Js.

(** ** The document handed over by xml2js ([explicitArray: false])

    An element with only text is a string; one with child elements is an
    object with one property per child tag.  Each property is given here
    by the list of the children with that tag, in document order: no
    child, the property is [undefined]; one child, it is that child; two
    or more, it is the array of them.  A plist has the tags below. *)

Inductive xml : Type :=
| Text (s : string)
| Elem (key string_ integer date true_ false_ array dict : list xml).

(** The value of a property. *)
Inductive jsval : Type :=
| Undefined
| Single (x : xml)
| Array (l : list xml).

Definition prop (children : list xml) : jsval :=
  match children with
  | [] => Undefined
  | [x] => Single x
  | _ => Array children
  end.

Definition x_key (x : xml) : jsval :=
  match x with Elem k _ _ _ _ _ _ _ => prop k | Text _ => Undefined end.
Definition x_string (x : xml) : jsval :=
  match x with Elem _ s _ _ _ _ _ _ => prop s | Text _ => Undefined end.
Definition x_integer (x : xml) : jsval :=
  match x with Elem _ _ i _ _ _ _ _ => prop i | Text _ => Undefined end.
Definition x_date (x : xml) : jsval :=
  match x with Elem _ _ _ d _ _ _ _ => prop d | Text _ => Undefined end.
Definition x_true (x : xml) : jsval :=
  match x with Elem _ _ _ _ t _ _ _ => prop t | Text _ => Undefined end.
Definition x_false (x : xml) : jsval :=
  match x with Elem _ _ _ _ _ f _ _ => prop f | Text _ => Undefined end.
Definition x_array (x : xml) : jsval :=
  match x with Elem _ _ _ _ _ _ a _ => prop a | Text _ => Undefined end.
Definition x_dict (x : xml) : jsval :=
  match x with Elem _ _ _ _ _ _ _ d => prop d | Text _ => Undefined end.

(** A property read on a value: arrays and [undefined] results of a
    guarded read carry none of the plist tags. *)
Definition field (f : xml -> jsval) (v : jsval) : jsval :=
  match v with
  | Single x => f x
  | _ => Undefined
  end.

Definition truthyXml (x : xml) : bool :=
  match x with
  | Text s => truthyStr s
  | Elem _ _ _ _ _ _ _ _ => true
  end.

Definition truthyJs (v : jsval) : bool :=
  match v with
  | Undefined => false
  | Single x => truthyXml x
  | Array _ => true
  end.

(** [Array.isArray(v) ? v : [v]] for a defined [v]; for [undefined] the
    source builds [[undefined]], which is never iterated for its content. *)
Definition asArray (v : jsval) : list xml :=
  match v with
  | Undefined => []
  | Single x => [x]
  | Array l => l
  end.

(** [v ? (Array.isArray(v) ? v : [v]) : []] *)
Definition bucket (v : jsval) : list xml :=
  if truthyJs v then asArray v else [].

(** [v !== undefined ? (Array.isArray(v) ? v.length : 1) : 0] *)
Definition markers (v : jsval) : nat :=
  match v with
  | Undefined => 0
  | Single _ => 1
  | Array l => List.length l
  end.

(** A node used as a property name or as the argument of [parseInt]: a
    string is itself, an object is converted to ["[object Object]"]. *)
Definition toStr (x : xml) : string :=
  match x with
  | Text s => s
  | Elem _ _ _ _ _ _ _ _ => "[object Object]"
  end.

(** ** Decoded values *)

Inductive value : Type :=
| VStr (s : string)
| VNum (n : num)
| VDate (src : xml)          (* [new Date(src)] *)
| VBool (b : bool)
| VItems (ids : list value)  (* the array [[{'Track ID': id}, ...]] *)
| VObj (x : xml).            (* a node object kept as it is *)

(** A node as a value: a text node is a string. *)
Definition ofXml (x : xml) : value :=
  match x with
  | Text s => VStr s
  | Elem _ _ _ _ _ _ _ _ => VObj x
  end.

Definition truthy (v : value) : bool :=
  match v with
  | VStr s => truthyStr s
  | VNum n => truthyNum n
  | VBool b => b
  | VDate _ | VItems _ | VObj _ => true
  end.

Definition truthyOpt (o : option value) : bool :=
  match o with
  | Some v => truthy v
  | None => false
  end.

(** The five chained replacements of [cleanString]. *)
Definition unescape (str : string) : string :=
  replaceAll "&gt;" ">"
    (replaceAll "&lt;" "<"
      (replaceAll "&quot;" (String dquote EmptyString)
        (replaceAll "&#39;" "'"
          (replaceAll "&#38;" "&" str)))).

Definition cleanString (v : value) : value :=
  match v with
  | VStr s => VStr (unescape s)
  | _ => v
  end.

(** ** parseDict *)

Record cursors : Type := mkCursors {
  stringIndex : nat;
  integerIndex : nat;
  dateIndex : nat;
  trueCount : nat;
  falseCount : nat;
  arrayIndex : nat
}.

Definition start : cursors := mkCursors 0 0 0 0 0 0.

(** The loop body of [parsePlaylistItems], on item dicts already decoded. *)
Fixpoint collectItems (items : list (JsObject value)) : list value :=
  match items with
  | [] => []
  | item :: rest =>
      match obj_get "Track ID" item with
      | Some id => if truthy id then id :: collectItems rest else collectItems rest
      | None => collectItems rest
      end
  end.

(** An entry of [arrays] together with what [parsePlaylistItems] reads in
    it: [Some] of the decoded children of its [dict] property when that
    property is truthy. *)
Definition arrayEntry : Type := (xml * option (list (JsObject value)))%type.

(** The value stored for an array entry:
    [key === 'Playlist Items' && arrayData.dict ? parsePlaylistItems(arrayData) : arrayData] *)
Definition arrayValue (key : string) (e : arrayEntry) : value :=
  match e with
  | (arrayData, Some items) =>
      if String.eqb key "Playlist Items"
      then VItems (collectItems items)
      else ofXml arrayData
  | (arrayData, None) => ofXml arrayData
  end.

(** One pass of the [if ... else if ...] chain in the loop of [parseDict]:
    the value found for [key], [None] when every bucket is exhausted and
    [value] stays [null], and the cursors afterwards. *)
Definition draw (key : string) (strings integers dates : list xml)
    (trues falses : nat) (arrays : list arrayEntry) (c : cursors)
    : option value * cursors :=
  if stringIndex c <? List.length strings then
    (option_map (fun x => cleanString (ofXml x)) (nth_error strings (stringIndex c)),
     mkCursors (S (stringIndex c)) (integerIndex c) (dateIndex c)
               (trueCount c) (falseCount c) (arrayIndex c))
  else if integerIndex c <? List.length integers then
    (option_map (fun x => VNum (parseInt (toStr x)))
                (nth_error integers (integerIndex c)),
     mkCursors (stringIndex c) (S (integerIndex c)) (dateIndex c)
               (trueCount c) (falseCount c) (arrayIndex c))
  else if dateIndex c <? List.length dates then
    (option_map VDate (nth_error dates (dateIndex c)),
     mkCursors (stringIndex c) (integerIndex c) (S (dateIndex c))
               (trueCount c) (falseCount c) (arrayIndex c))
  else if trueCount c <? trues then
    (Some (VBool true),
     mkCursors (stringIndex c) (integerIndex c) (dateIndex c)
               (S (trueCount c)) (falseCount c) (arrayIndex c))
  else if falseCount c <? falses then
    (Some (VBool false),
     mkCursors (stringIndex c) (integerIndex c) (dateIndex c)
               (trueCount c) (S (falseCount c)) (arrayIndex c))
  else if arrayIndex c <? List.length arrays then
    (option_map (arrayValue key) (nth_error arrays (arrayIndex c)),
     mkCursors (stringIndex c) (integerIndex c) (dateIndex c)
               (trueCount c) (falseCount c) (S (arrayIndex c)))
  else (None, c).

(** The [for (const key of keys)] loop of [parseDict]. *)
Fixpoint parseDictLoop (keys : list string) (strings integers dates : list xml)
    (trues falses : nat) (arrays : list arrayEntry)
    (c : cursors) (result : JsObject value) : JsObject value :=
  match keys with
  | [] => result
  | key :: rest =>
      let '(value, c') := draw key strings integers dates trues falses arrays c in
      parseDictLoop rest strings integers dates trues falses arrays c'
        match value with
        | Some v => obj_set key v result
        | None => result
        end
  end.

(** [dictData.array ? ... : []] on entries: the truthiness is that of the
    property the entries were built from. *)
Definition bucketEntries (es : list arrayEntry) : list arrayEntry :=
  match es with
  | [(x, _)] => if truthyXml x then es else []
  | _ => es
  end.

(** [parseDict].  The recursion of the source goes through
    [parsePlaylistItems]: the children of an array entry's [dict] property
    are decoded by [parseDict] itself.  They are decoded here when the
    entry is built, which is where the recursive calls are structural. *)
Fixpoint parseDict (dictData : xml) : JsObject value :=
  match dictData with
  | Text _ => []
  | Elem k s i d t f a _ =>
      if negb (truthyJs (prop k)) then []
      else
        parseDictLoop (map toStr (asArray (prop k)))
          (bucket (prop s)) (bucket (prop i)) (bucket (prop d))
          (markers (prop t)) (markers (prop f))
          (bucketEntries
             (map (fun arrayData =>
                     (arrayData,
                      match arrayData with
                      | Text _ => None
                      | Elem _ _ _ _ _ _ _ dd =>
                          if truthyJs (prop dd) then Some (map parseDict dd)
                          else None
                      end))
                  a))
          start []
  end.

(** [parsePlaylistItems(arrayData)], called when [arrayData.dict] is
    truthy. *)
Definition parsePlaylistItems (arrayData : xml) : list value :=
  collectItems (map parseDict (asArray (x_dict arrayData))).

(** ** The parser object: [this.tracks] and [this.playlists] *)

Record parser : Type := mkParser {
  tracks : list (JsObject value);
  playlists : list (JsObject value)
}.

(** [new AppleXmlParser()] *)
Definition newParser : parser := mkParser [] [].

(** [keys.indexOf(name) !== -1] on the [key] property of the main dict. *)
Definition declaresKey (name : string) (mainDict : jsval) : bool :=
  existsb (fun k => match k with
                    | Text s => String.eqb s name
                    | Elem _ _ _ _ _ _ _ _ => false
                    end)
          (asArray (field x_key mainDict)).

(** The body of the [for] loop of [extractTracks], over the pairs
    [(trackIds[i], trackDicts[i])]. *)
Fixpoint collectTracks (entries : list (xml * xml)) : list (JsObject value) :=
  match entries with
  | [] => []
  | (trackId, trackData) :: rest =>
      let track := parseDict trackData in
      if truthyOpt (obj_get "Name" track)
         && (truthyOpt (obj_get "Artist" track)
             || truthyOpt (obj_get "Album Artist" track))
      then obj_set "Track ID" (VNum (parseInt (toStr trackId))) track
             :: collectTracks rest
      else collectTracks rest
  end.

Definition extractTracks (mainDict : jsval) (p : parser) : parser :=
  if negb (declaresKey "Tracks" mainDict) then p
  else
    let tracksDict := field x_dict mainDict in
    if negb (truthyJs tracksDict)
       || negb (truthyJs (field x_key tracksDict))
       || negb (truthyJs (field x_dict tracksDict))
    then p
    else
      let trackIds := asArray (field x_key tracksDict) in
      let trackDicts := asArray (field x_dict tracksDict) in
      mkParser (tracks p ++ collectTracks (combine trackIds trackDicts))
               (playlists p).

Definition extractPlaylists (mainDict : jsval) (p : parser) : parser :=
  if negb (declaresKey "Playlists" mainDict) then p
  else
    let playlistsArray := field x_array mainDict in
    if negb (truthyJs playlistsArray)
       || negb (truthyJs (field x_dict playlistsArray))
    then p
    else
      let playlistDicts := asArray (field x_dict playlistsArray) in
      mkParser (tracks p)
               (playlists p ++
                filter (fun playlist => truthyOpt (obj_get "Name" playlist))
                       (map parseDict playlistDicts)).

(** [parseFile], from [result.plist] on; the parser is returned with the
    tracks and playlists it has accumulated. *)
Definition parseFile (plist : jsval) (p : parser) : completion parser :=
  if negb (truthyJs plist) || negb (truthyJs (field x_dict plist))
  then ThrowError
         "Error parsing Apple Music XML: Invalid iTunes/Apple Music XML format"
  else
    let mainDict := field x_dict plist in
    Return (extractPlaylists mainDict (extractTracks mainDict p)).

(** ** Canonical tracks

    [year] and [duration] of the source record are coercions of the
    [Year] and [Total Time] values that select nothing and cannot fail;
    the record keeps the fields the matching reads as text and the source
    track. *)

Record canonical : Type := mkCanonical {
  name : value;
  artist : value;
  album : value;
  originalTrack : JsObject value
}.

(** [o || v] *)
Definition orElse (o : option value) (v : value) : value :=
  match o with
  | Some x => if truthy x then x else v
  | None => v
  end.

Definition toCanonical (track : JsObject value) : canonical :=
  mkCanonical
    (cleanString (orElse (obj_get "Name" track) (VStr "")))
    (cleanString
       (orElse (obj_get "Artist" track)
          (orElse (obj_get "Album Artist" track) (VStr ""))))
    (cleanString (orElse (obj_get "Album" track) (VStr "")))
    track.

Definition canonicalize (ts : list (JsObject value)) : list canonical :=
  filter (fun t => truthy (name t) && truthy (artist t)) (map toCanonical ts).

(** SameValueZero, the comparison of [Array.prototype.includes].  Objects
    are equal only to themselves; the identifier that [extractTracks]
    stamps on a track is a number, and a number is never an object. *)
Definition sameValueZero (a b : value) : bool :=
  match a, b with
  | VStr x, VStr y => String.eqb x y
  | VNum NaN, VNum NaN => true
  | VNum (Fin x), VNum (Fin y) => (x =? y)%Z
  | VBool x, VBool y => Bool.eqb x y
  | _, _ => false
  end.

(** [trackIds.includes(track['Track ID'])] *)
Definition includesId (trackIds : list value) (id : option value) : bool :=
  match id with
  | Some v => existsb (fun x => sameValueZero x v) trackIds
  | None => false
  end.

(** [this.playlists.find(p => p.Name === playlistName)] *)
Definition findPlaylist (p : parser) (playlistName : string)
    : option (JsObject value) :=
  find (fun pl => match obj_get "Name" pl with
                  | Some (VStr s) => String.eqb s playlistName
                  | _ => false
                  end)
       (playlists p).

Definition noTracksMessage (playlistName : string) : string :=
  ("Playlist " ++ quoted playlistName ++ " not found or has no tracks")%string.

Definition notFoundMessage (playlistName : string) : string :=
  ("Playlist " ++ quoted playlistName ++ " not found")%string.

(** [getTracksForSpotify(playlistName = null)] *)
Definition getTracksForSpotify (p : parser) (playlistName : option string)
    : completion (list canonical) :=
  match playlistName with
  | Some pname =>
      if truthyStr pname then
        match findPlaylist p pname with
        | None => ThrowError (noTracksMessage pname)
        | Some playlist =>
            match obj_get "Playlist Items" playlist with
            | None => ThrowError (noTracksMessage pname)
            | Some items =>
                if negb (truthy items) then ThrowError (noTracksMessage pname)
                else
                  match items with
                  | VItems ids =>
                      let trackIds := filter truthy ids in
                      Return
                        (canonicalize
                           (filter (fun track =>
                                      includesId trackIds (obj_get "Track ID" track))
                                   (tracks p)))
                  | _ => ThrowTypeError   (* [.map] is not a function *)
                  end
            end
        end
      else Return (canonicalize (tracks p))
  | None => Return (canonicalize (tracks p))
  end.

(** [items ? items.length : 0]; [None] is [undefined]. *)
Definition itemCount (playlist : JsObject value) : option nat :=
  match obj_get "Playlist Items" playlist with
  | None => Some 0
  | Some v =>
      if negb (truthy v) then Some 0
      else match v with
           | VItems ids => Some (List.length ids)
           | VStr s => Some (String.length s)
           | _ => None
           end
  end.

Record playlistInfo : Type := mkPlaylistInfo {
  info_name : option value;
  totalTracks : option nat;
  validTracks : nat;
  info_playlist : JsObject value
}.

Record playlistSummary : Type := mkSummary {
  sum_name : option value;
  sum_itemCount : option nat;
  master : bool;
  folder : bool
}.

Record libraryInfo : Type := mkLibraryInfo {
  lib_totalTracks : nat;
  lib_validTracks : nat;
  lib_playlists : list playlistSummary
}.

Inductive info : Type :=
| PlaylistInfo (i : playlistInfo)
| LibraryInfo (i : libraryInfo).

(** [getPlaylistInfo(playlistName = null)] *)
Definition getPlaylistInfo (p : parser) (playlistName : option string)
    : completion info :=
  let library :=
    LibraryInfo
      (mkLibraryInfo
         (List.length (tracks p))
         (List.length (canonicalize (tracks p)))
         (filter (fun s => truthyOpt (sum_name s))
            (map (fun pl =>
                    mkSummary (obj_get "Name" pl) (itemCount pl)
                              (truthyOpt (obj_get "Master" pl))
                              (truthyOpt (obj_get "Parent Persistent ID" pl)))
                 (playlists p)))) in
  match playlistName with
  | Some pname =>
      if truthyStr pname then
        match findPlaylist p pname with
        | None => ThrowError (notFoundMessage pname)
        | Some playlist =>
            match getTracksForSpotify p (Some pname) with
            | Return playlistTracks =>
                Return (PlaylistInfo
                          (mkPlaylistInfo (obj_get "Name" playlist)
                                          (itemCount playlist)
                                          (List.length playlistTracks) playlist))
            | ThrowError msg => ThrowError msg
            | ThrowTypeError => ThrowTypeError
            end
        end
      else Return library
  | None => Return library
  end.

(** The entry that [listPlaylists] builds for a playlist. *)
Record playlistEntry : Type := mkEntry {
  entry_name : option value;
  entry_itemCount : option nat;
  persistent_id : option value
}.

(** [listPlaylists()]: folders and the master library are left out. *)
Definition listPlaylists (p : parser) : list playlistEntry :=
  map (fun pl => mkEntry (obj_get "Name" pl) (itemCount pl)
                         (obj_get "Playlist Persistent ID" pl))
      (filter (fun pl => truthyOpt (obj_get "Name" pl)
                         && negb (truthyOpt (obj_get "Parent Persistent ID" pl))
                         && negb (truthyOpt (obj_get "Master" pl)))
              (playlists p)).

End AppleXmlParser.

(* ================================================================== *)
(** * src/spotifyAuth.js                                               *)
(* ================================================================== *)

Module SpotifyAuth.
Import Js.

(** The end of a call that leaves the program: it resolves with a value
    or is rejected; the message kept is the one the callers print,
    [error.response?.data?...message || error.message]. *)
Inductive outcome (A : Type) : Type :=
| Resolved (a : A)
| Failed (message : string).

Arguments Resolved {A} a.
Arguments Failed {A} message.

(** The fields of the auth object that change: [accessToken],
    [refreshToken] and [tokenExpiry]; [None] is [null] or [undefined]. *)
Record auth : Type := mkAuth {
  accessToken : option string;
  refreshToken : option string;
  tokenExpiry : option num
}.

(** [new SpotifyAuth(...)] *)
Definition newAuth : auth := mkAuth None None None.

(** The body of a token response. *)
Record tokenResponse : Type := mkTokenResponse {
  access_token : option string;
  refresh_token : option string;
  expires_in : num
}.

Inductive grant : Type :=
| AuthorizationCode (code : string)
| RefreshToken (token : string).

(** The token endpoint and the clock ([Date.now()], in milliseconds). *)
Record env (S : Type) : Type := mkEnv {
  postToken : grant -> S -> outcome tokenResponse * S;
  clock : S -> Z * S
}.

Arguments postToken {S} e g s.
Arguments clock {S} e s.

(** Truthiness of a token. *)
Definition present (t : option string) : bool :=
  match t with
  | Some s => truthyStr s
  | None => false
  end.

(** [Date.now() + (expires_in * 1000)] *)
Definition expiryAt (now : Z) (expiresIn : num) : num :=
  nadd (Fin now) (nmul expiresIn (Fin 1000)).

(** [Date.now() >= this.tokenExpiry - 60000]; [null] counts as 0 and a
    comparison with [NaN] is false. *)
Definition nearExpiry (now : Z) (expiry : option num) : bool :=
  match expiry with
  | None => (-60000 <=? now)%Z
  | Some NaN => false
  | Some (Fin e) => (e - 60000 <=? now)%Z
  end.

(** What a method leaves behind: its completion, the auth object, the
    state of the environment and the token requests it made. *)
Definition result (S A : Type) : Type :=
  (completion A * auth * S * list grant)%type.

(** [exchangeCodeForToken(code)] *)
Definition exchangeCodeForToken {S : Type} (e : env S) (code : string)
    (a : auth) (s : S) : result S (option string) :=
  match postToken e (AuthorizationCode code) s with
  | (Failed message, s1) =>
      (ThrowError ("Failed to exchange code for token: " ++ message)%string,
       a, s1, [AuthorizationCode code])
  | (Resolved response, s1) =>
      let '(now, s2) := clock e s1 in
      let a' := mkAuth (access_token response) (refresh_token response)
                       (Some (expiryAt now (expires_in response))) in
      (Return (accessToken a'), a', s2, [AuthorizationCode code])
  end.

(** [refreshAccessToken()] *)
Definition refreshAccessToken {S : Type} (e : env S) (a : auth) (s : S)
    : result S (option string) :=
  match refreshToken a with
  | Some token =>
      if truthyStr token then
        match postToken e (RefreshToken token) s with
        | (Failed message, s1) =>
            (ThrowError ("Failed to refresh token: " ++ message)%string,
             a, s1, [RefreshToken token])
        | (Resolved response, s1) =>
            let '(now, s2) := clock e s1 in
            let a' :=
              mkAuth (access_token response)
                     (if present (refresh_token response)
                      then refresh_token response else refreshToken a)
                     (Some (expiryAt now (expires_in response))) in
            (Return (accessToken a'), a', s2, [RefreshToken token])
        end
      else (ThrowError "No refresh token available", a, s, [])
  | None => (ThrowError "No refresh token available", a, s, [])
  end.

(** [getValidAccessToken()] *)
Definition getValidAccessToken {S : Type} (e : env S) (a : auth) (s : S)
    : result S (option string) :=
  if negb (present (accessToken a))
  then (ThrowError "Not authenticated. Please run authenticate() first.",
        a, s, [])
  else
    let '(now, s1) := clock e s in
    if nearExpiry now (tokenExpiry a) then
      match refreshAccessToken e a s1 with
      | (Return _, a', s2, log) => (Return (accessToken a'), a', s2, log)
      | (ThrowError message, a', s2, log) => (ThrowError message, a', s2, log)
      | (ThrowTypeError, a', s2, log) => (ThrowTypeError, a', s2, log)
      end
    else (Return (accessToken a), a, s1, []).

(** [getAuthHeaders()]: the [Authorization] header; [Content-Type] is the
    constant [application/json]. *)
Definition getAuthHeaders (a : auth) : completion string :=
  match accessToken a with
  | Some token =>
      if truthyStr token then Return ("Bearer " ++ token)%string
      else ThrowError "Not authenticated"
  | None => ThrowError "Not authenticated"
  end.

End SpotifyAuth.

(* ================================================================== *)
(** * src/spotifyClient.js                                             *)
(* ================================================================== *)

Module SpotifyClient.
Import Js.

(** ** Tracks

    The track handed to the client.  The client reads [name], [artist]
    and [album] in three ways: converted to a string inside a template
    literal, tested for truthiness, and as the receiver of
    [toLowerCase].  The tab-delimited path hands strings.  The
    property-list path hands whatever the dict held under [Name],
    [Artist] or [Album], which [cleanString] passes through when it is
    not a string: a number, a boolean, a date, an array or a node
    object.  Such a value is an [Other], given by its conversion to a
    string and its truthiness; it has no [toLowerCase].  [duration] is a
    [num]: [parseTime] can produce [NaN]. *)

Inductive attr : Type :=
| Str (s : string)
| Other (text : string) (truthy : bool).

(** [`${a}`] *)
Definition toText (a : attr) : string :=
  match a with
  | Str s => s
  | Other text _ => text
  end.

Definition truthyAttr (a : attr) : bool :=
  match a with
  | Str s => truthyStr s
  | Other _ truthy => truthy
  end.

Record track : Type := mkTrack {
  name : attr;
  artist : attr;
  album : attr;
  duration : num
}.

(** A search result.  A field is [None] when the property is missing or
    is not of the type the scorer uses it at (a string for names, an
    object for [album], an array for [artists]); [duration_ms] missing is
    [None]. *)

Record spArtist : Type := mkArtist { artist_name : option string }.

Record spAlbum : Type := mkAlbum { album_name : option string }.

Record spTrack : Type := mkSpTrack {
  sp_name : option string;
  sp_artists : option (list spArtist);
  sp_album : option spAlbum;
  duration_ms : option Z;
  uri : string
}.

(** ** findBestMatch *)

(** [str.toLowerCase().replace(/[^\w\s]/g, '').trim()] on a string. *)
Definition normalizeString (str : string) : string :=
  trim (keepChars (fun c => isWordChar c || isWhiteSpace c) (toLowerCase str)).

(** [normalizeString] on a field of the track: [None] is the TypeError
    raised when the field is not a string ([toLowerCase] is not a
    function). *)
Definition normalized (a : attr) : option string :=
  match a with
  | Str s => Some (normalizeString s)
  | Other _ _ => None
  end.

(** The two-tier comparison: [exact] points for equal strings, [partial]
    when one contains the other, else nothing. *)
Definition tier (exact partial : Z) (a b : string) : Z :=
  if String.eqb a b then exact
  else if includes a b || includes b a then partial
  else 0%Z.

(** [Math.abs(duration - duration_ms / 1000)] compared with a bound of
    whole seconds, in milliseconds so that the division is exact. *)
Definition durationPoints (d ms : Z) : Z :=
  let diff := Z.abs (d * 1000 - ms) in
  if (diff <=? 2000)%Z then 2%Z
  else if (diff <=? 5000)%Z then 1%Z
  else 0%Z.

(** The score the loop body computes for one search result, given the
    normalized name and artist of the track, computed before the loop;
    [None] when the body throws a TypeError ([undefined.toLowerCase],
    [undefined.name], [undefined[0]], or an album of the track that is
    truthy and not a string). *)
Definition score (originalTrackNorm originalArtistNorm : string)
    (originalTrack : track) (t : spTrack) : option Z :=
  match sp_name t with
  | None => None
  | Some tname =>
      match sp_artists t with
      | None | Some [] => None
      | Some (first :: _) =>
          match artist_name first with
          | None => None
          | Some aname =>
              let s1 := tier 10 5 (normalizeString tname) originalTrackNorm in
              let s2 := tier 10 5 (normalizeString aname) originalArtistNorm in
              let s4 :=
                match duration originalTrack, duration_ms t with
                | Fin d, Some ms =>
                    if negb (d =? 0)%Z && negb (ms =? 0)%Z
                    then durationPoints d ms else 0%Z
                | _, _ => 0%Z
                end in
              if truthyAttr (album originalTrack) then
                match normalized (album originalTrack) with
                | None => None
                | Some originalAlbumNorm =>
                    match sp_album t with
                    | None => None
                    | Some al =>
                        match album_name al with
                        | None => None
                        | Some alname =>
                            Some (s1 + s2
                                  + tier 3 1 (normalizeString alname)
                                             originalAlbumNorm
                                  + s4)%Z
                        end
                    end
                end
              else Some (s1 + s2 + s4)%Z
          end
      end
  end.

(** The [for (const track of searchResults)] loop. *)
Fixpoint scan (originalTrackNorm originalArtistNorm : string)
    (originalTrack : track) (rest : list spTrack)
    (bestMatch : spTrack) (bestScore : Z) : completion spTrack :=
  match rest with
  | [] => Return bestMatch
  | t :: rest' =>
      match score originalTrackNorm originalArtistNorm originalTrack t with
      | None => ThrowTypeError
      | Some s =>
          if (s >? bestScore)%Z
          then scan originalTrackNorm originalArtistNorm originalTrack rest' t s
          else scan originalTrackNorm originalArtistNorm originalTrack rest'
                    bestMatch bestScore
      end
  end.

(** [findBestMatch(searchResults, originalTrack)]; [None] is [null].  The
    name and the artist of the track are normalized once two or more
    results are there, before the loop. *)
Definition findBestMatch (searchResults : list spTrack) (originalTrack : track)
    : completion (option spTrack) :=
  match searchResults with
  | [] => Return None
  | [only] => Return (Some only)
  | first :: _ =>
      match normalized (name originalTrack) with
      | None => ThrowTypeError
      | Some originalTrackNorm =>
          match normalized (artist originalTrack) with
          | None => ThrowTypeError
          | Some originalArtistNorm =>
              match scan originalTrackNorm originalArtistNorm originalTrack
                         searchResults first 0%Z with
              | Return best => Return (Some best)
              | ThrowError msg => ThrowError msg
              | ThrowTypeError => ThrowTypeError
              end
          end
      end
  end.

(** ** searchTrack

    The calls that leave the client are the nodes of a [prog]: a call to
    the auth object, which returns or throws, and a search request, which
    is answered with the items of the response or fails (the request is
    rejected, or the body has no [tracks.items]). *)

Inductive authCall : Type :=
| GetValidAccessToken
| GetAuthHeaders.

Record request : Type := mkRequest {
  q : string;
  type_ : string;
  limit : Z
}.

Inductive response : Type :=
| Items (items : list spTrack)
| Rejected.

Inductive prog (A : Type) : Type :=
| Done (a : A)
| CallAuth (call : authCall) (k : bool -> prog A)
| CallSearch (r : request) (k : response -> prog A).

Arguments Done {A} a.
Arguments CallAuth {A} call k.
Arguments CallSearch {A} r k.

(** The query of the first request; the arguments are converted to
    strings by the template literals. *)
Definition primaryQuery (trackName artistName albumName : attr) : string :=
  let query :=
    ("track:" ++ quoted (toText trackName)
     ++ " artist:" ++ quoted (toText artistName))%string in
  if truthyAttr albumName
  then (query ++ " album:" ++ quoted (toText albumName))%string
  else query.

Definition fallbackQuery (trackName artistName : attr) : string :=
  (quoted (toText trackName) ++ " " ++ quoted (toText artistName))%string.

Definition searchRequest (query : string) : request :=
  mkRequest query "track" 5.

(** [searchTrack(trackName, artistName, albumName = '')]; every exception
    raised inside the [try] ends in the [catch], which returns [[]]. *)
Definition searchTrack (trackName artistName albumName : attr)
    : prog (list spTrack) :=
  CallAuth GetValidAccessToken (fun ok =>
    if negb ok then Done []
    else
      CallAuth GetAuthHeaders (fun ok =>
        if negb ok then Done []
        else
          CallSearch (searchRequest (primaryQuery trackName artistName albumName))
            (fun resp =>
               match resp with
               | Rejected => Done []
               | Items tracks =>
                   if List.length tracks =? 0 then
                     CallAuth GetAuthHeaders (fun ok =>
                       if negb ok then Done []
                       else
                         CallSearch (searchRequest (fallbackQuery trackName artistName))
                           (fun fallbackResponse =>
                              match fallbackResponse with
                              | Rejected => Done []
                              | Items items => Done items
                              end))
                   else Done tracks
               end))).

(** The collaborators: each call is answered from a state the
    collaborator is free to change. *)
Record world (S : Type) : Type := mkWorld {
  auth : authCall -> S -> bool * S;
  search : request -> S -> response * S
}.

Arguments auth {S} w call s.
Arguments search {S} w r s.

(** One exchange with the remote search: the request and its answer. *)
Definition exchange : Type := (request * response)%type.

(** Running a program against the collaborators: the result, the final
    state and the search exchanges in the order they took place. *)
Fixpoint run {S A : Type} (w : world S) (p : prog A) (s : S)
    : A * S * list exchange :=
  match p with
  | Done a => (a, s, [])
  | CallAuth call k =>
      let '(ok, s') := auth w call s in
      run w (k ok) s'
  | CallSearch r k =>
      let '(resp, s') := search w r s in
      let '(a, s'', log) := run w (k resp) s' in
      (a, s'', (r, resp) :: log)
  end.

(** ** searchAndMatchTracks *)

Fixpoint bind {A B : Type} (p : prog A) (f : A -> prog B) : prog B :=
  match p with
  | Done a => f a
  | CallAuth call k => CallAuth call (fun ok => bind (k ok) f)
  | CallSearch r k => CallSearch r (fun resp => bind (k resp) f)
  end.

Record foundEntry : Type := mkFound {
  original : track;
  spotify : spTrack;
  found_uri : string
}.

Record matchResults : Type := mkResults {
  found : list foundEntry;
  notFound : list track;
  total : nat
}.

(** The line logged for a match reads [bestMatch.artists[0].name]: it
    throws when [artists] is missing or empty. *)
Definition hasFirstArtist (t : spTrack) : bool :=
  match sp_artists t with
  | Some (_ :: _) => true
  | _ => false
  end.

(** The [for] loop of [searchAndMatchTracks]; nothing catches what
    [findBestMatch] or the logging throws. *)
Fixpoint matchLoop (appleTracks : list track) (results : matchResults)
    : prog (completion matchResults) :=
  match appleTracks with
  | [] => Done (Return results)
  | t :: rest =>
      bind (searchTrack (name t) (artist t) (album t))
        (fun searchResults =>
           match findBestMatch searchResults t with
           | Return (Some bestMatch) =>
               if hasFirstArtist bestMatch then
                 matchLoop rest
                   (mkResults
                      (found results ++ [mkFound t bestMatch (uri bestMatch)])
                      (notFound results) (total results))
               else Done ThrowTypeError
           | Return None =>
               matchLoop rest
                 (mkResults (found results) (notFound results ++ [t])
                            (total results))
           | ThrowError msg => Done (ThrowError msg)
           | ThrowTypeError => Done ThrowTypeError
           end)
  end.

(** [searchAndMatchTracks(appleTracks)] *)
Definition searchAndMatchTracks (appleTracks : list track)
    : prog (completion matchResults) :=
  matchLoop appleTracks (mkResults [] [] (List.length appleTracks)).

(** ** addTracksToPlaylist *)

Record postRequest : Type := mkPost {
  post_playlist : string;
  post_uris : list string
}.

(** The collaborators of a write: the auth object and the endpoint that
    adds a batch to a playlist, answering with the body [D]. *)
Record writer (S D : Type) : Type := mkWriter {
  w_auth : authCall -> S -> SpotifyAuth.outcome unit * S;
  w_post : postRequest -> S -> SpotifyAuth.outcome D * S
}.

Arguments w_auth {S D} w call s.
Arguments w_post {S D} w r s.

Definition addFailure {A : Type} (message : string) : completion A :=
  ThrowError ("Failed to add tracks to playlist: " ++ message)%string.

(** The [for (let i = 0; i < trackUris.length; i += batchSize)] loop.  The
    recursion is on [fuel], an upper bound on the number of iterations;
    [None] is a loop that has not ended when the bound is reached (with
    [batchSize] 0 the source never ends).  The result comes with the
    final state and the requests posted. *)
Fixpoint addBatches {S D : Type} (w : writer S D) (fuel : nat)
    (playlistId : string) (trackUris : list string) (batchSize i : nat)
    (results : list D) (s : S)
    : option (completion (list D)) * S * list postRequest :=
  match fuel with
  | O =>
      if i <? List.length trackUris then (None, s, [])
      else (Some (Return results), s, [])
  | S fuel' =>
      if i <? List.length trackUris then
        let batch := firstn batchSize (skipn i trackUris) in
        match w_auth w GetAuthHeaders s with
        | (SpotifyAuth.Failed message, s1) => (Some (addFailure message), s1, [])
        | (SpotifyAuth.Resolved _, s1) =>
            let r := mkPost playlistId batch in
            match w_post w r s1 with
            | (SpotifyAuth.Failed message, s2) =>
                (Some (addFailure message), s2, [r])
            | (SpotifyAuth.Resolved data, s2) =>
                let '(c, s3, log) :=
                  addBatches w fuel' playlistId trackUris batchSize
                             (i + batchSize) (results ++ [data]) s2 in
                (c, s3, r :: log)
            end
        end
      else (Some (Return results), s, [])
  end.

(** [addTracksToPlaylist(playlistId, trackUris, batchSize = 100)] *)
Definition addTracksToPlaylist {S D : Type} (w : writer S D) (fuel : nat)
    (playlistId : string) (trackUris : list string) (batchSize : nat) (s : S)
    : option (completion (list D)) * S * list postRequest :=
  match w_auth w GetValidAccessToken s with
  | (SpotifyAuth.Failed message, s1) => (Some (addFailure message), s1, [])
  | (SpotifyAuth.Resolved _, s1) =>
      addBatches w fuel playlistId trackUris batchSize 0 [] s1
  end.

End SpotifyClient.

(* ================================================================== *)
(** * index.js                                                         *)
(* ================================================================== *)

Module Cli.
Import Js.

(** [l.join(sep)] for a string separator. *)
Fixpoint joinWith (sep : string) (l : list string) : string :=
  match l with
  | [] => EmptyString
  | [x] => x
  | x :: rest => (x ++ sep ++ joinWith sep rest)%string
  end.

(** The row written for a track that was not found.  The template of the
    source spells the separators with a doubled backslash, [\\t]: each is
    the two characters backslash and [t], not a tab. *)
Definition reportRow (t : SpotifyClient.track) : string :=
  (SpotifyClient.toText (SpotifyClient.name t) ++ "\t"
   ++ SpotifyClient.toText (SpotifyClient.artist t) ++ "\t"
   ++ SpotifyClient.toText (SpotifyClient.album t))%string.

(** The content written to [<playlistName>_not_found.txt]; the rows are
    joined with backslash and [n], and the header ends in the same two
    characters. *)
Definition reportContent (notFound : list SpotifyClient.track) : string :=
  ("Name\tArtist\tAlbum\n" ++ joinWith "\n" (map reportRow notFound))%string.

Definition reportFile (playlistName : string) : string :=
  (playlistName ++ "_not_found.txt")%string.

(** [client.searchAndMatchTracks(appleTracks)] is given the canonical
    tracks of the parser.  A canonical track of the tab-delimited path
    holds strings. *)
Definition fromTab (c : ApplePlaylistParser.canonical) : SpotifyClient.track :=
  SpotifyClient.mkTrack
    (SpotifyClient.Str (ApplePlaylistParser.name c))
    (SpotifyClient.Str (ApplePlaylistParser.artist c))
    (SpotifyClient.Str (ApplePlaylistParser.album c))
    (ApplePlaylistParser.duration c).

(** A field of a canonical track of the property-list path, as the
    client reads it; [text] is what the conversion of the value to a
    string gives. *)
Definition attrOf (v : AppleXmlParser.value) (text : string) : SpotifyClient.attr :=
  match v with
  | AppleXmlParser.VStr s => SpotifyClient.Str s
  | _ => SpotifyClient.Other text (AppleXmlParser.truthy v)
  end.

End Cli.

(* ================================================================== *)
(** * Reference definitions, in the words of the specification         *)
(* ================================================================== *)

Module Reference.
Import Js.

(** [l.join(sep)] *)
Fixpoint join (sep : ascii) (l : list string) : string :=
  match l with
  | [] => EmptyString
  | [x] => x
  | x :: rest => (x ++ String sep (join sep rest))%string
  end.

(** A letter: of the Basic Latin alphabet, or one of the letters of the
    Latin-1 Supplement (the ordinal indicators, the micro sign, and
    U+00C0 to U+00FF except the multiplication and division signs). *)
Definition isLetter (c : ascii) : bool :=
  isUpper c || isLower c
  || (code c =? 170) || (code c =? 181) || (code c =? 186)
  || between 192 214 (code c) || between 216 246 (code c)
  || between 248 255 (code c).

(** Alphanumeric: a letter or a digit. *)
Definition isAlphanumeric (c : ascii) : bool := isLetter c || isDigit c.

(** "lowercase, strip all characters that are not alphanumeric or
    whitespace, trim" *)
Definition normalize (s : string) : string :=
  trim (keepChars (fun c => isAlphanumeric c || isWhiteSpace c) (toLowerCase s)).

Fixpoint occurs (c : ascii) (s : string) : bool :=
  match s with
  | EmptyString => false
  | String c' s' => Ascii.eqb c c' || occurs c s'
  end.

(** The characters that stay: the letters of the Basic Latin alphabet,
    the digits and the underscore, and the white space characters by
    their code. *)
Definition wordCharacters : string :=
  "abcdefghijklmnopqrstuvwxyzABCDEFGHIJKLMNOPQRSTUVWXYZ0123456789_".

Definition whiteSpaceCodes : list nat := [9; 10; 11; 12; 13; 32; 160].

Definition stays (c : ascii) : bool :=
  occurs c wordCharacters || existsb (Nat.eqb (code c)) whiteSpaceCodes.

(** "lowercase, strip every character other than a Basic Latin letter, a
    digit, the underscore or white space, trim" *)
Definition normalizeWord (s : string) : string :=
  trim (keepChars stays (toLowerCase s)).

(** What is left of a normalized string: small Basic Latin letters,
    digits, underscores and white space. *)
Definition leftover (c : ascii) : bool :=
  occurs c "abcdefghijklmnopqrstuvwxyz0123456789_"
  || existsb (Nat.eqb (code c)) whiteSpaceCodes.

(** A string of Basic Latin characters (code below 128) without
    underscore. *)
Fixpoint basicNoUnderscore (s : string) : bool :=
  match s with
  | EmptyString => true
  | String c s' =>
      (code c <? 128) && negb (code c =? 95) && basicNoUnderscore s'
  end.

(** An integer that a JavaScript number holds exactly
    ([Number.MAX_SAFE_INTEGER] is 2^53 - 1). *)
Definition safeInteger (z : Z) : Prop := (Z.abs z <= 2 ^ 53 - 1)%Z.

(** "2-part: minutes:seconds, 3-part: hours:minutes:seconds, else integer
    parse with fallback 0 on failure" *)
Definition durationOf (s : string) : num :=
  match split colon s with
  | [minutes; seconds] =>
      nadd (nmul (parseInt minutes) (Fin 60)) (parseInt seconds)
  | [hours; minutes; seconds] =>
      nadd (nadd (nmul (parseInt hours) (Fin 3600))
                 (nmul (parseInt minutes) (Fin 60)))
           (parseInt seconds)
  | _ => match parseInt s with
         | NaN => Fin 0
         | Fin z => Fin z
         end
  end.

(** A string of decimal digits. *)
Fixpoint allDigits (s : string) : bool :=
  match s with
  | EmptyString => true
  | String c s' => isDigit c && allDigits s'
  end.

(** A string in which the separator does not occur. *)
Fixpoint lacks (sep : ascii) (s : string) : bool :=
  match s with
  | EmptyString => true
  | String c s' => negb (Ascii.eqb c sep) && lacks sep s'
  end.

(** A list obtained from another by deleting elements. *)
Inductive subseq {A : Type} : list A -> list A -> Prop :=
| subseq_nil : subseq [] []
| subseq_skip x l1 l2 : subseq l1 l2 -> subseq l1 (x :: l2)
| subseq_keep x l1 l2 : subseq l1 l2 -> subseq (x :: l1) (x :: l2).

Section Precedence.
Import AppleXmlParser.

Variables (strings integers dates : list xml) (trues falses : nat)
          (arrays : list arrayEntry).

(** The values a dict node offers to the key named [key], in the
    precedence order: strings, integers, dates, true markers, false
    markers, arrays. *)
Definition offered (key : string) : list value :=
  map (fun x => cleanString (ofXml x)) strings
  ++ map (fun x => VNum (parseInt (toStr x))) integers
  ++ map VDate dates
  ++ repeat (VBool true) trues
  ++ repeat (VBool false) falses
  ++ map (arrayValue key) arrays.

Definition available : nat :=
  List.length strings + List.length integers + List.length dates
  + trues + falses + List.length arrays.

(** Keys paired, in order, with the values at positions [p], [p+1], ...;
    the pairing stops where the values run out. *)
Fixpoint pairUp (keys : list string) (p : nat) : JsObject value :=
  match keys with
  | [] => []
  | key :: rest =>
      match nth_error (offered key) p with
      | Some v => (key, v) :: pairUp rest (S p)
      | None => []
      end
  end.

(** The cursors after [p] values have been drawn. *)
Definition cursorsAt (p : nat) : cursors :=
  let ls := List.length strings in
  let li := List.length integers in
  let ld := List.length dates in
  let la := List.length arrays in
  mkCursors (Nat.min p ls)
            (Nat.min (p - ls) li)
            (Nat.min (p - (ls + li)) ld)
            (Nat.min (p - (ls + li + ld)) trues)
            (Nat.min (p - (ls + li + ld + trues)) falses)
            (Nat.min (p - (ls + li + ld + trues + falses)) la).

End Precedence.

(** The entries [parseDict] builds for the children of [array]. *)
Definition entriesOf (a : list AppleXmlParser.xml)
    : list AppleXmlParser.arrayEntry :=
  map (fun arrayData =>
         (arrayData,
          if AppleXmlParser.truthyJs (AppleXmlParser.x_dict arrayData)
          then Some (map AppleXmlParser.parseDict
                         (AppleXmlParser.asArray (AppleXmlParser.x_dict arrayData)))
          else None))
      a.

(** Array indices paired with their names, compared by value. *)
Definition ascending (a b : Z * string) : Prop := (fst a <= fst b)%Z.

(** A bucket that is not a single empty element. *)
Definition plain (l : list AppleXmlParser.xml) : bool :=
  match l with
  | [x] => AppleXmlParser.truthyXml x
  | _ => true
  end.

Section Scoring.
Import SpotifyClient.

(** The index the scan ends on, from the scores alone: [i] is the index
    of the head of the list, [ib] the index of the current best and [bs]
    its score. *)
Fixpoint bestIndex (ss : list Z) (i ib : nat) (bs : Z) : nat :=
  match ss with
  | [] => ib
  | s :: ss' =>
      if (s >? bs)%Z then bestIndex ss' (S i) i s
      else bestIndex ss' (S i) ib bs
  end.

(** What the running best satisfies once the scores [seen] have been
    scanned: it bounds them, and it is either the initial best with
    score 0 or the first candidate to reach its score. *)
Definition runningBest (seen : list Z) (ib : nat) (bs : Z) : Prop :=
  (0 <= bs)%Z /\
  (forall j s, nth_error seen j = Some s -> (s <= bs)%Z) /\
  ((ib = 0 /\ bs = 0%Z) \/
   (nth_error seen ib = Some bs /\
    forall j s, j < ib -> nth_error seen j = Some s -> (s < bs)%Z)).

(** A track whose name and artist are strings and whose album is a
    string or is falsy. *)
Definition isStr (a : attr) : bool :=
  match a with Str _ => true | Other _ _ => false end.

Definition albumUsable (originalTrack : track) : bool :=
  isStr (album originalTrack) || negb (truthyAttr (album originalTrack)).

Definition textual (originalTrack : track) : bool :=
  isStr (name originalTrack) && isStr (artist originalTrack)
  && albumUsable originalTrack.

(** A search result that carries what the scorer reads: a name, a first
    artist with a name and, when the track has an album, an album with a
    name. *)
Definition scorable (originalTrack : track) (t : spTrack) : bool :=
  match sp_name t, sp_artists t with
  | Some _, Some (first :: _) =>
      match artist_name first with
      | Some _ =>
          if truthyAttr (album originalTrack) then
            match sp_album t with
            | Some al => match album_name al with Some _ => true | None => false end
            | None => false
            end
          else true
      | None => false
      end
  | _, _ => false
  end.

(** The character [U+0022]. *)
Definition doubleQuote : ascii := "034"%char.

Definition inQuotes (s : string) : string :=
  String doubleQuote (s ++ String doubleQuote EmptyString)%string.

(** The field-qualified query: [track:"..." artist:"..."], followed by
    [album:"..."] when the album is given. *)
Definition fieldQualified (trackName artistName : string)
    (albumName : option string) : string :=
  match albumName with
  | Some al =>
      ("track:" ++ inQuotes trackName ++ " artist:" ++ inQuotes artistName
       ++ " album:" ++ inQuotes al)%string
  | None =>
      ("track:" ++ inQuotes trackName ++ " artist:" ++ inQuotes artistName)%string
  end.

(** The free-text query: the quoted name and the quoted artist. *)
Definition freeText (trackName artistName : string) : string :=
  (inQuotes trackName ++ " " ++ inQuotes artistName)%string.

(** A search for tracks, five results at most. *)
Definition trackSearch (query : string) : request :=
  {| q := query; type_ := "track"; limit := 5 |}.

(** The candidates of a response; none when the request failed. *)
Definition itemsOf (r : response) : list spTrack :=
  match r with
  | Items items => items
  | Rejected => []
  end.

End Scoring.

Section Library.
Import AppleXmlParser.

(** An entry of the Tracks dict, [(identifier key, track dict)], is kept
    when the decoded dict has a name and an artist or album artist. *)
Definition retained (e : xml * xml) : bool :=
  let track := parseDict (snd e) in
  truthyOpt (obj_get "Name" track)
  && (truthyOpt (obj_get "Artist" track)
      || truthyOpt (obj_get "Album Artist" track)).

(** The track stored for an entry: the decoded dict stamped with the
    identifier parsed from its key. *)
Definition stamped (e : xml * xml) : JsObject value :=
  obj_set "Track ID" (VNum (parseInt (toStr (fst e)))) (parseDict (snd e)).

(** The entries of the Tracks dict of a document, in document order. *)
Definition tracksEntries (plist : jsval) : list (xml * xml) :=
  let tracksDict := field x_dict (field x_dict plist) in
  combine (asArray (field x_key tracksDict)) (asArray (field x_dict tracksDict)).

(** A canonical track is kept when its name and artist are truthy. *)
Definition valid (track : JsObject value) : bool :=
  truthy (name (toCanonical track)) && truthy (artist (toCanonical track)).

(** A playlist whose name is the string [pname]. *)
Definition named (pname : string) (pl : JsObject value) : Prop :=
  obj_get "Name" pl = Some (VStr pname).

(** The first playlist of the list named [pname]. *)
Definition firstNamed (pls : list (JsObject value)) (pname : string)
    (pl : JsObject value) : Prop :=
  exists before after,
    pls = before ++ pl :: after /\
    named pname pl /\
    forall q, In q before -> ~ named pname q.

(** A track is listed by the items with identifiers [ids] when its
    identifier is a number other than 0 and NaN that is the identifier
    of one of the items. *)
Definition listed (ids : list value) (track : JsObject value) : bool :=
  match obj_get "Track ID" track with
  | Some (VNum (Fin z)) =>
      negb (z =? 0)%Z
      && existsb (fun id => match id with
                            | VNum (Fin y) => (y =? z)%Z
                            | _ => false
                            end) ids
  | _ => false
  end.

(** An identifier that a JavaScript number holds exactly, when it is an
    integer. *)
Definition exactId (id : value) : Prop :=
  forall z, id = VNum (Fin z) -> safeInteger z.

Definition exactTrack (track : JsObject value) : Prop :=
  forall id, obj_get "Track ID" track = Some id -> exactId id.

(** The document has a Tracks dict: its main dict declares the key
    [Tracks] and has a single truthy [dict] child with truthy [key] and
    [dict] properties. *)
Definition hasTracksDict (plist : jsval) : Prop :=
  let mainDict := field x_dict plist in
  let tracksDict := field x_dict mainDict in
  In (Text "Tracks") (asArray (field x_key mainDict)) /\
  truthyJs tracksDict = true /\
  truthyJs (field x_key tracksDict) = true /\
  truthyJs (field x_dict tracksDict) = true.

End Library.

End Reference.

(* ================================================================== *)
(** * Sample inputs                                                    *)
(* ================================================================== *)

Module Samples.
Import Js Reference.

(** A tab-delimited export with blank lines and a short row. *)
Definition tabExport : string :=
  join newline
    [join tab ["Name"; "Artist"; "Time"];
     "";
     join tab ["Let It Be"; "The Beatles"; "4:03"];
     "   ";
     join tab ["Yesterday"; "The Beatles"]].

(** A tab-delimited export that declares the same header twice. *)
Definition tabRepeatedHeader : string :=
  join newline [join tab ["A"; "A"]; join tab ["x"; "y"]].

(** Two search results, the first with an empty [artists] array. *)
Definition noArtist : SpotifyClient.spTrack :=
  SpotifyClient.mkSpTrack (Some "Let It Be") (Some [])
    (Some (SpotifyClient.mkAlbum (Some "Let It Be"))) (Some 243000%Z)
    "spotify:track:1".

Definition remastered : SpotifyClient.spTrack :=
  SpotifyClient.mkSpTrack (Some "Let It Be (Remastered)")
    (Some [SpotifyClient.mkArtist (Some "The Beatles")])
    (Some (SpotifyClient.mkAlbum (Some "Let It Be"))) (Some 243000%Z)
    "spotify:track:2".

Definition punctuated : SpotifyClient.spTrack :=
  SpotifyClient.mkSpTrack (Some "let it be!")
    (Some [SpotifyClient.mkArtist (Some "Beatles, The")])
    None (Some 245000%Z) "spotify:track:3".

Definition letItBe : SpotifyClient.track :=
  SpotifyClient.mkTrack (SpotifyClient.Str "Let It Be")
    (SpotifyClient.Str "The Beatles") (SpotifyClient.Str "") (Fin 243).

(** A track dict as a library export writes it: the identifier is an
    integer, the name and the artist are strings,
    [<key>Track ID</key><integer>1</integer><key>Name</key>
     <string>Let It Be</string><key>Artist</key>
     <string>The Beatles</string>]. *)
Definition exportedTrack : AppleXmlParser.xml :=
  AppleXmlParser.Elem
    [AppleXmlParser.Text "Track ID"; AppleXmlParser.Text "Name";
     AppleXmlParser.Text "Artist"]
    [AppleXmlParser.Text "Let It Be"; AppleXmlParser.Text "The Beatles"]
    [AppleXmlParser.Text "1"] [] [] [] [] [].

(** The canonical track the property-list path makes of it, as handed to
    the client: the values are drawn by type, so the name is the second
    string and the artist is the integer. *)
Definition misread : SpotifyClient.track :=
  let c := AppleXmlParser.toCanonical
             (stamped (AppleXmlParser.Text "1", exportedTrack)) in
  SpotifyClient.mkTrack
    (Cli.attrOf (AppleXmlParser.name c) "The Beatles")
    (Cli.attrOf (AppleXmlParser.artist c) "1")
    (Cli.attrOf (AppleXmlParser.album c) "")
    (Fin 0).

(** A remote catalog that finds nothing at the first request and one
    track at every later one; its state counts the requests. *)
Definition emptyThenFound : SpotifyClient.world nat :=
  SpotifyClient.mkWorld nat
    (fun _ n => (true, n))
    (fun _ n => (if n =? 0 then SpotifyClient.Items []
                 else SpotifyClient.Items [remastered], S n)).

(** A dict node that declares the key [A] twice and offers two strings. *)
Definition repeatedKey : AppleXmlParser.xml :=
  AppleXmlParser.Elem
    [AppleXmlParser.Text "A"; AppleXmlParser.Text "A"]
    [AppleXmlParser.Text "x"; AppleXmlParser.Text "y"]
    [] [] [] [] [] [].

Section Library.
Import AppleXmlParser.

(** A track dict: two strings, one integer, one true marker. *)
Definition trackDict (title by_ millis : string) : xml :=
  Elem [Text "Name"; Text "Artist"; Text "Total Time"; Text "Loved"]
       [Text title; Text by_] [Text millis] [] [Text ""] [] [] [].

Definition itemDict (id : string) : xml :=
  Elem [Text "Track ID"] [] [Text id] [] [] [] [] [].

(** A playlist that lists track 2, track 1 and track 2 again. *)
Definition favourites : xml :=
  Elem [Text "Name"; Text "Playlist Items"] [Text "Favourites"] [] [] [] []
       [Elem [] [] [] [] [] [] [] [itemDict "2"; itemDict "1"; itemDict "2"]]
       [].

(** A playlist with a name and nothing else. *)
Definition emptyPlaylist : xml :=
  Elem [Text "Name"] [Text "Empty"] [] [] [] [] [] [].

Definition library : jsval :=
  Single
    (Elem [] [] [] [] [] [] []
       [Elem [Text "Tracks"; Text "Playlists"] [] [] [] [] []
          [Elem [] [] [] [] [] [] [] [favourites; emptyPlaylist]]
          [Elem [Text "1"; Text "2"; Text "3"] [] [] [] [] [] []
             [trackDict "Let It Be" "The Beatles" "243000";
              trackDict "&#38;#38;" "Ampersand" "1000";
              trackDict "Yesterday" "The Beatles" "125000"]]]).

(** The parser after [parseFile] on the library. *)
Definition parsedLibrary : parser :=
  match parseFile library newParser with
  | Return p => p
  | _ => newParser
  end.

(** A playlist that lists track 1. *)
Definition mix : xml :=
  Elem [Text "Name"; Text "Playlist Items"] [Text "Mix"] [] [] [] []
       [Elem [] [] [] [] [] [] [] [itemDict "1"]]
       [].

(** A playlist of the same name without items. *)
Definition emptyMix : xml :=
  Elem [Text "Name"] [Text "Mix"] [] [] [] [] [] [].

(** A library with one track and the two playlists named [Mix], the one
    without items first. *)
Definition shadowed : jsval :=
  Single
    (Elem [] [] [] [] [] [] []
       [Elem [Text "Tracks"; Text "Playlists"] [] [] [] [] []
          [Elem [] [] [] [] [] [] [] [emptyMix; mix]]
          [Elem [Text "1"] [] [] [] [] [] []
             [trackDict "Let It Be" "The Beatles" "243000"]]]).

Definition parsedShadowed : parser :=
  match parseFile shadowed newParser with
  | Return p => p
  | _ => newParser
  end.

(** A dict whose keys include array indices. *)
Definition indexedKeys : xml :=
  Elem [Text "b"; Text "10"; Text "2"; Text "a"]
       [Text "w"; Text "x"; Text "y"; Text "z"] [] [] [] [] [] [].

End Library.

End Samples.

(* ================================================================== *)
(** * Auxiliary definitions                                            *)
(* ================================================================== *)

Module Auxiliary.
Import Js.

(** Every character of the string satisfies [P]. *)
Fixpoint allChars (P : ascii -> bool) (s : string) : bool :=
  match s with
  | EmptyString => true
  | String c s' => P c && allChars P s'
  end.

(** A character that [toLowerCase] leaves as it is. *)
Definition lowered (c : ascii) : bool := Ascii.eqb (lowerChar c) c.

(** A character that [/[^\w\s]/g] does not remove. *)
Definition kept (c : ascii) : bool := isWordChar c || isWhiteSpace c.

(** A Basic Latin character other than the underscore. *)
Definition basic (c : ascii) : bool := (code c <? 128) && negb (code c =? 95).

(** A line that [filter(line => line.trim())] keeps. *)
Definition nonBlank (line : string) : bool := truthyStr (trim line).

(** A search result with a name, a first artist with a name and an
    album with a name. *)
Definition wellFormed (t : SpotifyClient.spTrack) : bool :=
  match SpotifyClient.sp_name t, SpotifyClient.sp_artists t,
        SpotifyClient.sp_album t with
  | Some _, Some (first :: _), Some al =>
      match SpotifyClient.artist_name first, SpotifyClient.album_name al with
      | Some _, Some _ => true
      | _, _ => false
      end
  | _, _, _ => false
  end.

(** A remote catalog all of whose answers hold well-formed results. *)
Definition wellFormedWorld {S : Type} (w : SpotifyClient.world S) : Prop :=
  forall r s items,
    fst (SpotifyClient.search w r s) = SpotifyClient.Items items ->
    forallb wellFormed items = true.

(** The character [&]. *)
Definition ampersand : ascii := ascii_of_nat 38.

(** The elements of [l] whose flag is [b]. *)
Definition picked {A : Type} (b : bool) (l : list A) (flags : list bool) : list A :=
  map fst (filter (fun p => Bool.eqb (snd p) b) (combine l flags)).

(** The parts of what a run leaves behind. *)
Definition resultOf {A S L : Type} (r : A * S * L) : A := fst (fst r).
Definition stateOf {A S L : Type} (r : A * S * L) : S := snd (fst r).
Definition logOf {A S L : Type} (r : A * S * L) : L := snd r.

(** The parts of what an auth method leaves behind. *)
Definition completionOf {S A : Type} (r : SpotifyAuth.result S A) : completion A :=
  fst (fst (fst r)).
Definition authOf {S A : Type} (r : SpotifyAuth.result S A) : SpotifyAuth.auth :=
  snd (fst (fst r)).

(** A writer whose calls all resolve. *)
Definition allResolve {S D : Type} (w : SpotifyClient.writer S D) : Prop :=
  (forall call s, exists s',
      SpotifyClient.w_auth w call s = (SpotifyAuth.Resolved tt, s')) /\
  (forall r s, exists d s',
      SpotifyClient.w_post w r s = (SpotifyAuth.Resolved d, s')).

(** What the batch loop started at index [i] with the responses
    [results] leaves behind. *)
Definition addSpec {S D : Type} (w : SpotifyClient.writer S D)
    (playlistId : string) (trackUris : list string) (batchSize i : nat)
    (results : list D)
    (r : option (completion (list D)) * S * list SpotifyClient.postRequest)
    : Prop :=
  exists c rest,
    resultOf r = Some c /\
    List.concat (map SpotifyClient.post_uris (logOf r)) ++ rest
    = skipn i trackUris /\
    Forall (fun q => SpotifyClient.post_playlist q = playlistId /\
                     0 < List.length (SpotifyClient.post_uris q) <= batchSize)
           (logOf r) /\
    (forall j, Datatypes.S j < List.length (logOf r) ->
       List.length (SpotifyClient.post_uris
                      (nth j (logOf r) (SpotifyClient.mkPost playlistId [])))
       = batchSize) /\
    (List.length trackUris <= i -> logOf r = []) /\
    c <> ThrowTypeError /\
    (forall msg, c = ThrowError msg ->
       exists m, msg = ("Failed to add tracks to playlist: " ++ m)%string) /\
    (forall out, c = Return out ->
       rest = [] /\
       List.length out = List.length results + List.length (logOf r) /\
       List.length trackUris - i <= List.length (logOf r) * batchSize /\
       List.length (logOf r) * batchSize
       < List.length trackUris - i + batchSize) /\
    (allResolve w -> exists out, c = Return out).

End Auxiliary.

(* ================================================================== *)
(** * More sample inputs                                               *)
(* ================================================================== *)

Module MoreSamples.
Import Js.

(** A catalog that answers every request with the same two results. *)
Definition twoResults : SpotifyClient.world nat :=
  SpotifyClient.mkWorld nat
    (fun _ n => (true, n))
    (fun _ n => (SpotifyClient.Items [Samples.remastered; Samples.remastered], S n)).

(** A write endpoint that accepts every batch and answers with the
    number of batches seen so far. *)
Definition accepting : SpotifyClient.writer nat nat :=
  SpotifyClient.mkWriter nat nat
    (fun _ n => (SpotifyAuth.Resolved tt, n))
    (fun _ n => (SpotifyAuth.Resolved n, S n)).

(** A token endpoint that issues [tok] for an hour; the state is the
    clock, which advances by one second at every reading. *)
Definition hourly : SpotifyAuth.env Z :=
  SpotifyAuth.mkEnv Z
    (fun _ t =>
       (SpotifyAuth.Resolved
          (SpotifyAuth.mkTokenResponse (Some "tok") None (Fin 3600)), t))
    (fun t => (t, (t + 1000)%Z)).

(** Collaborators with no access token to give. *)
Definition noToken : SpotifyClient.world nat :=
  SpotifyClient.mkWorld nat
    (fun _ n => (false, n))
    (fun _ n => (SpotifyClient.Items [Samples.remastered], S n)).

End MoreSamples.

(* ================================================================== *)
(** * Properties                                                       *)
(* ================================================================== *)

Import Js.

(** ** Objects *)

Section ObjectFacts.
Context {V : Type}.
Implicit Types (o : JsObject V) (k : string) (v : V).

Lemma obj_put_same k v o : obj_get k (obj_put k v o) = Some v.
Proof.
  induction o as [|[k' v'] o IH]; simpl.
  - now rewrite String.eqb_refl.
  - destruct (String.eqb k k') eqn:E; simpl; rewrite E; auto.
Qed.

Lemma obj_put_other k k' v o :
  k <> k' -> obj_get k' (obj_put k v o) = obj_get k' o.
Proof.
  intros Hne. induction o as [|[k0 v0] o IH]; simpl.
  - destruct (String.eqb k' k) eqn:E; auto.
    apply String.eqb_eq in E. congruence.
  - destruct (String.eqb k k0) eqn:E; simpl.
    + apply String.eqb_eq in E. subst k0.
      destruct (String.eqb k' k) eqn:E'; auto.
      apply String.eqb_eq in E'. congruence.
    + now rewrite IH.
Qed.

Lemma obj_set_same k v o :
  k <> proto_name -> obj_get k (obj_set k v o) = Some v.
Proof.
  intros Hk. unfold obj_set.
  destruct (String.eqb k proto_name) eqn:E.
  - apply String.eqb_eq in E. contradiction.
  - apply obj_put_same.
Qed.

Lemma obj_set_other k k' v o :
  k <> k' -> obj_get k' (obj_set k v o) = obj_get k' o.
Proof.
  intros Hne. unfold obj_set.
  destruct (String.eqb k proto_name); auto using obj_put_other.
Qed.

Lemma obj_put_keys k k' v o :
  In k' (obj_keys (obj_put k v o)) -> k' = k \/ In k' (obj_keys o).
Proof.
  induction o as [|[k0 v0] o IH]; simpl.
  - intros [H|[]]; auto.
  - destruct (String.eqb k k0) eqn:E; simpl; intros [H|H]; auto.
    destruct (IH H); auto.
Qed.

Lemma obj_set_keys k k' v o :
  In k' (obj_keys (obj_set k v o)) -> k' = k \/ In k' (obj_keys o).
Proof.
  unfold obj_set. destruct (String.eqb k proto_name); intros H.
  - now right.
  - now apply obj_put_keys in H.
Qed.

(** A fresh name is added last. *)
Lemma obj_put_fresh k v o :
  ~ In k (obj_keys o) -> obj_put k v o = o ++ [(k, v)].
Proof.
  induction o as [|[k0 v0] o IH]; simpl; intros Hnin; auto.
  destruct (String.eqb k k0) eqn:E.
  - apply String.eqb_eq in E. subst. tauto.
  - f_equal. apply IH. tauto.
Qed.

End ObjectFacts.

(** ** The tab-delimited decoder *)

Section TabFacts.
Import ApplePlaylistParser.

(** [values[index] || ''] is the cell at [index], empty past the end. *)
Lemma cell_default (values : list string) (index : nat) :
  match nth_error values index with
  | Some v => if truthyStr v then v else EmptyString
  | None => EmptyString
  end = nth index values EmptyString.
Proof.
  revert index. induction values as [|x xs IH]; intros [|n]; simpl; auto.
  destruct x; reflexivity.
Qed.

Lemma fillTrack_other headers : forall index values track k,
  ~ In k headers ->
  obj_get k (fillTrack headers index values track) = obj_get k track.
Proof.
  induction headers as [|h hs IH]; simpl; intros index values track k Hnin; auto.
  rewrite IH by tauto. apply obj_set_other. intros ->. tauto.
Qed.

Lemma fillTrack_get headers : forall index values track i h,
  nth_error headers i = Some h ->
  h <> proto_name ->
  ~ In h (skipn (S i) headers) ->
  obj_get h (fillTrack headers index values track)
  = Some (nth (index + i) values EmptyString).
Proof.
  induction headers as [|h0 hs IH]; intros index values track i h Hi Hp Hlast.
  - destruct i; discriminate.
  - destruct i as [|i]; simpl in *.
    + injection Hi as ->.
      rewrite fillTrack_other by assumption.
      rewrite obj_set_same by assumption.
      rewrite cell_default. now rewrite Nat.add_0_r.
    + rewrite (IH (S index) values _ i h Hi Hp Hlast).
      now rewrite Nat.add_succ_r.
Qed.

Lemma fillTrack_keys headers : forall index values track k,
  In k (obj_keys (fillTrack headers index values track)) ->
  In k headers \/ In k (obj_keys track).
Proof.
  induction headers as [|h hs IH]; simpl; intros index values track k Hin; auto.
  destruct (IH _ _ _ _ Hin) as [H|H]; auto.
  destruct (obj_set_keys _ _ _ _ H); auto.
Qed.


(** C6, as stated, fails when a header name is declared twice: the later
    column overwrites the earlier one, so the record read at the first
    header holds the second field of the row. *)
Lemma tab_repeated_header_counterexample :
  exists hdr row,
    contentLines Samples.tabRepeatedHeader = [hdr; row] /\
    nth_error (split tab hdr) 0 = Some "A" /\
    nth_error (split tab row) 0 = Some "x" /\
    parseFile Samples.tabRepeatedHeader = Return [[("A", "y")]] /\
    obj_get "A" [("A", "y")] <> Some "x".
Proof.
  eexists. eexists. repeat split; try reflexivity.
  vm_compute. discriminate.
Qed.

(** C6 (amended): the decoder fails with the empty-input error exactly
    when the content has no non-blank line; otherwise the first non-blank
    line gives the headers H, every later non-blank line gives one record
    (the lines kept are exactly the lines that are not empty once
    trimmed), and for every position i of H whose header
    name is not declared again later in H and is not [__proto__], the
    record holds R[i] at H[i] when i < len(R) and the empty string when
    len(R) <= i; every name in the record is a header, so fields beyond
    the headers are ignored. *)
Theorem tab_decode_positional (content : string) :
  (parseFile content
     = ThrowError "Error parsing Apple Music playlist: File is empty"
   <-> contentLines content = []) /\
  (forall first rest,
     contentLines content = first :: rest ->
     (forall line,
        In line (first :: rest) <->
        In line (split newline content) /\ truthyStr (trim line) = true) /\
     exists records,
       parseFile content = Return records /\
       List.length records = List.length rest /\
       forall j line,
         nth_error rest j = Some line ->
         exists record,
           nth_error records j = Some record /\
           (forall i h,
              nth_error (split tab first) i = Some h ->
              h <> proto_name ->
              ~ In h (skipn (S i) (split tab first)) ->
              (forall cell, nth_error (split tab line) i = Some cell ->
                            obj_get h record = Some cell) /\
              (List.length (split tab line) <= i ->
               obj_get h record = Some EmptyString)) /\
           (forall k, In k (obj_keys record) -> In k (split tab first))).
Proof.
  unfold parseFile. split.
  - destruct (contentLines content); split; intros H; congruence.
  - intros first rest Hlines. split.
    { intros line. rewrite <- Hlines. unfold contentLines.
      apply (filter_In (fun l => truthyStr (trim l))). }
    rewrite Hlines.
    eexists. split; [reflexivity|]. split; [apply length_map|].
    intros j line Hj.
    eexists. split; [now rewrite nth_error_map, Hj|]. split.
    + intros i h Hi Hp Hlast.
      rewrite (fillTrack_get _ 0 _ _ i h Hi Hp Hlast). simpl. split.
      * intros cell Hc. f_equal. now apply nth_error_nth.
      * intros Hlen. f_equal. now apply nth_overflow.
    + intros k Hk. apply fillTrack_keys in Hk. destruct Hk as [H|[]]. exact H.
Qed.

Lemma tab_decode_positional_witness :
  (forall line,
     In line [Reference.join tab ["Name"; "Artist"; "Time"];
              Reference.join tab ["Let It Be"; "The Beatles"; "4:03"];
              Reference.join tab ["Yesterday"; "The Beatles"]] <->
     In line (split newline Samples.tabExport) /\ truthyStr (trim line) = true) /\
  exists records,
    parseFile Samples.tabExport = Return records /\
    List.length records = 2 /\
    forall j line,
      nth_error [Reference.join tab ["Let It Be"; "The Beatles"; "4:03"];
                 Reference.join tab ["Yesterday"; "The Beatles"]] j = Some line ->
      exists record,
        nth_error records j = Some record /\
        (forall i h,
           nth_error ["Name"; "Artist"; "Time"] i = Some h ->
           h <> proto_name ->
           ~ In h (skipn (S i) ["Name"; "Artist"; "Time"]) ->
           (forall cell, nth_error (split tab line) i = Some cell ->
                         obj_get h record = Some cell) /\
           (List.length (split tab line) <= i ->
            obj_get h record = Some EmptyString)) /\
        (forall k, In k (obj_keys record) -> In k ["Name"; "Artist"; "Time"]).
Proof.
  exact (proj2 (tab_decode_positional Samples.tabExport) _ _ eq_refl).
Defined.

End TabFacts.

(** ** Durations *)

Section DurationFacts.
Import ApplePlaylistParser Reference.

Local Abbreviation str := NilEmpty.string_of_uint.

Lemma digit_code c : isDigit c = true -> 48 <= code c <= 57.
Proof.
  unfold isDigit, between. rewrite andb_true_iff, !Nat.leb_le. tauto.
Qed.

Lemma digit_not_space c : isDigit c = true -> isWhiteSpace c = false.
Proof.
  intros H. apply digit_code in H. unfold isWhiteSpace, between.
  rewrite !orb_false_iff, andb_false_iff, !Nat.leb_gt, !Nat.eqb_neq. lia.
Qed.

Lemma digit_not c n : isDigit c = true -> n < 48 \/ 57 < n -> (code c =? n) = false.
Proof.
  intros H Hn. apply digit_code in H. apply Nat.eqb_neq. lia.
Qed.

Lemma str_allDigits u : allDigits (str u) = true.
Proof. induction u; simpl; auto. Qed.

Lemma str_nonempty u : u <> Nil -> truthyStr (str u) = true.
Proof. destruct u; simpl; congruence. Qed.

(** Reading the digits of a numeral continues the accumulation that
    [Nat.of_uint] performs. *)
Lemma readDigits_str u : forall n,
  readDigits digitVal 10 (Some (Z.of_nat n)) (str u)
  = Some (Z.of_nat (Nat.of_uint_acc u n)).
Proof.
  induction u; intros n; simpl; auto;
    change (digitVal _) with (Some 0%Z) || change (digitVal _) with (Some 1%Z)
    || change (digitVal _) with (Some 2%Z) || change (digitVal _) with (Some 3%Z)
    || change (digitVal _) with (Some 4%Z) || change (digitVal _) with (Some 5%Z)
    || change (digitVal _) with (Some 6%Z) || change (digitVal _) with (Some 7%Z)
    || change (digitVal _) with (Some 8%Z) || change (digitVal _) with (Some 9%Z);
    cbv iota beta; rewrite <- IHu; do 2 f_equal;
    rewrite Nat.tail_mul_spec; lia.
Qed.

Lemma readDigits_str_start u :
  u <> Nil ->
  readDigits digitVal 10 None (str u) = Some (Z.of_nat (Nat.of_uint u)).
Proof.
  intros Hu. unfold Nat.of_uint.
  destruct u; try congruence; simpl;
    change (digitVal _) with (Some 0%Z) || change (digitVal _) with (Some 1%Z)
    || change (digitVal _) with (Some 2%Z) || change (digitVal _) with (Some 3%Z)
    || change (digitVal _) with (Some 4%Z) || change (digitVal _) with (Some 5%Z)
    || change (digitVal _) with (Some 6%Z) || change (digitVal _) with (Some 7%Z)
    || change (digitVal _) with (Some 8%Z) || change (digitVal _) with (Some 9%Z);
    cbv iota beta;
    match goal with
    | |- _ = Some (Z.of_nat (Nat.of_uint_acc _ ?m)) => exact (readDigits_str u m)
    end.
Qed.

(** On a non-empty string of digits [parseInt] reads the decimal value. *)
Lemma parseInt_digits s :
  truthyStr s = true -> allDigits s = true ->
  parseInt s = match readDigits digitVal 10 None s with
               | Some v => Fin v
               | None => NaN
               end.
Proof.
  destruct s as [|c r]; [discriminate|]. intros _ Hd. simpl in Hd.
  apply andb_true_iff in Hd. destruct Hd as [Hc Hr].
  unfold parseInt. simpl trimStart. rewrite (digit_not_space c Hc).
  rewrite (digit_not c 45 Hc), (digit_not c 43 Hc) by lia.
  assert (Hhex : match r with
                 | String x r' =>
                     if (code c =? 48) && ((code x =? 120) || (code x =? 88))
                     then Some r' else None
                 | EmptyString => None
                 end = None).
  { destruct r as [|x r']; auto. simpl in Hr.
    apply andb_true_iff in Hr. destruct Hr as [Hx _].
    rewrite (digit_not x 120 Hx), (digit_not x 88 Hx) by lia.
    now rewrite andb_false_r. }
  rewrite Hhex.
  destruct (readDigits digitVal 10 None (String c r)); auto.
  f_equal. lia.
Qed.

Lemma parseInt_str u :
  u <> Nil -> parseInt (str u) = Fin (Z.of_nat (Nat.of_uint u)).
Proof.
  intros Hu. rewrite parseInt_digits by auto using str_nonempty, str_allDigits.
  now rewrite readDigits_str_start.
Qed.

Lemma split_lacks sep s : lacks sep s = true -> split sep s = [s].
Proof.
  induction s as [|c s IH]; simpl; auto.
  rewrite andb_true_iff, negb_true_iff. intros [-> Hs]. now rewrite IH.
Qed.

Lemma split_app sep a b :
  lacks sep a = true ->
  split sep (a ++ String sep b) = a :: split sep b.
Proof.
  induction a as [|c a IH]; simpl.
  - now rewrite Ascii.eqb_refl.
  - rewrite andb_true_iff, negb_true_iff. intros [-> Ha]. now rewrite IH.
Qed.

Lemma digits_lack_colon s : allDigits s = true -> lacks colon s = true.
Proof.
  induction s as [|c s IH]; simpl; auto.
  rewrite andb_true_iff. intros [Hc Hs]. rewrite IH by assumption.
  rewrite andb_true_r. apply negb_true_iff.
  destruct (Ascii.eqb c colon) eqn:E; auto.
  apply Ascii.eqb_eq in E. subst c. discriminate.
Qed.

Lemma str_lacks_colon u : lacks colon (str u) = true.
Proof. apply digits_lack_colon, str_allDigits. Qed.

Lemma truthy_app a b : truthyStr a = true -> truthyStr (a ++ b) = true.
Proof. destruct a; simpl; congruence. Qed.

Lemma parseTime_reference s : parseTime (Some s) = durationOf s.
Proof.
  unfold parseTime, durationOf.
  destruct s as [|c r]; [reflexivity|].
  cbv beta iota delta [truthyStr negb].
  destruct (split colon (String c r)) as [|p0 [|p1 [|p2 [|p3 l]]]]; auto;
    unfold orZero; destruct (parseInt (String c r)) as [|z]; simpl; auto;
    destruct (Z.eqb_spec z 0); subst; auto.
Qed.

(** C7: a two-part colon string is minutes*60 + seconds, a three-part one
    hours*3600 + minutes*60 + seconds, any other string its integer parse
    with 0 when the parse fails; on decimal numerals (within the integers
    a number holds exactly) the parts are read at their decimal value;
    "3:45" is 225, "1:02:03" is 3723, "90" is 90 and the empty string is
    0. *)
Theorem parseTime_durations :
  (forall s, parseTime (Some s) = durationOf s) /\
  (forall m sec : uint, m <> Nil -> sec <> Nil ->
     let total := (Z.of_nat (Nat.of_uint m) * 60 + Z.of_nat (Nat.of_uint sec))%Z in
     safeInteger total ->
     parseTime (Some (str m ++ String colon (str sec))%string) = Fin total) /\
  (forall h m sec : uint, h <> Nil -> m <> Nil -> sec <> Nil ->
     let total := (Z.of_nat (Nat.of_uint h) * 3600 + Z.of_nat (Nat.of_uint m) * 60
                   + Z.of_nat (Nat.of_uint sec))%Z in
     safeInteger total ->
     parseTime (Some (str h ++ String colon (str m ++ String colon (str sec)))%string)
     = Fin total) /\
  (forall n : uint, n <> Nil ->
     safeInteger (Z.of_nat (Nat.of_uint n)) ->
     parseTime (Some (str n)) = Fin (Z.of_nat (Nat.of_uint n))) /\
  parseTime (Some "3:45") = Fin 225 /\
  parseTime (Some "1:02:03") = Fin 3723 /\
  parseTime (Some "90") = Fin 90 /\
  parseTime (Some "") = Fin 0.
Proof.
  split; [exact parseTime_reference|].
  split; [|split; [|split; [|repeat split]]].
  - intros m sec Hm Hs total _. rewrite parseTime_reference. unfold durationOf.
    rewrite split_app, split_lacks by apply str_lacks_colon.
    now rewrite !parseInt_str.
  - intros h m sec Hh Hm Hs total _. rewrite parseTime_reference. unfold durationOf.
    rewrite split_app by apply str_lacks_colon.
    rewrite split_app, split_lacks by apply str_lacks_colon.
    now rewrite !parseInt_str.
  - intros n Hn _. rewrite parseTime_reference. unfold durationOf.
    rewrite split_lacks by apply str_lacks_colon.
    now rewrite parseInt_str.
Qed.

Lemma parseTime_durations_witness :
  parseTime (Some (str (D4 (D0 Nil)) ++ String colon (str (D0 (D7 Nil))))%string)
  = Fin 2407
  /\ parseTime (Some (str (D1 Nil) ++ String colon
                        (str (D0 (D2 Nil)) ++ String colon (str (D0 (D3 Nil)))))%string)
     = Fin 3723
  /\ parseTime (Some (str (D9 (D0 Nil)))) = Fin 90.
Proof.
  destruct parseTime_durations as (_ & H2 & H3 & H1 & _).
  split; [|split].
  - apply (H2 (D4 (D0 Nil)) (D0 (D7 Nil))); try discriminate;
      unfold safeInteger; simpl; lia.
  - apply (H3 (D1 Nil) (D0 (D2 Nil)) (D0 (D3 Nil))); try discriminate;
      unfold safeInteger; simpl; lia.
  - apply (H1 (D9 (D0 Nil))); try discriminate;
      unfold safeInteger; simpl; lia.
Defined.

End DurationFacts.

(** ** The match scorer *)

Section ScoreLemmas.
Import SpotifyClient Reference.

Variables (originalTrackNorm originalArtistNorm : string) (originalTrack : track).

Local Abbreviation score' := (score originalTrackNorm originalArtistNorm originalTrack).
Local Abbreviation scan' := (scan originalTrackNorm originalArtistNorm originalTrack).
Local Abbreviation scored := (fun (c : spTrack) (s : Z) => score' c = Some s).

Lemma tier_nonneg exact partial a b :
  (0 <= exact)%Z -> (0 <= partial)%Z -> (0 <= tier exact partial a b)%Z.
Proof.
  intros He Hp. unfold tier.
  destruct (String.eqb a b); auto.
  destruct (includes a b || includes b a); auto. lia.
Qed.

Lemma tier_upper exact partial a b :
  (0 <= partial <= exact)%Z -> (tier exact partial a b <= exact)%Z.
Proof.
  intros H. unfold tier. destruct (String.eqb a b); [lia|].
  destruct (includes a b || includes b a); lia.
Qed.

Lemma durationPoints_nonneg d ms : (0 <= durationPoints d ms)%Z.
Proof.
  unfold durationPoints.
  destruct (Z.abs (d * 1000 - ms) <=? 2000)%Z; [lia|].
  destruct (Z.abs (d * 1000 - ms) <=? 5000)%Z; lia.
Qed.

Lemma durationPoints_upper d ms : (durationPoints d ms <= 2)%Z.
Proof.
  unfold durationPoints.
  destruct (Z.abs (d * 1000 - ms) <=? 2000)%Z; [lia|].
  destruct (Z.abs (d * 1000 - ms) <=? 5000)%Z; lia.
Qed.

Lemma score_nonneg c s : scored c s -> (0 <= s)%Z.
Proof.
  unfold score.
  destruct (sp_name c) as [tn|]; [|discriminate].
  destruct (sp_artists c) as [[|a l]|]; try discriminate.
  destruct (artist_name a) as [an|]; [|discriminate].
  set (s1 := tier 10 5 _ _). set (s2 := tier 10 5 _ _).
  set (s4 := match duration originalTrack with NaN => _ | Fin d => _ end).
  assert (0 <= s1)%Z by (apply tier_nonneg; lia).
  assert (0 <= s2)%Z by (apply tier_nonneg; lia).
  assert (0 <= s4)%Z.
  { subst s4. destruct (duration originalTrack); [lia|].
    destruct (duration_ms c); [|lia].
    destruct (negb _ && negb _); [apply durationPoints_nonneg|lia]. }
  destruct (truthyAttr (album originalTrack)).
  - destruct (normalized (album originalTrack)) as [aln0|]; [|discriminate].
    destruct (sp_album c) as [al|]; [|discriminate].
    destruct (album_name al) as [aln|]; [|discriminate].
    intros [= <-].
    assert (0 <= tier 3 1 (normalizeString aln) aln0)%Z
      by (apply tier_nonneg; lia).
    lia.
  - intros [= <-]. lia.
Qed.

(** The loop body computes a score exactly for the results that carry
    what it reads, provided the album of the track can be normalized. *)
Lemma score_scorable c :
  score' c <> None <->
  scorable originalTrack c = true /\ albumUsable originalTrack = true.
Proof.
  unfold scorable, score, albumUsable, normalized, isStr.
  destruct (sp_name c); [|intuition congruence].
  destruct (sp_artists c) as [[|a l]|]; try (intuition congruence).
  destruct (artist_name a); [|intuition congruence].
  destruct (album originalTrack) as [al|text [|]]; simpl.
  - destruct (truthyStr al); [|intuition congruence].
    destruct (sp_album c) as [al'|]; [|intuition congruence].
    destruct (album_name al'); intuition congruence.
  - destruct (sp_album c) as [al'|]; [|intuition congruence].
    destruct (album_name al'); intuition congruence.
  - intuition congruence.
Qed.

(** The scan returns the candidate at the index computed from the scores. *)
Lemma scan_bestIndex rest ss :
  Forall2 scored rest ss ->
  forall pre best bs ib,
    nth_error (pre ++ rest) ib = Some best ->
    exists best',
      scan' rest best bs = Return best' /\
      nth_error (pre ++ rest)
                (bestIndex ss (List.length pre) ib bs) = Some best'.
Proof.
  induction 1 as [|c s rest ss Hc Hrest IH]; intros pre best bs ib Hib; simpl.
  - eauto.
  - rewrite Hc.
    replace (pre ++ c :: rest) with ((pre ++ [c]) ++ rest) in *
      by now rewrite <- app_assoc.
    replace (S (List.length pre)) with (List.length (pre ++ [c]))
      by (rewrite length_app; simpl; lia).
    destruct (s >? bs)%Z.
    + apply IH. rewrite nth_error_app1 by (rewrite length_app; simpl; lia).
      now rewrite nth_error_app2, Nat.sub_diag by lia.
    + now apply IH.
Qed.

Lemma bestIndex_runningBest ss : forall seen ib bs,
  runningBest seen ib bs ->
  exists bs', runningBest (seen ++ ss) (bestIndex ss (List.length seen) ib bs) bs'.
Proof.
  induction ss as [|s ss IH]; intros seen ib bs Hinv; simpl.
  - rewrite app_nil_r. eauto.
  - replace (seen ++ s :: ss) with ((seen ++ [s]) ++ ss)
      by now rewrite <- app_assoc.
    replace (S (List.length seen)) with (List.length (seen ++ [s]))
      by (rewrite length_app; simpl; lia).
    destruct Hinv as (Hpos & Hmax & Hbest).
    assert (Hsplit : forall j x, nth_error (seen ++ [s]) j = Some x ->
                       nth_error seen j = Some x \/ (j = List.length seen /\ x = s)).
    { intros j x Hj. destruct (Nat.lt_ge_cases j (List.length seen)).
      - left. now rewrite nth_error_app1 in Hj.
      - right. rewrite nth_error_app2 in Hj by assumption.
        destruct (j - List.length seen) as [|[|n]] eqn:E; simpl in Hj;
          try discriminate. split; [lia|congruence]. }
    destruct (Z.gtb_spec s bs) as [Hgt|Hle]; apply IH; unfold runningBest.
    + split; [lia|]. split.
      * intros j x Hj. destruct (Hsplit j x Hj) as [Hj'|[_ ->]]; [|lia].
        specialize (Hmax j x Hj'). lia.
      * right. split.
        -- now rewrite nth_error_app2, Nat.sub_diag by lia.
        -- intros j x Hlt Hj. rewrite nth_error_app1 in Hj by assumption.
           specialize (Hmax j x Hj). lia.
    + split; [assumption|]. split.
      * intros j x Hj. destruct (Hsplit j x Hj) as [Hj'|[_ ->]]; [eauto|lia].
      * destruct Hbest as [?|[Hib Hlt]]; [now left|right]. split.
        -- rewrite nth_error_app1; auto. apply nth_error_Some. congruence.
        -- intros j x Hj Hx. apply (Hlt j x Hj).
           rewrite nth_error_app1 in Hx; auto.
           assert (ib < List.length seen) by (apply nth_error_Some; congruence).
           lia.
Qed.

Lemma scorable_scores cs :
  albumUsable originalTrack = true ->
  forallb (scorable originalTrack) cs = true ->
  exists ss, Forall2 scored cs ss.
Proof.
  intros Hal. induction cs as [|c cs IH]; simpl.
  - exists []. constructor.
  - rewrite andb_true_iff. intros [Hc Hcs].
    destruct (IH Hcs) as [ss Hss].
    assert (Hsc : score' c <> None) by (apply score_scorable; auto).
    destruct (score' c) as [s|] eqn:E; [|congruence].
    exists (s :: ss). now constructor.
Qed.

Lemma scan_throws rest :
  rest <> [] ->
  albumUsable originalTrack = false \/
  forallb (scorable originalTrack) rest = false ->
  forall best bs, scan' rest best bs = ThrowTypeError.
Proof.
  induction rest as [|c rest IH]; simpl; [congruence|].
  intros _ H best bs.
  destruct (score' c) as [s|] eqn:E; auto.
  assert (Hc : scorable originalTrack c = true /\ albumUsable originalTrack = true)
    by (apply score_scorable; congruence).
  destruct Hc as [Hc Hal]. rewrite Hc in H. simpl in H.
  assert (Hrest : forallb (scorable originalTrack) rest = false)
    by (destruct H; congruence).
  assert (rest <> []) by (intros ->; discriminate).
  destruct (s >? bs)%Z; apply IH; auto.
Qed.

Lemma scan_returns_member rest ss :
  Forall2 scored rest ss ->
  forall best bs, In best rest ->
    exists best', scan' rest best bs = Return best' /\ In best' rest.
Proof.
  intros Hs best bs Hin.
  destruct (In_nth_error _ _ Hin) as [ib Hib].
  destruct (scan_bestIndex rest ss Hs [] best bs ib Hib) as (best' & Hscan & Hnth).
  exists best'. split; auto. simpl in Hnth. eapply nth_error_In; eauto.
Qed.

End ScoreLemmas.

Section FindBestMatchLemmas.
Import SpotifyClient Reference.

Variable originalTrack : track.

Lemma textual_strings :
  textual originalTrack = true ->
  exists n a,
    name originalTrack = Str n /\ artist originalTrack = Str a /\
    albumUsable originalTrack = true.
Proof.
  unfold textual, isStr. rewrite !andb_true_iff. intros [[Hn Ha] Hal].
  destruct (name originalTrack) as [n|]; [|discriminate].
  destruct (artist originalTrack) as [a|]; [|discriminate]. eauto.
Qed.

(** On two or more results the scorer throws when the track is not
    textual or when some result lacks what the loop reads. *)
Lemma findBestMatch_throws cs :
  2 <= List.length cs ->
  textual originalTrack = false \/
  forallb (scorable originalTrack) cs = false ->
  findBestMatch cs originalTrack = ThrowTypeError.
Proof.
  intros Hlen H.
  destruct cs as [|c0 [|c1 cs']]; simpl in Hlen; try lia.
  unfold findBestMatch, normalized.
  destruct (name originalTrack) as [n|] eqn:En; auto.
  destruct (artist originalTrack) as [a|] eqn:Ea; auto.
  rewrite scan_throws; auto; [discriminate|].
  destruct H as [H|H]; auto. left.
  unfold textual in H. rewrite En, Ea in H. exact H.
Qed.

(** On two or more results that carry what the loop reads, for a textual
    track, the scorer is the scan started at the first result with
    score 0. *)
Lemma findBestMatch_scans cs :
  2 <= List.length cs ->
  textual originalTrack = true ->
  forallb (scorable originalTrack) cs = true ->
  exists n a ss c0,
    name originalTrack = Str n /\ artist originalTrack = Str a /\
    hd_error cs = Some c0 /\
    Forall2 (fun c s => score (normalizeString n) (normalizeString a)
                              originalTrack c = Some s) cs ss /\
    findBestMatch cs originalTrack
    = match scan (normalizeString n) (normalizeString a) originalTrack cs c0 0%Z with
      | Return best => Return (Some best)
      | ThrowError msg => ThrowError msg
      | ThrowTypeError => ThrowTypeError
      end.
Proof.
  intros Hlen Ht Hsc.
  destruct (textual_strings Ht) as (n & a & Hn & Ha & Hal).
  destruct (scorable_scores (normalizeString n) (normalizeString a)
              originalTrack cs Hal Hsc) as [ss Hss].
  destruct cs as [|c0 [|c1 cs']]; simpl in Hlen; try lia.
  exists n, a, ss, c0. repeat split; auto.
  unfold findBestMatch. now rewrite Hn, Ha.
Qed.

End FindBestMatchLemmas.

(** ** The scan keeps the first maximum *)

Section FirstMaximum.
Import SpotifyClient Reference.

(** C1, as stated, fails on a canonical track of the property-list path:
    the dict of an exported track gives its values by type, the artist of
    the canonical track is the number 1, and on two results the scorer
    throws before it scans them: no candidate is returned. *)
Lemma findBestMatch_numeric_artist_counterexample :
  AppleXmlParser.artist
    (AppleXmlParser.toCanonical
       (stamped (AppleXmlParser.Text "1", Samples.exportedTrack)))
  = AppleXmlParser.VNum (Fin 1) /\
  artist Samples.misread = Other "1" true /\
  2 <= List.length [Samples.punctuated; Samples.remastered] /\
  findBestMatch [Samples.punctuated; Samples.remastered] Samples.misread
  = ThrowTypeError.
Proof. repeat split. simpl. lia. Qed.

(** C1 (amended): for a track whose name and artist are strings and whose
    album is a string or falsy, and two or more candidates that each
    carry a name, a first artist with a name and, when the track has an
    album, an album with a name, the scan starts from the first
    candidate with score 0, replaces the current best only on a strictly
    greater score (the index it ends on is the one this walk over the
    scores gives), and so returns the candidate at the first index where
    the maximum score is attained: every score is at most the returned
    one, and every earlier score is strictly smaller.  On two or more
    candidates with another track or a candidate that lacks one of
    these, the scorer throws a TypeError and returns no candidate. *)
Theorem findBestMatch_first_maximum (originalTrack : track) (cs : list spTrack) :
  2 <= List.length cs ->
  (textual originalTrack = true ->
   forallb (scorable originalTrack) cs = true ->
   exists n a ss i best top,
     name originalTrack = Str n /\ artist originalTrack = Str a /\
     Forall2 (fun c s => score (normalizeString n) (normalizeString a)
                               originalTrack c = Some s) cs ss /\
     findBestMatch cs originalTrack = Return (Some best) /\
     i = bestIndex ss 0 0 0%Z /\
     nth_error cs i = Some best /\
     nth_error ss i = Some top /\
     (forall j s, nth_error ss j = Some s -> (s <= top)%Z) /\
     (forall j s, j < i -> nth_error ss j = Some s -> (s < top)%Z) /\
     (0 <= top)%Z /\
     (top = 0%Z -> i = 0)) /\
  (textual originalTrack = false \/
   forallb (scorable originalTrack) cs = false ->
   findBestMatch cs originalTrack = ThrowTypeError).
Proof.
  intros Hlen. split; [|now apply findBestMatch_throws].
  intros Ht Hsc.
  destruct (findBestMatch_scans originalTrack cs Hlen Ht Hsc)
    as (n & a & ss & c0 & Hn & Ha & Hhd & Hs & Hfind).
  destruct cs as [|c0' cs']; [discriminate|]. injection Hhd as ->.
  destruct (scan_bestIndex _ _ _ _ _ Hs [] c0 0%Z 0 eq_refl)
    as (best & Hscan & Hnth).
  destruct (bestIndex_runningBest ss [] 0 0%Z) as (top & Hpos & Hmax & Hbest).
  { split; [lia|]. split; [|now left]. intros [|j] s; discriminate. }
  simpl in Hnth, Hbest, Hmax. rewrite Hscan in Hfind.
  exists n, a, ss.
  destruct Hbest as [[Hi Htop]|[Hi Hlt]].
  - (* no score exceeded 0: every score is 0 and the first candidate stays *)
    inversion Hs as [|? s0 ? ss' Hc0 Hs' E1 E2]. subst.
    assert (s0 = 0%Z).
    { pose proof (Hmax 0 s0 eq_refl). pose proof (score_nonneg _ _ _ _ _ Hc0). lia. }
    subst s0. exists 0, best, 0%Z. rewrite Hi in *.
    repeat split; auto; try lia.
  - exists (bestIndex ss 0 0 0%Z), best, top. repeat split; auto.
    intros Htop. destruct (bestIndex ss 0 0 0%Z) as [|i'] eqn:Ei; auto.
    inversion Hs as [|? s0 ? ss' Hc0 Hs' E1 E2]; subst.
    pose proof (Hlt 0 s0 ltac:(lia) eq_refl).
    pose proof (score_nonneg _ _ _ _ _ Hc0). lia.
Qed.

Lemma findBestMatch_first_maximum_witness :
  exists n a ss i best top,
    name Samples.letItBe = Str n /\ artist Samples.letItBe = Str a /\
    Forall2 (fun c s => score (normalizeString n) (normalizeString a)
                              Samples.letItBe c = Some s)
            [Samples.punctuated; Samples.remastered] ss /\
    findBestMatch [Samples.punctuated; Samples.remastered] Samples.letItBe
    = Return (Some best) /\
    i = bestIndex ss 0 0 0%Z /\
    nth_error [Samples.punctuated; Samples.remastered] i = Some best /\
    nth_error ss i = Some top /\
    (forall j s, nth_error ss j = Some s -> (s <= top)%Z) /\
    (forall j s, j < i -> nth_error ss j = Some s -> (s < top)%Z) /\
    (0 <= top)%Z /\
    (top = 0%Z -> i = 0).
Proof.
  apply (findBestMatch_first_maximum Samples.letItBe
           [Samples.punctuated; Samples.remastered]).
  - simpl. lia.
  - reflexivity.
  - reflexivity.
Defined.

(** On the sample the scores are 12 and 17 and the second candidate is
    returned; with the first candidate twice, the earlier one stays. *)
Example first_maximum_samples :
  score (normalizeString "Let It Be") (normalizeString "The Beatles")
        Samples.letItBe Samples.punctuated = Some 12%Z /\
  score (normalizeString "Let It Be") (normalizeString "The Beatles")
        Samples.letItBe Samples.remastered = Some 17%Z /\
  findBestMatch [Samples.punctuated; Samples.remastered] Samples.letItBe
  = Return (Some Samples.remastered) /\
  findBestMatch [Samples.remastered; Samples.punctuated; Samples.remastered]
                Samples.letItBe
  = Return (Some Samples.remastered).
Proof. repeat split. Qed.

End FirstMaximum.

(** ** When the scorer returns *)

Section Totality.
Import SpotifyClient Reference.

(** C3, as stated, fails on a candidate with an empty [artists] array in a
    list of two: reading the name of its first artist throws. *)
Lemma findBestMatch_empty_artists_counterexample :
  sp_artists Samples.noArtist = Some [] /\
  findBestMatch [Samples.noArtist; Samples.remastered] Samples.letItBe
  = ThrowTypeError.
Proof. split; reflexivity. Qed.

(** C3 (amended): selection returns null exactly when the candidate list
    is empty and returns a sole candidate whatever its fields and
    whatever the track; on two or more candidates it returns one of them
    when the name and the artist of the track are strings, its album is
    a string or falsy, and every candidate carries a name, a first
    artist with a name and, if the track has an album, an album with a
    name; it throws a TypeError when the track or some candidate fails
    one of these. *)
Theorem findBestMatch_total_when_scorable (originalTrack : track)
    (cs : list spTrack) :
  (findBestMatch cs originalTrack = Return None <-> cs = []) /\
  (forall c, findBestMatch [c] originalTrack = Return (Some c)) /\
  (2 <= List.length cs ->
   textual originalTrack = true ->
   forallb (scorable originalTrack) cs = true ->
   exists c, In c cs /\ findBestMatch cs originalTrack = Return (Some c)) /\
  (2 <= List.length cs ->
   textual originalTrack = false \/
   forallb (scorable originalTrack) cs = false ->
   findBestMatch cs originalTrack = ThrowTypeError).
Proof.
  split; [|split; [reflexivity|split]].
  - split; [|now intros ->].
    destruct cs as [|c0 [|c1 cs']]; auto; unfold findBestMatch;
      [discriminate|].
    destruct (normalized (name originalTrack)); [|discriminate].
    destruct (normalized (artist originalTrack)); [|discriminate].
    destruct (scan _ _ originalTrack (c0 :: c1 :: cs') c0 0%Z); discriminate.
  - intros Hlen Ht Hall.
    destruct (findBestMatch_scans originalTrack cs Hlen Ht Hall)
      as (n & a & ss & c0 & Hn & Ha & Hhd & Hs & Hfind).
    destruct cs as [|c0' cs']; [discriminate|]. injection Hhd as ->.
    destruct (scan_returns_member _ _ _ _ _ Hs c0 0%Z (or_introl eq_refl))
      as (best & Hscan & Hin).
    exists best. split; auto. now rewrite Hfind, Hscan.
  - apply findBestMatch_throws.
Qed.

Lemma findBestMatch_total_when_scorable_witness :
  (exists c, In c [Samples.punctuated; Samples.remastered] /\
     findBestMatch [Samples.punctuated; Samples.remastered]
       Samples.letItBe = Return (Some c)) /\
  findBestMatch [Samples.noArtist; Samples.remastered]
    Samples.letItBe = ThrowTypeError /\
  findBestMatch [Samples.punctuated; Samples.remastered]
    Samples.misread = ThrowTypeError.
Proof.
  split; [|split].
  - apply (findBestMatch_total_when_scorable Samples.letItBe
             [Samples.punctuated; Samples.remastered]).
    + simpl. lia.
    + reflexivity.
    + reflexivity.
  - apply (findBestMatch_total_when_scorable Samples.letItBe
             [Samples.noArtist; Samples.remastered]).
    + simpl. lia.
    + right. reflexivity.
  - apply (findBestMatch_total_when_scorable Samples.misread
             [Samples.punctuated; Samples.remastered]).
    + simpl. lia.
    + left. reflexivity.
Defined.

End Totality.

(** ** The search strategy *)

Section SearchFacts.
Import SpotifyClient Reference.

Lemma append_associative (a b c : string) :
  ((a ++ b) ++ c = a ++ (b ++ c))%string.
Proof. induction a as [|x a IH]; simpl; congruence. Qed.

Lemma queries_differ trackName artistName albumName :
  trackSearch (fieldQualified trackName artistName albumName)
  <> trackSearch (freeText trackName artistName).
Proof.
  unfold trackSearch, fieldQualified, freeText, inQuotes.
  destruct albumName; simpl; intros [= H]; discriminate.
Qed.

(** C8: whatever the collaborators answer, the requests made are none,
    or the field-qualified primary query alone,
    [track:"name" artist:"artist"] followed by [album:"album"] when the
    album is truthy, or the primary query answered with zero candidates
    followed by the free-text secondary query, ["name" "artist"]; the
    result is the answer to the last request made.  With a valid
    credential the primary query is always issued first, and the
    secondary query is issued exactly when the primary answer holds zero
    candidates, and then the result is the secondary answer alone;
    otherwise no second request is made and the result is the primary
    answer (no candidate when the request failed).  Both requests ask
    for tracks, five at most. *)
Theorem searchTrack_two_tier {S : Type} (w : world S) (s0 : S)
    (trackName artistName albumName : attr) :
  let primary :=
    trackSearch
      (fieldQualified (toText trackName) (toText artistName)
         (if truthyAttr albumName then Some (toText albumName) else None)) in
  let fallback := trackSearch (freeText (toText trackName) (toText artistName)) in
  let outcome := run w (searchTrack trackName artistName albumName) s0 in
  primary <> fallback /\
  ((snd outcome = [] /\ fst (fst outcome) = []) \/
   (exists first,
      snd outcome = [(primary, first)] /\ fst (fst outcome) = itemsOf first) \/
   (exists second,
      snd outcome = [(primary, Items []); (fallback, second)] /\
      fst (fst outcome) = itemsOf second)) /\
  ((forall call s, fst (auth w call s) = true) ->
   exists result final first rest,
     outcome = (result, final, (primary, first) :: rest) /\
     ((first = Items [] /\
       exists second, rest = [(fallback, second)] /\ result = itemsOf second)
      \/
      (first <> Items [] /\ rest = [] /\ result = itemsOf first))).
Proof.
  intros primary fallback outcome. split; [apply queries_differ|].
  assert (Hp : searchRequest (primaryQuery trackName artistName albumName)
               = primary).
  { unfold primary, searchRequest, primaryQuery, trackSearch, fieldQualified.
    destruct (truthyAttr albumName); [|reflexivity].
    f_equal. rewrite !append_associative. reflexivity. }
  assert (Hf : searchRequest (fallbackQuery trackName artistName) = fallback)
    by reflexivity.
  unfold outcome, searchTrack. rewrite Hp, Hf. clear Hp Hf outcome. split.
  - simpl.
    destruct (auth w GetValidAccessToken s0) as [[|] s1]; simpl; auto.
    destruct (auth w GetAuthHeaders s1) as [[|] s2]; simpl; auto.
    destruct (search w primary s2) as [[[|t tracks]|] s3]; simpl.
    + destruct (auth w GetAuthHeaders s3) as [[|] s4]; simpl.
      * destruct (search w fallback s4) as [second s5].
        right. right. exists second. destruct second; simpl; auto.
      * right. left. exists (Items []). auto.
    + right. left. exists (Items (t :: tracks)). auto.
    + right. left. exists Rejected. auto.
  - intros Hauth. simpl.
    pose proof (Hauth GetValidAccessToken s0) as H1.
    destruct (auth w GetValidAccessToken s0) as [ok1 s1]. simpl in H1. subst ok1.
    simpl.
    pose proof (Hauth GetAuthHeaders s1) as H2.
    destruct (auth w GetAuthHeaders s1) as [ok2 s2]. simpl in H2. subst ok2.
    simpl.
    destruct (search w primary s2) as [first s3].
    destruct first as [[|t tracks]|]; simpl.
    + pose proof (Hauth GetAuthHeaders s3) as H3.
      destruct (auth w GetAuthHeaders s3) as [ok3 s4]. simpl in H3. subst ok3.
      simpl.
      destruct (search w fallback s4) as [second s5].
      exists (itemsOf second), s5, (Items []), [(fallback, second)].
      split.
      * destruct second; reflexivity.
      * left. split; auto. eauto.
    + exists (t :: tracks), s3, (Items (t :: tracks)), [].
      split; auto. right. repeat split. discriminate.
    + exists [], s3, Rejected, [].
      split; auto. right. repeat split. discriminate.
Qed.

End SearchFacts.

Lemma searchTrack_two_tier_witness :
  let primary :=
    Reference.trackSearch
      (Reference.fieldQualified "Let It Be" "The Beatles" None) in
  let fallback :=
    Reference.trackSearch (Reference.freeText "Let It Be" "The Beatles") in
  exists result final first rest,
    SpotifyClient.run Samples.emptyThenFound
      (SpotifyClient.searchTrack (SpotifyClient.Str "Let It Be")
         (SpotifyClient.Str "The Beatles") (SpotifyClient.Str "")) 0
    = (result, final, (primary, first) :: rest) /\
    ((first = SpotifyClient.Items [] /\
      exists second, rest = [(fallback, second)] /\
                     result = Reference.itemsOf second)
     \/
     (first <> SpotifyClient.Items [] /\ rest = [] /\
      result = Reference.itemsOf first)).
Proof.
  apply (searchTrack_two_tier Samples.emptyThenFound 0
           (SpotifyClient.Str "Let It Be") (SpotifyClient.Str "The Beatles")
           (SpotifyClient.Str "")).
  intros call s. reflexivity.
Defined.

(** The queries for a track with an album, character by character. *)
Example queries_spelled :
  SpotifyClient.primaryQuery (SpotifyClient.Str "a") (SpotifyClient.Str "b")
                             (SpotifyClient.Str "c")
  = String "t" (String "r" (String "a" (String "c" (String "k" (String ":"
      (String "034" (String "a" (String "034" (String " "
      (String "a" (String "r" (String "t" (String "i" (String "s" (String "t"
      (String ":" (String "034" (String "b" (String "034" (String " "
      (String "a" (String "l" (String "b" (String "u" (String "m" (String ":"
      (String "034" (String "c" (String "034" EmptyString)))))))))))))))))))))))))))))
  /\
  SpotifyClient.fallbackQuery (SpotifyClient.Str "a") (SpotifyClient.Str "b")
  = String "034" (String "a" (String "034" (String " "
      (String "034" (String "b" (String "034" EmptyString)))))).
Proof. split; reflexivity. Qed.

(** ** The dict decoder *)

Section PrecedenceFacts.
Import AppleXmlParser Reference.

Variables (strings integers dates : list xml) (trues falses : nat)
          (arrays : list arrayEntry).

Local Abbreviation offered' := (offered strings integers dates trues falses arrays).
Local Abbreviation available' := (available strings integers dates trues falses arrays).
Local Abbreviation cursorsAt' := (cursorsAt strings integers dates trues falses arrays).
Local Abbreviation pairUp' := (pairUp strings integers dates trues falses arrays).
Local Abbreviation draw' :=
  (fun key => draw key strings integers dates trues falses arrays).
Local Abbreviation loop' :=
  (fun keys => parseDictLoop keys strings integers dates trues falses arrays).

Lemma offered_length key : List.length (offered' key) = available'.
Proof.
  unfold offered, available.
  rewrite !length_app, !length_map, !repeat_length. lia.
Qed.

Lemma nth_error_past {A : Type} (l : list A) n :
  List.length l <= n -> nth_error l n = None.
Proof. apply nth_error_None. Qed.

(** Drawing with the cursors reached after [p] draws yields the [p]-th
    offered value and the cursors reached after [p + 1] draws. *)
Lemma draw_at key p :
  draw' key (cursorsAt' p) = (nth_error (offered' key) p, cursorsAt' (S p)).
Proof.
  unfold draw, cursorsAt, offered.
  cbn [stringIndex integerIndex dateIndex trueCount falseCount arrayIndex].
  set (ls := List.length strings). set (li := List.length integers).
  set (ld := List.length dates). set (la := List.length arrays).
  destruct (Nat.ltb_spec (Nat.min p ls) ls) as [H1|H1].
  { rewrite nth_error_app1 by (rewrite length_map; fold ls; lia).
    rewrite nth_error_map. f_equal.
    - now rewrite Nat.min_l by lia.
    - f_equal; lia. }
  assert (G1 : ls <= p) by lia. clear H1.
  rewrite nth_error_app2 by (rewrite length_map; fold ls; lia).
  rewrite length_map. fold ls.
  destruct (Nat.ltb_spec (Nat.min (p - ls) li) li) as [H2|H2].
  { rewrite nth_error_app1 by (rewrite length_map; fold li; lia).
    rewrite nth_error_map. f_equal.
    - now rewrite Nat.min_l by lia.
    - f_equal; lia. }
  assert (G2 : ls + li <= p) by lia. clear H2.
  rewrite nth_error_app2 by (rewrite length_map; fold li; lia).
  rewrite length_map. fold li. rewrite <- Nat.sub_add_distr.
  destruct (Nat.ltb_spec (Nat.min (p - (ls + li)) ld) ld) as [H3|H3].
  { rewrite nth_error_app1 by (rewrite length_map; fold ld; lia).
    rewrite nth_error_map. f_equal.
    - now rewrite Nat.min_l by lia.
    - f_equal; lia. }
  assert (G3 : ls + li + ld <= p) by lia. clear H3.
  rewrite nth_error_app2 by (rewrite length_map; fold ld; lia).
  rewrite length_map. fold ld. rewrite <- Nat.sub_add_distr.
  destruct (Nat.ltb_spec (Nat.min (p - (ls + li + ld)) trues) trues) as [H4|H4].
  { rewrite nth_error_app1 by (rewrite repeat_length; lia).
    rewrite (@nth_error_repeat _ (VBool true) trues (p - (ls + li + ld))) by lia.
    f_equal. f_equal; lia. }
  assert (G4 : ls + li + ld + trues <= p) by lia. clear H4.
  rewrite nth_error_app2 by (rewrite repeat_length; lia).
  rewrite repeat_length. rewrite <- Nat.sub_add_distr.
  destruct (Nat.ltb_spec (Nat.min (p - (ls + li + ld + trues)) falses) falses)
    as [H5|H5].
  { rewrite nth_error_app1 by (rewrite repeat_length; lia).
    rewrite (@nth_error_repeat _ (VBool false) falses
               (p - (ls + li + ld + trues))) by lia.
    f_equal. f_equal; lia. }
  assert (G5 : ls + li + ld + trues + falses <= p) by lia. clear H5.
  rewrite nth_error_app2 by (rewrite repeat_length; lia).
  rewrite repeat_length. rewrite <- Nat.sub_add_distr.
  destruct (Nat.ltb_spec (Nat.min (p - (ls + li + ld + trues + falses)) la) la)
    as [H6|H6].
  { rewrite nth_error_map. f_equal.
    - now rewrite Nat.min_l by lia.
    - f_equal; lia. }
  rewrite nth_error_past by (rewrite length_map; fold la; lia).
  f_equal. f_equal; lia.
Qed.

Lemma pairUp_exhausted keys p : available' <= p -> pairUp' keys p = [].
Proof.
  intros H. destruct keys as [|key rest]; simpl; auto.
  now rewrite nth_error_past by (rewrite offered_length; lia).
Qed.

(** The loop stores the pairs of [pairUp], one assignment after the
    other. *)
Lemma parseDictLoop_pairUp keys : forall p result,
  loop' keys (cursorsAt' p) result
  = fold_left (fun r kv => obj_set (fst kv) (snd kv) r) (pairUp' keys p) result.
Proof.
  induction keys as [|key rest IH]; intros p result; simpl; auto.
  rewrite draw_at.
  destruct (nth_error (offered' key) p) as [v|] eqn:E; rewrite IH; auto.
  rewrite pairUp_exhausted; auto.
  apply nth_error_None in E. rewrite offered_length in E. lia.
Qed.

Lemma pairUp_keys keys : forall p,
  obj_keys (pairUp' keys p) = firstn (available' - p) keys.
Proof.
  induction keys as [|key rest IH]; intros p; simpl.
  - now rewrite firstn_nil.
  - destruct (nth_error (offered' key) p) as [v|] eqn:E.
    + assert (p < available').
      { rewrite <- (offered_length key). apply nth_error_Some. congruence. }
      replace (available' - p) with (S (available' - S p)) by lia.
      simpl. f_equal. apply IH.
    + apply nth_error_None in E. rewrite offered_length in E.
      now replace (available' - p) with 0 by lia.
Qed.

Lemma pairUp_nth keys : forall p n key,
  nth_error keys n = Some key ->
  p + n < available' ->
  exists v, nth_error (offered' key) (p + n) = Some v /\
            nth_error (pairUp' keys p) n = Some (key, v).
Proof.
  induction keys as [|k rest IH]; intros p n key Hn Hlt.
  - destruct n; discriminate.
  - simpl.
    destruct (nth_error (offered' k) p) as [v|] eqn:E.
    + destruct n as [|n]; simpl in *.
      * injection Hn as <-. exists v. rewrite Nat.add_0_r. auto.
      * replace (p + S n) with (S p + n) in * by lia. now apply IH.
    + apply nth_error_None in E. rewrite offered_length in E. lia.
Qed.

End PrecedenceFacts.

Section AssignFacts.
Import AppleXmlParser.
Context {V : Type}.

(** Assigning pairwise distinct names, none of them [__proto__], builds
    the record in the order of the assignments. *)
Lemma assign_distinct (entries : list (string * V)) : forall (o : JsObject V),
  NoDup (obj_keys o ++ obj_keys entries) ->
  ~ In proto_name (obj_keys entries) ->
  fold_left (fun r kv => obj_set (fst kv) (snd kv) r) entries o = o ++ entries.
Proof.
  induction entries as [|[k v] entries IH]; intros o Hnd Hp; simpl.
  - now rewrite app_nil_r.
  - simpl in Hp.
    assert (Hk : ~ In k (obj_keys o)).
    { apply NoDup_remove_2 in Hnd. intros Hin. apply Hnd.
      apply in_or_app. now left. }
    unfold obj_set at 2.
    destruct (String.eqb_spec k proto_name) as [->|_]; [tauto|].
    rewrite obj_put_fresh by assumption.
    rewrite IH.
    + now rewrite <- app_assoc.
    + unfold obj_keys in *. rewrite map_app. simpl.
      rewrite <- app_assoc. simpl. exact Hnd.
    + tauto.
Qed.

Lemma obj_get_nth (o : JsObject V) : forall n k v,
  NoDup (obj_keys o) ->
  nth_error o n = Some (k, v) ->
  obj_get k o = Some v.
Proof.
  induction o as [|[k0 v0] o IH]; intros n k v Hnd Hn.
  - destruct n; discriminate.
  - simpl. inversion Hnd as [|? ? Hnin Hnd']; subst.
    destruct n as [|n]; simpl in Hn.
    + injection Hn as -> ->. now rewrite String.eqb_refl.
    + destruct (String.eqb_spec k k0) as [->|_].
      * exfalso. apply Hnin. apply nth_error_In in Hn.
        now apply (in_map fst) in Hn.
      * eauto.
Qed.

End AssignFacts.

Section ParseDictFacts.
Import AppleXmlParser Reference.

Lemma asArray_prop l : asArray (prop l) = l.
Proof. destruct l as [|x [|y l]]; reflexivity. Qed.

Lemma markers_prop l : markers (prop l) = List.length l.
Proof. destruct l as [|x [|y l]]; reflexivity. Qed.

Lemma bucket_plain l : plain l = true -> bucket (prop l) = l.
Proof.
  destruct l as [|x [|y l]]; simpl; auto.
  unfold bucket. simpl. now intros ->.
Qed.

Lemma entries_plain a : plain a = true -> bucketEntries (entriesOf a) = entriesOf a.
Proof.
  destruct a as [|x [|y a]]; simpl; auto. now intros ->.
Qed.

(** [parseDict] on an element, with the entries of [array] named. *)
Lemma parseDict_Elem k s i d t f a dd :
  parseDict (Elem k s i d t f a dd)
  = if negb (truthyJs (prop k)) then []
    else parseDictLoop (map toStr k)
           (bucket (prop s)) (bucket (prop i)) (bucket (prop d))
           (List.length t) (List.length f)
           (bucketEntries (entriesOf a)) start [].
Proof.
  simpl. rewrite asArray_prop, !markers_prop.
  destruct (truthyJs (prop k)); simpl; auto.
  do 2 f_equal. unfold entriesOf. apply map_ext. intros x.
  destruct x as [txt|? ? ? ? ? ? ? dd']; simpl; auto.
  now rewrite asArray_prop.
Qed.

(** [parseDict] in the shape of the source: the guard on [dictData] and
    [dictData.key], the six buckets read from the properties of the node,
    and the loop. *)
Lemma parseDict_source_form (dictData : xml) :
  parseDict dictData
  = if negb (truthyXml dictData) || negb (truthyJs (x_key dictData)) then []
    else parseDictLoop (map toStr (asArray (x_key dictData)))
           (bucket (x_string dictData)) (bucket (x_integer dictData))
           (bucket (x_date dictData))
           (markers (x_true dictData)) (markers (x_false dictData))
           (bucketEntries (entriesOf (asArray (x_array dictData)))) start [].
Proof.
  destruct dictData as [txt|k s i d t f a dd].
  - simpl. now rewrite orb_true_r.
  - rewrite parseDict_Elem. simpl.
    now rewrite !asArray_prop, !markers_prop.
Qed.

(** The value stored for an array entry, with [parsePlaylistItems] as in
    the source. *)
Lemma arrayValue_source_form (key : string) (arrayData : xml) :
  In (arrayData,
      if truthyJs (x_dict arrayData)
      then Some (map parseDict (asArray (x_dict arrayData))) else None)
     (entriesOf [arrayData]) /\
  arrayValue key
    (arrayData,
     if truthyJs (x_dict arrayData)
     then Some (map parseDict (asArray (x_dict arrayData))) else None)
  = if String.eqb key "Playlist Items" && truthyJs (x_dict arrayData)
    then VItems (parsePlaylistItems arrayData)
    else ofXml arrayData.
Proof.
  split; [now left|]. unfold arrayValue, parsePlaylistItems.
  destruct (truthyJs (x_dict arrayData)), (String.eqb key "Playlist Items");
    reflexivity.
Qed.

Lemma obj_get_absent {V : Type} k (o : JsObject V) :
  ~ In k (obj_keys o) -> obj_get k o = None.
Proof.
  induction o as [|[k0 v0] o IH]; simpl; auto. intros Hnin.
  destruct (String.eqb_spec k k0) as [->|_]; [tauto|]. apply IH. tauto.
Qed.

Lemma firstn_In_nth {A : Type} (l : list A) : forall n x,
  In x (firstn n l) -> exists j, j < n /\ nth_error l j = Some x.
Proof.
  induction l as [|y l IH]; intros n x Hin.
  - rewrite firstn_nil in Hin. destruct Hin.
  - destruct n as [|n]; [destruct Hin|]. simpl in Hin.
    destruct Hin as [->|Hin].
    + exists 0. split; [lia|reflexivity].
    + destruct (IH n x Hin) as (j & Hj & Hx). exists (S j). split; [lia|exact Hx].
Qed.

Lemma NoDup_firstn {A : Type} (l : list A) n : NoDup l -> NoDup (firstn n l).
Proof.
  revert n. induction l as [|x l IH]; intros n Hnd.
  - rewrite firstn_nil. constructor.
  - destruct n as [|n]; simpl; [constructor|].
    inversion Hnd as [|? ? Hnin Hnd']; subst. constructor; auto.
    intros Hin. apply Hnin.
    destruct (firstn_In_nth _ _ _ Hin) as (j & _ & Hj).
    eapply nth_error_In; eauto.
Qed.

Lemma truthy_plain k : truthyJs (prop k) = true -> plain k = true.
Proof. destruct k as [|x [|y k]]; simpl; auto. Qed.

(** Under distinct key names, none of them [__proto__], and buckets none
    of which is a single empty element, the record holds the pairs of
    [pairUp]. *)
Lemma parseDict_pairing (k s i d t f a dd : list xml) :
  plain k = true ->
  plain s = true -> plain i = true -> plain d = true -> plain a = true ->
  NoDup (map toStr k) ->
  ~ In proto_name (map toStr k) ->
  parseDict (Elem k s i d t f a dd)
  = pairUp s i d (List.length t) (List.length f) (entriesOf a) (map toStr k) 0.
Proof.
  intros Hk Hs Hi Hd Ha Hnd Hp. rewrite parseDict_Elem.
  destruct k as [|x k']; [reflexivity|].
  assert (Ht : truthyJs (prop (x :: k')) = true)
    by (destruct k'; simpl in *; auto).
  rewrite Ht. simpl negb. cbv iota.
  rewrite !bucket_plain, entries_plain by assumption.
  change start
    with (cursorsAt s i d (List.length t) (List.length f) (entriesOf a) 0).
  rewrite parseDictLoop_pairUp.
  rewrite assign_distinct; auto.
  - simpl app. rewrite pairUp_keys. now apply NoDup_firstn.
  - rewrite pairUp_keys. intros Hin. apply Hp.
    destruct (firstn_In_nth _ _ _ Hin) as (j & _ & Hj).
    eapply nth_error_In; eauto.
Qed.

(** What the record holds then: the names of the first keys, as many as
    there are values; at the m-th key the m-th offered value; nothing at
    a later key. *)
Lemma parseDict_entries (k s i d t f a dd : list xml) :
  let keys := map toStr k in
  let record := parseDict (Elem k s i d t f a dd) in
  let values := offered s i d (List.length t) (List.length f) (entriesOf a) in
  let n := available s i d (List.length t) (List.length f) (entriesOf a) in
  plain k = true ->
  plain s = true -> plain i = true -> plain d = true -> plain a = true ->
  NoDup keys ->
  ~ In proto_name keys ->
  obj_keys record = firstn n keys /\
  (forall m key,
     nth_error keys m = Some key -> m < n ->
     exists v, nth_error (values key) m = Some v /\
               obj_get key record = Some v) /\
  (forall m key,
     nth_error keys m = Some key -> n <= m -> obj_get key record = None).
Proof.
  intros keys record values n Hk Hs Hi Hd Ha Hnd Hp.
  pose proof (parseDict_pairing k s i d t f a dd Hk Hs Hi Hd Ha Hnd Hp) as Hrec.
  fold record keys in Hrec.
  assert (Hkeys : obj_keys record = firstn n keys).
  { rewrite Hrec, pairUp_keys. now rewrite Nat.sub_0_r. }
  split; [exact Hkeys|]. split.
  - intros m key Hm Hlt.
    destruct (pairUp_nth s i d (List.length t) (List.length f) (entriesOf a)
                keys 0 m key Hm Hlt) as (v & Hv & Hnth).
    simpl in Hv. exists v. split; auto.
    apply (obj_get_nth record m).
    + rewrite Hkeys. now apply NoDup_firstn.
    + now rewrite Hrec.
  - intros m key Hm Hle. apply obj_get_absent. rewrite Hkeys. intros Hin.
    destruct (firstn_In_nth _ _ _ Hin) as (j & Hj & Hx).
    assert (Hlen : j < List.length keys) by (apply nth_error_Some; congruence).
    pose proof (proj1 (NoDup_nth_error keys) Hnd j m Hlen) as Heq.
    rewrite Hx, Hm in Heq. specialize (Heq eq_refl). lia.
Qed.

End ParseDictFacts.

(** ** The precedence of the dict decoder *)

Section DictDecoder.
Import AppleXmlParser Reference.

Lemma insertIndex_In z k l x :
  In x (insertIndex z k l) -> x = (z, k) \/ In x l.
Proof.
  induction l as [|[z' k'] l IH]; simpl.
  - intros [H|[]]; auto.
  - destruct (z <? z')%Z; simpl; intros [H|H]; auto.
    destruct (IH H); auto.
Qed.

Lemma insertIndex_perm z k l : Permutation (insertIndex z k l) ((z, k) :: l).
Proof.
  induction l as [|[z' k'] l IH]; simpl; auto.
  destruct (z <? z')%Z; auto.
  rewrite IH. apply perm_swap.
Qed.

Lemma insertIndex_sorted z k l :
  StronglySorted ascending l -> StronglySorted ascending (insertIndex z k l).
Proof.
  induction l as [|[z' k'] l IH]; simpl; intros Hs.
  - repeat constructor.
  - inversion Hs as [|? ? Hs' Hall]; subst.
    destruct (Z.ltb_spec z z') as [Hlt|Hge].
    + constructor; auto. constructor; [unfold ascending; simpl; lia|].
      eapply Forall_impl; [|exact Hall].
      intros [z1 k1]. unfold ascending. simpl. lia.
    + constructor; auto. apply Forall_forall. intros x Hx.
      destruct (insertIndex_In _ _ _ _ Hx) as [->|Hin].
      * unfold ascending. simpl. lia.
      * now apply (proj1 (Forall_forall _ _) Hall).
Qed.

Lemma sortedIndices_sorted names : StronglySorted ascending (sortedIndices names).
Proof.
  induction names as [|k names IH]; simpl; [constructor|].
  destruct (asIndex k); auto using insertIndex_sorted.
Qed.

Lemma sortedIndices_values names :
  Forall (fun zk => asIndex (snd zk) = Some (fst zk)) (sortedIndices names).
Proof.
  induction names as [|k names IH]; simpl; [constructor|].
  destruct (asIndex k) as [z|] eqn:E; auto.
  apply Forall_forall. intros x Hx.
  destruct (insertIndex_In _ _ _ _ Hx) as [->|Hin]; auto.
  now apply (proj1 (Forall_forall _ _) IH).
Qed.

Lemma sortedIndices_perm names :
  Permutation (map snd (sortedIndices names)) (filter isIndex names).
Proof.
  induction names as [|k names IH]; simpl; auto.
  unfold isIndex at 1. destruct (asIndex k) as [z|]; auto.
  rewrite insertIndex_perm. simpl. now constructor.
Qed.

Lemma filter_parts_perm {A : Type} (f : A -> bool) (l : list A) :
  Permutation (filter f l ++ filter (fun x => negb (f x)) l) l.
Proof.
  induction l as [|x l IH]; simpl; auto.
  destruct (f x); simpl.
  - now constructor.
  - rewrite <- Permutation_middle. now constructor.
Qed.

(** The enumeration lists every name once. *)
Lemma enumerate_perm names : Permutation (enumerate names) names.
Proof.
  unfold enumerate. rewrite sortedIndices_perm. apply filter_parts_perm.
Qed.

(** Names none of which is an array index are enumerated in creation
    order. *)
Lemma enumerate_plain names :
  (forall k, In k names -> isIndex k = false) -> enumerate names = names.
Proof.
  intros H.
  assert (Hnone : sortedIndices names = []).
  { induction names as [|k names IH]; simpl; auto.
    pose proof (H k (or_introl eq_refl)) as Hk. unfold isIndex in Hk.
    destruct (asIndex k); [discriminate|].
    apply IH. intros k' Hin. apply H. now right. }
  unfold enumerate. rewrite Hnone. simpl.
  induction names as [|k names IH]; simpl; auto.
  rewrite (H k (or_introl eq_refl)). simpl. f_equal.
  - apply IH.
    + intros k' Hin. apply H. now right.
    + simpl in Hnone. pose proof (H k (or_introl eq_refl)) as Hk.
      unfold isIndex in Hk. destruct (asIndex k); [discriminate|exact Hnone].
Qed.

(** C2, as stated, fails on a node that declares a key twice: it offers
    as many values as it declares keys, the record holds one entry, and
    the value drawn for the first key is not the one the record holds at
    that key. *)
Lemma parseDict_repeated_key_counterexample :
  available [Text "x"; Text "y"] [] [] 0 0 (entriesOf []) = 2 /\
  List.length (map toStr [Text "A"; Text "A"]) = 2 /\
  nth_error (offered [Text "x"; Text "y"] [] [] 0 0 (entriesOf []) "A") 0
    = Some (VStr "x") /\
  parseDict Samples.repeatedKey = [("A", VStr "y")] /\
  obj_get "A" (parseDict Samples.repeatedKey) <> Some (VStr "x") /\
  List.length (parseDict Samples.repeatedKey) <> 2.
Proof. repeat split; vm_compute; discriminate. Qed.

(** C2 (amended): for a dict node that declares keys with pairwise
    distinct names, none of them [__proto__], and in which neither the
    key list nor a value bucket is a single empty element, the decoder
    walks the keys in order and gives the m-th key the m-th value of the
    sequence strings, integers, dates, true markers, false markers,
    arrays, each draw moving the cursors from their positions after m
    draws to their positions after m + 1; a key reached after the values
    are exhausted has no entry,
    and no other name has one; the record has as many entries as there
    are keys with a value.  The record enumerates the keys that are
    array indices first, by ascending value, then the other keys in
    declared order: in declared key order when no key is an array
    index.  When the node offers exactly as many values as it declares
    keys, the record has one entry per key. *)
Theorem parseDict_precedence (k s i d t f a dd : list xml) :
  let keys := map toStr k in
  let record := parseDict (Elem k s i d t f a dd) in
  let values := offered s i d (List.length t) (List.length f) (entriesOf a) in
  let n := available s i d (List.length t) (List.length f) (entriesOf a) in
  let cursorsAfter :=
    cursorsAt s i d (List.length t) (List.length f) (entriesOf a) in
  plain k = true ->
  plain s = true -> plain i = true -> plain d = true -> plain a = true ->
  NoDup keys ->
  ~ In proto_name keys ->
  (cursorsAfter 0 = start /\
   forall m key,
     draw key s i d (List.length t) (List.length f) (entriesOf a) (cursorsAfter m)
     = (nth_error (values key) m, cursorsAfter (S m))) /\
  (forall m key,
     nth_error keys m = Some key -> m < n ->
     exists v, nth_error (values key) m = Some v /\
               obj_get key record = Some v) /\
  (forall m key,
     nth_error keys m = Some key -> n <= m -> obj_get key record = None) /\
  (forall key, ~ In key keys -> obj_get key record = None) /\
  List.length record = Nat.min n (List.length keys) /\
  Permutation (ownKeys record) (firstn n keys) /\
  (exists indices,
     ownKeys record
     = map snd indices ++ filter (fun key => negb (isIndex key)) (firstn n keys) /\
     Permutation (map snd indices) (filter isIndex (firstn n keys)) /\
     Forall (fun zk => asIndex (snd zk) = Some (fst zk)) indices /\
     StronglySorted ascending indices) /\
  ((forall key, In key keys -> isIndex key = false) ->
   ownKeys record = firstn n keys) /\
  (n = List.length keys ->
   List.length record = List.length keys /\
   Permutation (ownKeys record) keys /\
   ((forall key, In key keys -> isIndex key = false) -> ownKeys record = keys)).
Proof.
  intros keys record values n cursorsAfter Hk Hs Hi Hd Ha Hnd Hp.
  split; [split; [reflexivity|intros m key; apply draw_at]|].
  destruct (parseDict_entries k s i d t f a dd Hk Hs Hi Hd Ha Hnd Hp)
    as (Hkeys & Hget & Hnone).
  fold keys record n in Hkeys. fold keys record values n in Hget.
  fold keys record n in Hnone.
  assert (Hsub : forall key, In key (firstn n keys) -> In key keys).
  { intros key Hin. destruct (firstn_In_nth _ _ _ Hin) as (j & _ & Hj).
    eapply nth_error_In; eauto. }
  assert (Hlen : List.length record = Nat.min n (List.length keys)).
  { rewrite <- (length_map fst record). fold (obj_keys record).
    rewrite Hkeys. apply length_firstn. }
  assert (Hperm : Permutation (ownKeys record) (firstn n keys)).
  { unfold ownKeys. rewrite Hkeys. apply enumerate_perm. }
  assert (Hplain : (forall key, In key keys -> isIndex key = false) ->
                   ownKeys record = firstn n keys).
  { intros H. unfold ownKeys. rewrite Hkeys. apply enumerate_plain. auto. }
  split; [exact Hget|]. split; [exact Hnone|]. split.
  { intros key Hnin. apply obj_get_absent. rewrite Hkeys. auto. }
  split; [exact Hlen|]. split; [exact Hperm|]. split.
  { exists (sortedIndices (firstn n keys)). unfold ownKeys. rewrite Hkeys.
    split; [reflexivity|]. split; [apply sortedIndices_perm|].
    split; [apply sortedIndices_values|apply sortedIndices_sorted]. }
  split; [exact Hplain|].
  intros Hn. rewrite Hn, firstn_all in Hperm, Hplain.
  rewrite Hn, Nat.min_id in Hlen. auto.
Qed.

Lemma parseDict_precedence_witness :
  (exists v,
     nth_error (offered [Text "Let It Be"; Text "The Beatles"] [Text "243000"] []
                        1 0 (entriesOf []) "Total Time") 2 = Some v /\
     obj_get "Total Time"
             (parseDict (Samples.trackDict "Let It Be" "The Beatles" "243000"))
     = Some v) /\
  ownKeys (parseDict (Samples.trackDict "Let It Be" "The Beatles" "243000"))
  = ["Name"; "Artist"; "Total Time"; "Loved"].
Proof.
  destruct (parseDict_precedence
              [Text "Name"; Text "Artist"; Text "Total Time"; Text "Loved"]
              [Text "Let It Be"; Text "The Beatles"] [Text "243000"] []
              [Text ""] [] [] [])
    as (_ & Hget & _ & _ & _ & _ & _ & Hplain & _); try reflexivity.
  - repeat constructor; simpl; intuition discriminate.
  - simpl. intuition discriminate.
  - split.
    + apply (Hget 2 "Total Time"); [reflexivity|unfold available; simpl; lia].
    + apply Hplain. simpl. intuition (subst; reflexivity).
Defined.

(** Keys that are array indices come first in the enumeration: for the
    keys [b], [10], [2], [a] the record lists [2], [10], [b], [a], and
    reading a key gives the value drawn for it all the same. *)
Example indexed_keys_enumeration :
  obj_keys (parseDict Samples.indexedKeys) = ["b"; "10"; "2"; "a"] /\
  ownKeys (parseDict Samples.indexedKeys) = ["2"; "10"; "b"; "a"] /\
  obj_get "10" (parseDict Samples.indexedKeys) = Some (VStr "x") /\
  enumerate ["0"; "01"; "1"; "4294967295"; "4294967294"]
  = ["0"; "1"; "4294967294"; "01"; "4294967295"].
Proof. repeat split. Qed.

End DictDecoder.

(** ** The tracks of a parsed library *)

Section LibraryLemmas.
Import AppleXmlParser Reference.

Lemma subseq_filter {A : Type} (f : A -> bool) (l : list A) :
  subseq (filter f l) l.
Proof.
  induction l as [|x l IH]; simpl.
  - constructor.
  - destruct (f x); now constructor.
Qed.

(** The source tracks of the canonical list are the valid tracks, in
    order. *)
Lemma canonicalize_sources ts :
  map originalTrack (canonicalize ts) = filter valid ts.
Proof.
  unfold canonicalize. induction ts as [|t ts IH]; [reflexivity|].
  cbn [map filter]. unfold valid at 1.
  destruct (truthy (name (toCanonical t)) && truthy (artist (toCanonical t)));
    cbn [map]; rewrite IH; reflexivity.
Qed.

(** [collectTracks] keeps the retained entries, in order, and stamps
    them. *)
Lemma collectTracks_in_order entries :
  collectTracks entries = map stamped (filter retained entries).
Proof.
  induction entries as [|[trackId trackData] entries IH]; simpl; auto.
  unfold retained at 1. simpl.
  destruct (truthyOpt (obj_get "Name" (parseDict trackData))
            && (truthyOpt (obj_get "Artist" (parseDict trackData))
                || truthyOpt (obj_get "Album Artist" (parseDict trackData))));
    simpl; now rewrite IH.
Qed.

(** The tracks of a parsed library are the retained entries of its Tracks
    dict, in document order, when the document declares one. *)
Lemma parseFile_tracks plist p :
  parseFile plist newParser = Return p ->
  tracks p = [] \/ tracks p = map stamped (filter retained (tracksEntries plist)).
Proof.
  unfold parseFile.
  destruct (negb (truthyJs plist) || negb (truthyJs (field x_dict plist)));
    [discriminate|].
  intros [= <-].
  assert (Hpl : forall q, tracks (extractPlaylists (field x_dict plist) q) = tracks q).
  { intros q. unfold extractPlaylists.
    destruct (negb (declaresKey "Playlists" (field x_dict plist))); auto.
    destruct (negb _ || negb _); auto. }
  rewrite Hpl. unfold extractTracks.
  destruct (negb (declaresKey "Tracks" (field x_dict plist))); [now left|].
  destruct (negb _ || negb _ || negb _); [now left|].
  right. simpl. apply collectTracks_in_order.
Qed.

End LibraryLemmas.

(** ** Entity unescaping *)

Section UnescapeFacts.
Import AppleXmlParser Reference.

Lemma offered_string s i d t f a key m raw :
  nth_error s m = Some (Text raw) ->
  nth_error (offered s i d t f a key) m = Some (VStr (unescape raw)).
Proof.
  intros H. unfold offered.
  rewrite nth_error_app1
    by (rewrite length_map; apply nth_error_Some; congruence).
  now rewrite nth_error_map, H.
Qed.

Lemma cleanString_orElse (u : string) :
  cleanString (orElse (Some (VStr u)) (VStr "")) = VStr (unescape u).
Proof. destruct u; reflexivity. Qed.

(** C10, as stated, fails on its example: the five replacements are
    chained, so one unescape of [&#38;quot;] already yields the double
    quote, not [&quot;]. *)
Lemma unescape_once_counterexample :
  unescape "&#38;quot;" = String dquote EmptyString /\
  unescape "&#38;quot;" <> "&quot;".
Proof. split; [reflexivity|]. vm_compute. discriminate. Qed.

(** C10 (amended): a name, artist or album taken from the string bucket
    is unescaped when the dict is decoded and again when the canonical
    track is built, so the canonical field is the doubly unescaped text;
    the unescape is not idempotent: one unescape of [&#38;#38;] yields
    [&#38;] and the canonical field holds the doubly unescaped [&]. *)
Theorem cleanString_applied_twice :
  (forall (k s i d t f a dd : list xml) (m : nat) (key raw : string) (id : value),
     let track := obj_set "Track ID" id (parseDict (Elem k s i d t f a dd)) in
     truthyJs (prop k) = true ->
     plain s = true -> plain i = true -> plain d = true -> plain a = true ->
     NoDup (map toStr k) ->
     ~ In proto_name (map toStr k) ->
     nth_error (map toStr k) m = Some key ->
     nth_error s m = Some (Text raw) ->
     key <> "Track ID" ->
     obj_get key track = Some (VStr (unescape raw)) /\
     (key = "Name" -> name (toCanonical track) = VStr (unescape (unescape raw))) /\
     (key = "Album" -> album (toCanonical track) = VStr (unescape (unescape raw))) /\
     (key = "Artist" -> truthyStr (unescape raw) = true ->
      artist (toCanonical track) = VStr (unescape (unescape raw)))) /\
  unescape "&#38;#38;" = "&#38;" /\
  unescape (unescape "&#38;#38;") = "&" /\
  (exists str, unescape (unescape str) <> unescape str).
Proof.
  split; [|split; [reflexivity|split; [reflexivity|]]].
  - intros k s i d t f a dd m key raw id track Hk Hs Hi Hd Ha Hnd Hp Hm Hraw Hkey.
    destruct (parseDict_entries k s i d t f a dd (truthy_plain k Hk)
                Hs Hi Hd Ha Hnd Hp) as (_ & Hget & _).
    assert (Hlt : m < available s i d (List.length t) (List.length f) (entriesOf a)).
    { unfold available.
      assert (m < List.length s) by (apply nth_error_Some; congruence). lia. }
    destruct (Hget m key Hm Hlt) as (v & Hv & Hrec).
    rewrite (offered_string _ _ _ _ _ _ _ _ _ Hraw) in Hv. injection Hv as <-.
    assert (Htrack : obj_get key track = Some (VStr (unescape raw))).
    { unfold track. rewrite obj_set_other by congruence. exact Hrec. }
    split; [exact Htrack|]. unfold toCanonical. simpl. repeat split.
    + intros ->. rewrite Htrack. apply cleanString_orElse.
    + intros ->. rewrite Htrack. apply cleanString_orElse.
    + intros -> Ht. rewrite Htrack. simpl. rewrite Ht. reflexivity.
  - exists "&#38;#38;". vm_compute. discriminate.
Qed.

Lemma cleanString_applied_twice_witness :
  let track :=
    obj_set "Track ID" (VNum (Fin 2))
      (parseDict (Samples.trackDict "&#38;#38;" "Ampersand" "1000")) in
  obj_get "Name" track = Some (VStr "&#38;") /\
  name (toCanonical track) = VStr "&".
Proof.
  destruct (proj1 cleanString_applied_twice
              [Text "Name"; Text "Artist"; Text "Total Time"; Text "Loved"]
              [Text "&#38;#38;"; Text "Ampersand"] [Text "1000"] []
              [Text ""] [] [] [] 0 "Name" "&#38;#38;" (VNum (Fin 2)))
    as (Hget & Hname & _); try reflexivity.
  - repeat constructor; simpl; intuition discriminate.
  - simpl. intuition discriminate.
  - discriminate.
  - split; [exact Hget|exact (Hname eq_refl)].
Defined.

End UnescapeFacts.

(* ================================================================== *)
(** * Further properties                                               *)
(* ================================================================== *)

(** ** Normalisation is idempotent *)

Section NormalizeIdempotent.
Import SpotifyClient Auxiliary.

Lemma lowerChar_idem c : lowerChar (lowerChar c) = lowerChar c.
Proof. destruct c as [[] [] [] [] [] [] [] []]; reflexivity. Qed.

Lemma toLowerCase_lowered s : allChars lowered (toLowerCase s) = true.
Proof.
  induction s as [|c s IH]; simpl; auto.
  rewrite IH, andb_true_r. unfold lowered.
  rewrite lowerChar_idem. apply Ascii.eqb_refl.
Qed.

Lemma keepChars_allChars (P f : ascii -> bool) s :
  allChars P s = true -> allChars P (keepChars f s) = true.
Proof.
  induction s as [|c s IH]; simpl; auto.
  rewrite andb_true_iff. intros [Hc Hs].
  destruct (f c); simpl; auto. now rewrite Hc, IH.
Qed.

Lemma keepChars_kept f s : allChars f (keepChars f s) = true.
Proof.
  induction s as [|c s IH]; simpl; auto.
  destruct (f c) eqn:E; simpl; auto. now rewrite E.
Qed.

Lemma trimStart_allChars P s :
  allChars P s = true -> allChars P (trimStart s) = true.
Proof.
  induction s as [|c s IH]; simpl; auto.
  rewrite andb_true_iff. intros [Hc Hs].
  destruct (isWhiteSpace c); auto. simpl. now rewrite Hc, Hs.
Qed.

Lemma trimEnd_allChars P s :
  allChars P s = true -> allChars P (trimEnd s) = true.
Proof.
  induction s as [|c s IH]; simpl; auto.
  rewrite andb_true_iff. intros [Hc Hs]. specialize (IH Hs).
  destruct (trimEnd s) as [|c' t].
  - destruct (isWhiteSpace c); simpl; auto. now rewrite Hc.
  - change (allChars P (String c (String c' t)))
      with (P c && allChars P (String c' t)).
    now rewrite Hc, IH.
Qed.

Lemma toLowerCase_fixed s : allChars lowered s = true -> toLowerCase s = s.
Proof.
  induction s as [|c s IH]; simpl; auto.
  rewrite andb_true_iff. intros [Hc Hs].
  apply Ascii.eqb_eq in Hc. now rewrite Hc, IH.
Qed.

Lemma keepChars_fixed f s : allChars f s = true -> keepChars f s = s.
Proof.
  induction s as [|c s IH]; simpl; auto.
  rewrite andb_true_iff. intros [Hc Hs]. now rewrite Hc, IH.
Qed.

Lemma trimEnd_idem s : trimEnd (trimEnd s) = trimEnd s.
Proof.
  induction s as [|c s IH]; simpl; auto.
  destruct (trimEnd s) as [|c' t] eqn:E.
  - destruct (isWhiteSpace c) eqn:Ec; simpl; auto. now rewrite Ec.
  - change (trimEnd (String c (String c' t)))
      with (match trimEnd (String c' t) with
            | EmptyString =>
                if isWhiteSpace c then EmptyString else String c EmptyString
            | String a b => String c (String a b)
            end).
    now rewrite IH.
Qed.

(** A trimmed end does not bring white space to the front. *)
Lemma trimStart_trimEnd s :
  trimStart (trimEnd (trimStart s)) = trimEnd (trimStart s).
Proof.
  induction s as [|c s IH]; simpl; auto.
  destruct (isWhiteSpace c) eqn:Ec; auto.
  simpl. destruct (trimEnd s) as [|c' t]; rewrite ?Ec; simpl; now rewrite Ec.
Qed.

Lemma trim_idem s : trim (trim s) = trim s.
Proof. unfold trim. now rewrite trimStart_trimEnd, trimEnd_idem. Qed.

(** X1: normalising a normalised string changes nothing. *)
Theorem normalizeString_idempotent (str : string) :
  normalizeString (normalizeString str) = normalizeString str.
Proof.
  unfold normalizeString. fold kept.
  set (t := keepChars kept (toLowerCase str)).
  assert (Hl : allChars lowered (trim t) = true).
  { unfold trim. apply trimEnd_allChars, trimStart_allChars.
    apply keepChars_allChars, toLowerCase_lowered. }
  assert (Hk : allChars kept (trim t) = true).
  { unfold trim. apply trimEnd_allChars, trimStart_allChars, keepChars_kept. }
  now rewrite (toLowerCase_fixed _ Hl), (keepChars_fixed _ _ Hk), trim_idem.
Qed.

End NormalizeIdempotent.

(** ** Normalisation and its reference definition *)

Section NormalizeFacts.
Import SpotifyClient Auxiliary.

Lemma keepChars_agree (P f g : ascii -> bool) s :
  (forall c, P c = true -> f c = g c) ->
  allChars P s = true -> keepChars f s = keepChars g s.
Proof.
  intros H. induction s as [|c s IH]; simpl; auto.
  rewrite andb_true_iff. intros [Hc Hs]. now rewrite (H c Hc), IH.
Qed.

Lemma allChars_both (P Q R : ascii -> bool) s :
  (forall c, P c = true -> Q c = true -> R c = true) ->
  allChars P s = true -> allChars Q s = true -> allChars R s = true.
Proof.
  intros H. induction s as [|c s IH]; simpl; auto.
  rewrite !andb_true_iff. intros [Pc Ps] [Qc Qs]. auto.
Qed.

(** The class [[\w\s]] of the regular expression, character by
    character. *)
Lemma kept_stays c : kept c = Reference.stays c.
Proof. destruct c as [[] [] [] [] [] [] [] []]; reflexivity. Qed.

Lemma kept_lowered_leftover c :
  kept c = true -> lowered c = true -> Reference.leftover c = true.
Proof. destruct c as [[] [] [] [] [] [] [] []]; simpl; auto. Qed.

Lemma basic_lowerChar c :
  basic c = true -> basic (lowerChar c) = true.
Proof. destruct c as [[] [] [] [] [] [] [] []]; simpl; auto. Qed.

Lemma basic_kept c :
  basic c = true ->
  kept c = (Reference.isAlphanumeric c || isWhiteSpace c).
Proof. destruct c as [[] [] [] [] [] [] [] []]; simpl; auto; discriminate. Qed.

Lemma basicNoUnderscore_allChars s :
  Reference.basicNoUnderscore s = allChars basic s.
Proof. induction s as [|c s IH]; simpl; auto. now rewrite IH. Qed.

Lemma toLowerCase_basic s :
  allChars basic s = true -> allChars basic (toLowerCase s) = true.
Proof.
  induction s as [|c s IH]; simpl; auto.
  rewrite !andb_true_iff. intros [Hc Hs]. auto using basic_lowerChar.
Qed.

(** C5, as stated, fails on the underscore: it is neither alphanumeric nor
    white space, and [\w] keeps it. *)
Lemma normalize_underscore_counterexample :
  normalizeString "a_b" = "a_b" /\
  Reference.normalize "a_b" = "ab" /\
  normalizeString "a_b" <> Reference.normalize "a_b".
Proof. repeat split. vm_compute. discriminate. Qed.

(** C5 (amended): the normalisation lowercases the string, removes every
    character other than a Basic Latin letter, a digit, the underscore
    or white space, and trims; what is left holds only small Basic Latin
    letters, digits, underscores and white space, so letters outside the
    Basic Latin alphabet are removed as well: the name that starts with
    U+00C9 (E with acute) and goes on with [cole] is normalised to
    [cole], while the reference definition of the specification keeps
    the lowercased letter; on every string of Basic Latin characters
    without underscore the normalisation equals the reference
    definition. *)
Theorem normalizeString_reference (s : string) :
  normalizeString s = Reference.normalizeWord s /\
  allChars Reference.leftover (normalizeString s) = true /\
  (Reference.basicNoUnderscore s = true ->
   normalizeString s = Reference.normalize s) /\
  normalizeString (String "201"%char "cole") = "cole" /\
  Reference.normalize (String "201"%char "cole") = String "233"%char "cole".
Proof.
  split; [|split; [|split; [|split; reflexivity]]].
  - unfold normalizeString, Reference.normalizeWord. fold kept. f_equal.
    apply (keepChars_agree (fun _ => true)).
    + intros c _. apply kept_stays.
    + clear. induction (toLowerCase s); simpl; auto.
  - unfold normalizeString. fold kept.
    apply (allChars_both kept lowered).
    + apply kept_lowered_leftover.
    + unfold trim. apply trimEnd_allChars, trimStart_allChars, keepChars_kept.
    + unfold trim. apply trimEnd_allChars, trimStart_allChars.
      apply keepChars_allChars, toLowerCase_lowered.
  - rewrite basicNoUnderscore_allChars. intros Hs.
    unfold normalizeString, Reference.normalize. fold kept. f_equal.
    apply (keepChars_agree basic).
    + apply basic_kept.
    + now apply toLowerCase_basic.
Qed.

Lemma normalizeString_reference_witness :
  normalizeString "Let It Be (Remastered)!"
  = Reference.normalize "Let It Be (Remastered)!".
Proof.
  apply (normalizeString_reference "Let It Be (Remastered)!").
  reflexivity.
Defined.

End NormalizeFacts.

(** ** Score bounds *)

Section ScoreBounds.
Import SpotifyClient.

(** X2: a score lies between 0 and 25, and between 0 and 22 when the
    track has no album; without a duration on either side it is at most
    23. *)
Theorem score_bounds (originalTrackNorm originalArtistNorm : string)
    (originalTrack : track) (t : spTrack) (s : Z) :
  score originalTrackNorm originalArtistNorm originalTrack t = Some s ->
  (0 <= s <= 25)%Z /\
  (truthyAttr (album originalTrack) = false -> (s <= 22)%Z) /\
  (truthyNum (duration originalTrack) = false \/ duration_ms t = None ->
   (s <= 23)%Z).
Proof.
  intros Hs. pose proof (score_nonneg _ _ _ _ _ Hs) as Hpos.
  unfold score in Hs.
  destruct (sp_name t) as [tn|]; [|discriminate].
  destruct (sp_artists t) as [[|a l]|]; try discriminate.
  destruct (artist_name a) as [an|]; [|discriminate].
  pose proof (tier_upper 10 5 (normalizeString tn) originalTrackNorm
                ltac:(lia)) as H1.
  pose proof (tier_upper 10 5 (normalizeString an) originalArtistNorm
                ltac:(lia)) as H2.
  set (s4 := match duration originalTrack with NaN => _ | Fin d => _ end) in Hs.
  assert (H4 : (s4 <= 2)%Z).
  { subst s4. destruct (duration originalTrack); [lia|].
    destruct (duration_ms t); [|lia].
    destruct (negb _ && negb _); [apply durationPoints_upper|lia]. }
  assert (H4' : truthyNum (duration originalTrack) = false \/ duration_ms t = None ->
                (s4 <= 0)%Z).
  { subst s4. intros [Hd|Hd].
    - destruct (duration originalTrack) as [|d]; [lia|]. simpl in Hd.
      destruct (duration_ms t); [|lia]. rewrite Hd. simpl. lia.
    - rewrite Hd. destruct (duration originalTrack); lia. }
  destruct (truthyAttr (album originalTrack)) eqn:Ea.
  - destruct (normalized (album originalTrack)) as [aln0|]; [|discriminate].
    destruct (sp_album t) as [al|]; [|discriminate].
    destruct (album_name al) as [aln|]; [|discriminate].
    pose proof (tier_upper 3 1 (normalizeString aln) aln0 ltac:(lia)) as H3.
    injection Hs as <-. repeat split; try lia.
    intros Hd. specialize (H4' Hd). lia.
  - injection Hs as <-. repeat split; lia.
Qed.

Lemma score_bounds_witness :
  (0 <= 17 <= 25)%Z /\
  (truthyAttr (album Samples.letItBe) = false -> (17 <= 22)%Z) /\
  (truthyNum (duration Samples.letItBe) = false
   \/ duration_ms Samples.remastered = None -> (17 <= 23)%Z).
Proof.
  apply (score_bounds (normalizeString "Let It Be") (normalizeString "The Beatles")
           Samples.letItBe Samples.remastered 17).
  reflexivity.
Defined.

End ScoreBounds.

(** ** The requests of a search *)

Section SearchRequests.
Import SpotifyClient Auxiliary Reference.

Context {S : Type} (w : world S).

(** X3: whatever the collaborators do, [searchTrack] makes at most two
    search requests, each for tracks with a limit of 5, and none when the
    access token cannot be obtained; its result is either empty or the
    items of the last answer. *)
Theorem searchTrack_requests (s0 : S) (trackName artistName albumName : attr) :
  let r := run w (searchTrack trackName artistName albumName) s0 in
  List.length (logOf r) <= 2 /\
  Forall (fun ex : exchange => type_ (fst ex) = "track" /\ limit (fst ex) = 5%Z)
         (logOf r) /\
  (fst (auth w GetValidAccessToken s0) = false ->
   logOf r = [] /\ resultOf r = []) /\
  (resultOf r = [] \/
   exists pre q, logOf r = pre ++ [(q, Items (resultOf r))]).
Proof.
  unfold searchTrack, logOf, resultOf. simpl.
  destruct (auth w GetValidAccessToken s0) as [[|] s1]; simpl;
    [|repeat split; auto].
  destruct (auth w GetAuthHeaders s1) as [[|] s2]; simpl;
    [|repeat split; auto; discriminate].
  destruct (search w _ s2) as [[[|t tracks]|] s3]; simpl.
  - destruct (auth w GetAuthHeaders s3) as [[|] s4]; simpl.
    + destruct (search w _ s4) as [[items|] s5]; simpl.
      * repeat split; auto; try discriminate.
        right. eexists [_], _. reflexivity.
      * repeat split; auto; discriminate.
    + repeat split; auto; discriminate.
  - repeat split; auto; try discriminate.
    right. exists [], (searchRequest (primaryQuery trackName artistName albumName)).
    reflexivity.
  - repeat split; auto; discriminate.
Qed.

End SearchRequests.

Lemma searchTrack_requests_witness :
  Auxiliary.logOf
    (SpotifyClient.run MoreSamples.noToken
       (SpotifyClient.searchTrack (SpotifyClient.Str "Let It Be")
          (SpotifyClient.Str "The Beatles") (SpotifyClient.Str "")) 0) = [] /\
  Auxiliary.resultOf
    (SpotifyClient.run MoreSamples.noToken
       (SpotifyClient.searchTrack (SpotifyClient.Str "Let It Be")
          (SpotifyClient.Str "The Beatles") (SpotifyClient.Str "")) 0) = [].
Proof.
  apply (searchTrack_requests MoreSamples.noToken 0 (SpotifyClient.Str "Let It Be")
           (SpotifyClient.Str "The Beatles") (SpotifyClient.Str "")).
  reflexivity.
Defined.

(** ** Searching and matching a batch *)

Section BatchFacts.
Import SpotifyClient Auxiliary Reference.

Context {S : Type} (w : world S).

(** What the batch loop needs of [searchTrack]. *)
Lemma searchTrack_answer (s0 : S) (trackName artistName albumName : attr) :
  let r := run w (searchTrack trackName artistName albumName) s0 in
  List.length (logOf r) <= 2 /\
  (resultOf r = [] \/ exists q s, fst (search w q s) = Items (resultOf r)).
Proof.
  unfold searchTrack, logOf, resultOf. simpl.
  destruct (auth w GetValidAccessToken s0) as [[|] s1]; simpl; auto.
  destruct (auth w GetAuthHeaders s1) as [[|] s2]; simpl; auto.
  destruct (search w _ s2) as [[[|t tracks]|] s3] eqn:E1; simpl; auto.
  - destruct (auth w GetAuthHeaders s3) as [[|] s4]; simpl; auto.
    destruct (search w _ s4) as [[items|] s5] eqn:E2; simpl; auto.
    split; auto. right. eexists _, s4. now rewrite E2.
  - split; auto. right. eexists _, s2. now rewrite E1.
Qed.

Lemma run_bind {A B : Type} (p : prog A) (f : A -> prog B) : forall s,
  run w (bind p f) s
  = let '(a, s1, l1) := run w p s in
    let '(b, s2, l2) := run w (f a) s1 in
    (b, s2, l1 ++ l2).
Proof.
  induction p as [a|call k IH|r k IH]; intros s; simpl.
  - destruct (run w (f a) s) as [[b s2] l2]. reflexivity.
  - destruct (auth w call s) as [ok s']. apply IH.
  - destruct (search w r s) as [resp s']. rewrite IH.
    destruct (run w (k resp) s') as [[a s1] l1].
    destruct (run w (f a) s1) as [[b s2] l2]. reflexivity.
Qed.

Lemma wellFormed_scorable t c : wellFormed c = true -> scorable t c = true.
Proof.
  unfold wellFormed, scorable.
  destruct (sp_name c); [|discriminate].
  destruct (sp_artists c) as [[|a l]|]; try discriminate.
  destruct (sp_album c) as [al|]; [|discriminate].
  destruct (artist_name a); [|discriminate].
  destruct (album_name al); [|discriminate].
  now destruct (truthyAttr (album t)).
Qed.

Lemma wellFormed_firstArtist c : wellFormed c = true -> hasFirstArtist c = true.
Proof.
  unfold wellFormed, hasFirstArtist.
  destruct (sp_name c); [|discriminate].
  destruct (sp_artists c) as [[|a l]|]; auto; discriminate.
Qed.

Lemma findBestMatch_wellFormed items t :
  textual t = true ->
  forallb wellFormed items = true ->
  (items = [] /\ findBestMatch items t = Return None) \/
  exists c, In c items /\ findBestMatch items t = Return (Some c).
Proof.
  intros Ht Hwf. destruct items as [|c0 [|c1 rest]].
  - now left.
  - right. exists c0. split; [now left|reflexivity].
  - right.
    assert (Hsc : forallb (scorable t) (c0 :: c1 :: rest) = true).
    { apply forallb_forall. intros c Hc. apply wellFormed_scorable.
      now apply (proj1 (forallb_forall _ _) Hwf). }
    destruct (findBestMatch_scans t (c0 :: c1 :: rest) ltac:(simpl; lia) Ht Hsc)
      as (n & a & ss & c & Hn & Ha & Hhd & Hss & Hfind).
    injection Hhd as <-.
    destruct (scan_returns_member _ _ _ _ _ Hss c0 0%Z (or_introl eq_refl))
      as (best & Hscan & Hin).
    exists best. split; auto. now rewrite Hfind, Hscan.
Qed.

Lemma picked_cons {A : Type} (b f : bool) (x : A) l flags :
  picked b (x :: l) (f :: flags)
  = if Bool.eqb f b then x :: picked b l flags else picked b l flags.
Proof. unfold picked. simpl. now destruct (Bool.eqb f b). Qed.

(** The loop, from any results gathered so far. *)
Lemma matchLoop_spec (tracks : list track) : forall (res : matchResults) (s : S),
  let r := run w (matchLoop tracks res) s in
  List.length (logOf r) <= 2 * List.length tracks /\
  (forall out, resultOf r = Return out ->
     total out = total res /\
     exists flags,
       List.length flags = List.length tracks /\
       map original (found out)
       = map original (found res) ++ picked true tracks flags /\
       notFound out = notFound res ++ picked false tracks flags /\
       (Forall (fun e => found_uri e = uri (spotify e)) (found res) ->
        Forall (fun e => found_uri e = uri (spotify e)) (found out))) /\
  (wellFormedWorld w -> Forall (fun t => textual t = true) tracks ->
   exists out, resultOf r = Return out).
Proof.
  induction tracks as [|t rest IH]; intros res s.
  - unfold logOf, resultOf. simpl. split; [lia|]. split; [|eauto].
    intros out [= <-]. split; auto. exists []. unfold picked. simpl.
    now rewrite !app_nil_r.
  - cbv zeta. cbn [matchLoop List.length]. rewrite run_bind.
    pose proof (searchTrack_answer s (name t) (artist t) (album t)) as Hans.
    cbv zeta in Hans.
    destruct (run w (searchTrack (name t) (artist t) (album t)) s)
      as [[items s1] l1].
    unfold logOf, resultOf in Hans. cbn [fst snd] in Hans.
    destruct Hans as [Hlen Hitems]. cbv beta.
    assert (Hret : wellFormedWorld w -> textual t = true ->
                   (items = [] /\ findBestMatch items t = Return None) \/
                   exists c, In c items /\ wellFormed c = true /\
                             findBestMatch items t = Return (Some c)).
    { intros Hw Ht. destruct Hitems as [->|(q & s' & Hq)]; [now left|].
      specialize (Hw q s' items Hq).
      destruct (findBestMatch_wellFormed items t Ht Hw) as [?|(c & Hc & E)];
        [now left|right].
      exists c. repeat split; auto.
      now apply (proj1 (forallb_forall _ _) Hw). }
    destruct (findBestMatch items t) as [[best|]|msg|] eqn:Ef.
    + destruct (hasFirstArtist best) eqn:Ha.
      * set (res' := mkResults (found res ++ [mkFound t best (uri best)])
                               (notFound res) (total res)).
        specialize (IH res' s1). cbv zeta in IH.
        destruct (run w (matchLoop rest res') s1) as [[c s2] l2].
        unfold logOf, resultOf in *. simpl in *.
        destruct IH as (IHlen & IHout & IHtot).
        split; [rewrite length_app; lia|]. split.
        -- intros out Hout.
           destruct (IHout out Hout) as (Ht & flags & Hfl & Hf & Hn & Hu).
           split; [exact Ht|]. exists (true :: flags). rewrite !picked_cons. simpl.
           split; [lia|]. split; [|split; [exact Hn|]].
           ++ rewrite Hf, map_app. simpl. now rewrite <- app_assoc.
           ++ intros Hres. apply Hu. apply Forall_app. split; auto.
        -- intros Hw Hall. inversion Hall; subst. auto.
      * unfold logOf, resultOf. simpl. split; [rewrite length_app; simpl; lia|].
        split; [discriminate|].
        intros Hw Hall. exfalso. inversion Hall as [|? ? Ht Hrest]; subst.
        destruct (Hret Hw Ht) as [[_ E]|(c & _ & Hc & E)]; [discriminate|].
        injection E as ->.
        rewrite wellFormed_firstArtist in Ha by assumption. discriminate.
    + set (res' := mkResults (found res) (notFound res ++ [t]) (total res)).
      specialize (IH res' s1). cbv zeta in IH.
      destruct (run w (matchLoop rest res') s1) as [[c s2] l2].
      unfold logOf, resultOf in *. simpl in *.
      destruct IH as (IHlen & IHout & IHtot).
      split; [rewrite length_app; lia|]. split.
      * intros out Hout.
        destruct (IHout out Hout) as (Ht & flags & Hfl & Hf & Hn & Hu).
        split; [exact Ht|]. exists (false :: flags). rewrite !picked_cons. simpl.
        split; [lia|]. split; [exact Hf|split; [|exact Hu]].
        rewrite Hn. now rewrite <- app_assoc.
      * intros Hw Hall. inversion Hall; subst. auto.
    + unfold logOf, resultOf. simpl. split; [rewrite length_app; simpl; lia|].
      split; [discriminate|].
      intros Hw Hall. exfalso. inversion Hall as [|? ? Ht Hrest]; subst.
      destruct (Hret Hw Ht) as [[_ E]|(c & _ & _ & E)]; discriminate.
    + unfold logOf, resultOf. simpl. split; [rewrite length_app; simpl; lia|].
      split; [discriminate|].
      intros Hw Hall. exfalso. inversion Hall as [|? ? Ht Hrest]; subst.
      destruct (Hret Hw Ht) as [[_ E]|(c & _ & _ & E)]; discriminate.
Qed.

(** X4: [searchAndMatchTracks] makes at most two search requests per
    track; when it returns, [total] is the number of tracks, every track
    is either matched or listed as not found, both lists keep the order
    of the input, and each match carries the uri of its result; it
    returns whenever every result the catalog answers with is
    well-formed and every track has strings as name and artist and a
    string or a falsy value as album. *)
Theorem searchAndMatchTracks_partition (appleTracks : list track) (s : S) :
  let r := run w (searchAndMatchTracks appleTracks) s in
  List.length (logOf r) <= 2 * List.length appleTracks /\
  (forall out, resultOf r = Return out ->
     total out = List.length appleTracks /\
     List.length (found out) + List.length (notFound out)
     = List.length appleTracks /\
     Forall (fun e => found_uri e = uri (spotify e)) (found out) /\
     exists flags,
       List.length flags = List.length appleTracks /\
       map original (found out) = picked true appleTracks flags /\
       notFound out = picked false appleTracks flags) /\
  (wellFormedWorld w -> Forall (fun t => textual t = true) appleTracks ->
   exists out, resultOf r = Return out).
Proof.
  unfold searchAndMatchTracks.
  pose proof (matchLoop_spec appleTracks
                (mkResults [] [] (List.length appleTracks)) s) as H.
  cbv zeta in *. destruct H as (Hlen & Hout & Htot).
  split; [exact Hlen|]. split; [|exact Htot].
  intros out Ho. destruct (Hout out Ho) as (Ht & flags & Hfl & Hf & Hn & Hu).
  simpl in *. split; [exact Ht|]. split; [|split; [now apply Hu|eauto]].
  rewrite <- (length_map original), Hf, Hn. clear - Hfl.
  revert flags Hfl. induction appleTracks as [|t rest IH]; intros [|f flags] Hfl;
    try discriminate; auto.
  rewrite !picked_cons. simpl in Hfl. injection Hfl as Hfl.
  specialize (IH flags Hfl). destruct f; simpl; lia.
Qed.

End BatchFacts.

Lemma searchAndMatchTracks_partition_witness :
  exists out,
    Auxiliary.resultOf
      (SpotifyClient.run MoreSamples.twoResults
         (SpotifyClient.searchAndMatchTracks [Samples.letItBe]) 0)
    = Return out.
Proof.
  apply (searchAndMatchTracks_partition MoreSamples.twoResults [Samples.letItBe] 0).
  - intros r s items H. simpl in H. injection H as <-. reflexivity.
  - repeat constructor.
Defined.

(** On two results, a track whose artist is not a string ends the whole
    batch with a TypeError. *)
Example searchAndMatchTracks_misread :
  Auxiliary.resultOf
    (SpotifyClient.run MoreSamples.twoResults
       (SpotifyClient.searchAndMatchTracks [Samples.misread; Samples.letItBe]) 0)
  = ThrowTypeError.
Proof. reflexivity. Qed.

(** ** Adding tracks in batches *)

Section AddTracksFacts.
Import SpotifyClient Auxiliary.

Context {S D : Type} (w : writer S D).
Variables (playlistId : string) (trackUris : list string) (batchSize : nat).
Hypothesis batch_positive : 0 < batchSize.

Local Abbreviation len := (List.length trackUris).

Lemma batch_length i :
  i < len ->
  List.length (firstn batchSize (skipn i trackUris)) = Nat.min batchSize (len - i).
Proof. intros H. now rewrite length_firstn, length_skipn. Qed.

(** The loop, from any index: it ends within [len - i] iterations; the
    batches posted are consecutive pieces of the list from [i] on. *)
Lemma addSpec_done i (results : list D) (s : S) :
  len <= i ->
  addSpec w playlistId trackUris batchSize i results
          (Some (Return results), s, []).
Proof.
  intros Hge. unfold addSpec, resultOf, logOf. simpl.
  exists (Return results), []. rewrite skipn_all2 by lia.
  split; [reflexivity|]. split; [reflexivity|]. split; [constructor|].
  split; [intros j Hj; lia|]. split; [reflexivity|]. split; [discriminate|].
  split; [discriminate|]. split; [|eauto].
  intros out E. injection E as <-. repeat split; lia.
Qed.

Lemma addSpec_failed i (results : list D) (s : S) m log rest :
  List.length log <= 1 ->
  List.concat (map post_uris log) ++ rest = skipn i trackUris ->
  Forall (fun q => post_playlist q = playlistId /\
                   0 < List.length (post_uris q) <= batchSize) log ->
  (len <= i -> log = []) ->
  ~ allResolve w ->
  addSpec w playlistId trackUris batchSize i results
          (Some (addFailure m), s, log).
Proof.
  intros Hlen Hcat Hall Hempty Hnot.
  unfold addSpec, resultOf, logOf. simpl. exists (addFailure m), rest.
  split; [reflexivity|]. split; [exact Hcat|]. split; [exact Hall|].
  split; [intros j Hj; lia|]. split; [exact Hempty|]. split; [discriminate|].
  split; [|split; [discriminate|tauto]].
  intros msg E. injection E as <-. eauto.
Qed.

(** The loop, from any index: it ends within [len - i] iterations; the
    batches posted are consecutive pieces of the list from [i] on. *)
Lemma addBatches_spec (fuel : nat) : forall (i : nat) (results : list D) (s : S),
  len - i <= fuel ->
  addSpec w playlistId trackUris batchSize i results
          (addBatches w fuel playlistId trackUris batchSize i results s).
Proof.
  induction fuel as [|fuel IH]; intros i results s Hfuel.
  - simpl. destruct (Nat.ltb_spec i len) as [Hlt|Hge]; [lia|].
    now apply addSpec_done.
  - simpl. destruct (Nat.ltb_spec i len) as [Hlt|Hge]; [|now apply addSpec_done].
    destruct (w_auth w GetAuthHeaders s) as [[u|m] s1] eqn:Ea.
    2:{ apply (addSpec_failed i results s1 m [] (skipn i trackUris));
          auto; try (simpl; lia).
        intros [Hauth _]. destruct (Hauth GetAuthHeaders s) as [s' E].
        rewrite E in Ea. discriminate. }
    set (batch := firstn batchSize (skipn i trackUris)).
    assert (Hb : List.length batch = Nat.min batchSize (len - i))
      by now apply batch_length.
    destruct (w_post w (mkPost playlistId batch) s1) as [[data|m] s2] eqn:Ep.
    2:{ apply (addSpec_failed i results s2 m [mkPost playlistId batch]
                 (skipn batchSize (skipn i trackUris))); auto.
        - simpl. rewrite app_nil_r. apply firstn_skipn.
        - constructor; auto. simpl. split; auto. lia.
        - intros Hge. lia.
        - intros [_ Hpost].
          destruct (Hpost (mkPost playlistId batch) s1) as (d & s' & E).
          rewrite E in Ep. discriminate. }
    specialize (IH (i + batchSize) (results ++ [data]) s2 ltac:(lia)).
    destruct (addBatches w fuel playlistId trackUris batchSize (i + batchSize)
                         (results ++ [data]) s2) as [[oc s3] log].
    unfold addSpec, resultOf, logOf in *. simpl in *.
    destruct IH as (c & rest & E & Hcat & Hall & Hfull & Hempty & Hty & Hmsg
                    & Hret & Htot).
    subst oc.
    exists c, rest. split; auto. split.
    { rewrite <- app_assoc, Hcat.
      transitivity (batch ++ skipn batchSize (skipn i trackUris));
        [|apply firstn_skipn].
      f_equal. rewrite skipn_skipn. f_equal. lia. }
    split.
    { constructor; auto. simpl. split; auto. lia. }
    split.
    { intros [|j] Hj.
      - change (List.length batch = batchSize). rewrite Hb.
        destruct (Nat.le_gt_cases len (i + batchSize)) as [Hle|Hgt].
        + rewrite (Hempty Hle) in Hj. simpl in Hj. lia.
        + lia.
      - apply Hfull. lia. }
    split; [lia|]. split; auto. split; auto. split; auto.
    intros out Hout. destruct (Hret out Hout) as (Hr & Hl & Hlo & Hhi).
    rewrite length_app in Hl. simpl in Hl.
    split; auto. split; [lia|].
    destruct (Nat.le_gt_cases len (i + batchSize)) as [Hle|Hgt].
    + rewrite (Hempty Hle) in *. simpl in *. lia.
    + lia.
Qed.

(** X5: with a positive batch size, [addTracksToPlaylist] ends within as
    many iterations as there are uris; the batches it posts, the failed
    one included, are consecutive pieces of the list in order, each
    non-empty and no longer than the batch size; it never throws a
    TypeError, and an error it throws carries the prefix
    [Failed to add tracks to playlist: ]. *)
Theorem addTracksToPlaylist_batches (s : S) :
  let r := addTracksToPlaylist w len playlistId trackUris batchSize s in
  exists c rest,
    resultOf r = Some c /\
    List.concat (map post_uris (logOf r)) ++ rest = trackUris /\
    Forall (fun q => post_playlist q = playlistId /\
                     0 < List.length (post_uris q) <= batchSize) (logOf r) /\
    c <> ThrowTypeError /\
    (forall msg, c = ThrowError msg ->
       exists m, msg = ("Failed to add tracks to playlist: " ++ m)%string) /\
    (forall out, c = Return out -> rest = []).
Proof.
  unfold addTracksToPlaylist.
  destruct (w_auth w GetValidAccessToken s) as [[u|m] s1].
  - destruct (addBatches_spec len 0 [] s1 ltac:(lia))
      as (c & rest & Hc & Hcat & Hall & _ & _ & Hty & Hmsg & Hret & _).
    exists c, rest. repeat split; auto.
    intros out Hout. now destruct (Hret out Hout).
  - unfold resultOf, logOf. simpl. exists (addFailure m), trackUris.
    repeat split; auto; try discriminate.
    intros msg [= <-]. eauto.
Qed.

(** X6: when every call resolves, [addTracksToPlaylist] returns one
    response per batch; the batches posted, concatenated, are the uris in
    order; every batch but the last holds exactly [batchSize] uris and
    the last between 1 and [batchSize]; the number of batches is the
    number of uris divided by [batchSize], rounded up. *)
Theorem addTracksToPlaylist_complete (s : S) :
  allResolve w ->
  let r := addTracksToPlaylist w len playlistId trackUris batchSize s in
  exists out,
    resultOf r = Some (Return out) /\
    List.length out = List.length (logOf r) /\
    List.concat (map post_uris (logOf r)) = trackUris /\
    Forall (fun q => post_playlist q = playlistId /\
                     0 < List.length (post_uris q) <= batchSize) (logOf r) /\
    (forall j, Datatypes.S j < List.length (logOf r) ->
       List.length (post_uris (nth j (logOf r) (mkPost playlistId []))) = batchSize) /\
    len <= List.length (logOf r) * batchSize /\
    List.length (logOf r) * batchSize < len + batchSize.
Proof.
  intros Hall. unfold addTracksToPlaylist.
  destruct (proj1 Hall GetValidAccessToken s) as [s1 ->].
  destruct (addBatches_spec len 0 [] s1 ltac:(lia))
    as (c & rest & Hc & Hcat & Hfor & Hfull & _ & _ & _ & Hret & Htot).
  destruct (Htot Hall) as [out ->].
  destruct (Hret out eq_refl) as (-> & Hl & Hlo & Hhi).
  exists out. rewrite app_nil_r in Hcat. simpl in Hl.
  repeat split; auto; lia.
Qed.

End AddTracksFacts.

Lemma addTracksToPlaylist_batches_witness :
  exists c rest,
    Auxiliary.resultOf
      (SpotifyClient.addTracksToPlaylist MoreSamples.accepting 3 "p"
         ["a"; "b"; "c"] 2 0) = Some c /\
    List.concat (map SpotifyClient.post_uris
              (Auxiliary.logOf
                 (SpotifyClient.addTracksToPlaylist MoreSamples.accepting 3 "p"
                    ["a"; "b"; "c"] 2 0))) ++ rest = ["a"; "b"; "c"].
Proof.
  destruct (addTracksToPlaylist_batches MoreSamples.accepting "p"
              ["a"; "b"; "c"] 2 ltac:(lia) 0) as (c & rest & Hc & Hcat & _).
  exists c, rest. split; [exact Hc|exact Hcat].
Defined.

Lemma addTracksToPlaylist_complete_witness :
  exists out,
    Auxiliary.resultOf
      (SpotifyClient.addTracksToPlaylist MoreSamples.accepting 3 "p"
         ["a"; "b"; "c"] 2 0) = Some (Return out) /\
    List.length out = 2.
Proof.
  destruct (addTracksToPlaylist_complete MoreSamples.accepting "p"
              ["a"; "b"; "c"] 2 ltac:(lia) 0) as (out & Hr & Hl & _).
  - split; intros; simpl; eauto.
  - exists out. split; [exact Hr|exact Hl].
Defined.

(** ** Access tokens *)

Section AuthFacts.
Import SpotifyAuth Auxiliary.

Context {S : Type} (e : env S).


(** X8: after [exchangeCodeForToken] has stored a token that lasts [n]
    seconds, [getValidAccessToken] serves that token without any request
    as long as the clock reads more than a minute before the expiry
    computed at the exchange. *)
Theorem token_served_until_expiry (code token : string) (a : auth)
    (s s1 s2 s3 : S) (response : tokenResponse) (n t0 t1 : Z) :
  postToken e (AuthorizationCode code) s = (Resolved response, s1) ->
  access_token response = Some token ->
  truthyStr token = true ->
  expires_in response = Fin n ->
  clock e s1 = (t0, s2) ->
  clock e s2 = (t1, s3) ->
  (t1 < t0 + n * 1000 - 60000)%Z ->
  let r := exchangeCodeForToken e code a s in
  completionOf r = Return (Some token) /\
  tokenExpiry (authOf r) = Some (Fin (t0 + n * 1000)) /\
  getValidAccessToken e (authOf r) s2 = (Return (Some token), authOf r, s3, []).
Proof.
  intros Hpost Htok Ht Hexp Hc0 Hc1 Hlt.
  unfold exchangeCodeForToken, completionOf, authOf.
  rewrite Hpost, Hc0. simpl. rewrite Htok, Hexp. simpl.
  split; auto. split; auto.
  unfold getValidAccessToken. simpl. rewrite Ht, Hc1. simpl.
  destruct (Z.leb_spec (t0 + n * 1000 - 60000) t1); [lia|reflexivity].
Qed.

End AuthFacts.


Lemma token_served_until_expiry_witness :
  SpotifyAuth.getValidAccessToken MoreSamples.hourly
    (Auxiliary.authOf
       (SpotifyAuth.exchangeCodeForToken MoreSamples.hourly "code"
          SpotifyAuth.newAuth 0%Z)) 1000%Z
  = (Return (Some "tok"),
     Auxiliary.authOf
       (SpotifyAuth.exchangeCodeForToken MoreSamples.hourly "code"
          SpotifyAuth.newAuth 0%Z),
     2000%Z, []).
Proof.
  apply (token_served_until_expiry MoreSamples.hourly "code" "tok"
           SpotifyAuth.newAuth 0%Z 0%Z 1000%Z 2000%Z
           (SpotifyAuth.mkTokenResponse (Some "tok") None (Fin 3600))
           3600 0 1000); try reflexivity.
Defined.

(** ** The not-found report *)

Section ReportFacts.
Import Auxiliary Reference Cli.

Lemma lacks_app sep a b :
  lacks sep (a ++ b) = lacks sep a && lacks sep b.
Proof.
  induction a as [|c a IH]; simpl; auto. now rewrite IH, andb_assoc.
Qed.

Lemma joinWith_lacks sep glue rows :
  lacks sep glue = true ->
  Forall (fun row => lacks sep row = true) rows ->
  lacks sep (joinWith glue rows) = true.
Proof.
  intros Hg. induction 1 as [|row rows Hrow Hrows IH]; simpl; auto.
  destruct rows as [|row' rows']; auto.
  rewrite !lacks_app, Hrow, Hg. exact IH.
Qed.

Lemma trim_truthy c r :
  isWhiteSpace c = false -> truthyStr (trim (String c r)) = true.
Proof.
  intros Hc. unfold trim. simpl. rewrite Hc. simpl.
  destruct (trimEnd r); [now rewrite Hc|reflexivity].
Qed.

(** X9: the report of the tracks not found is written with the two
    characters backslash and [t] between the fields and backslash and [n]
    between the rows; unless a field holds a line feed, it is one line,
    and the tab-delimited decoder reads it as a header with no record:
    no canonical track comes back from it. *)
Theorem report_decodes_to_nothing (notFound : list SpotifyClient.track) :
  Forall (fun t =>
            lacks newline (SpotifyClient.toText (SpotifyClient.name t)) = true /\
            lacks newline (SpotifyClient.toText (SpotifyClient.artist t)) = true /\
            lacks newline (SpotifyClient.toText (SpotifyClient.album t)) = true)
         notFound ->
  ApplePlaylistParser.contentLines (reportContent notFound)
  = [reportContent notFound] /\
  ApplePlaylistParser.parseFile (reportContent notFound) = Return [] /\
  ApplePlaylistParser.getTracksForSpotify [] = [].
Proof.
  intros Hf.
  assert (Hl : lacks newline (reportContent notFound) = true).
  { unfold reportContent.
    rewrite lacks_app. apply andb_true_iff. split; [reflexivity|].
    apply joinWith_lacks; [reflexivity|].
    apply Forall_map. eapply Forall_impl; [|exact Hf].
    intros t (Hn & Ha & Hb). unfold reportRow.
    rewrite !lacks_app, Hn, Ha, Hb. reflexivity. }
  assert (Hc : ApplePlaylistParser.contentLines (reportContent notFound)
               = [reportContent notFound]).
  { unfold ApplePlaylistParser.contentLines.
    rewrite (split_lacks _ _ Hl). simpl filter.
    unfold reportContent at 1. simpl append.
    now rewrite trim_truthy. }
  split; [exact Hc|]. split; [|reflexivity].
  unfold ApplePlaylistParser.parseFile. now rewrite Hc.
Qed.

End ReportFacts.

Lemma report_decodes_to_nothing_witness :
  ApplePlaylistParser.parseFile (Cli.reportContent [Samples.letItBe]) = Return [].
Proof.
  apply (report_decodes_to_nothing [Samples.letItBe]).
  repeat constructor.
Defined.

(** ** Records of one tab-delimited decode *)

Section TabShapeFacts.
Import ApplePlaylistParser Auxiliary Reference.

Lemma obj_put_keys_same {V : Type} k (v1 v2 : V) (o1 : JsObject V) :
  forall o2, obj_keys o1 = obj_keys o2 ->
             obj_keys (obj_put k v1 o1) = obj_keys (obj_put k v2 o2).
Proof.
  induction o1 as [|[k1 x1] o1 IH]; intros [|[k2 x2] o2] H; simpl in *;
    try discriminate; auto.
  injection H as <- H.
  destruct (String.eqb k k1); simpl; f_equal; auto.
Qed.

Lemma obj_set_keys_same {V : Type} k (v1 v2 : V) (o1 o2 : JsObject V) :
  obj_keys o1 = obj_keys o2 ->
  obj_keys (obj_set k v1 o1) = obj_keys (obj_set k v2 o2).
Proof.
  intros H. unfold obj_set. destruct (String.eqb k proto_name); auto.
  now apply obj_put_keys_same.
Qed.

Lemma fillTrack_keys_same headers : forall i1 i2 values1 values2 t1 t2,
  obj_keys t1 = obj_keys t2 ->
  obj_keys (fillTrack headers i1 values1 t1)
  = obj_keys (fillTrack headers i2 values2 t2).
Proof.
  induction headers as [|h hs IH]; intros i1 i2 values1 values2 t1 t2 H;
    simpl; auto.
  apply IH. now apply obj_set_keys_same.
Qed.

Lemma obj_put_NoDup {V : Type} k (v : V) (o : JsObject V) :
  NoDup (obj_keys o) -> NoDup (obj_keys (obj_put k v o)).
Proof.
  induction o as [|[k0 v0] o IH]; simpl; intros Hnd.
  - constructor; [intros []|constructor].
  - inversion Hnd as [|? ? Hnin Hnd']; subst.
    destruct (String.eqb_spec k k0) as [->|Hne]; simpl.
    + now constructor.
    + constructor; auto. intros Hin.
      destruct (obj_put_keys _ _ _ _ Hin) as [->|Hin']; auto.
Qed.

Lemma obj_set_NoDup {V : Type} k (v : V) (o : JsObject V) :
  NoDup (obj_keys o) -> NoDup (obj_keys (obj_set k v o)).
Proof.
  unfold obj_set. destruct (String.eqb k proto_name); auto using obj_put_NoDup.
Qed.

Lemma fillTrack_NoDup headers : forall i values t,
  NoDup (obj_keys t) -> NoDup (obj_keys (fillTrack headers i values t)).
Proof.
  induction headers as [|h hs IH]; intros i values t H; simpl; auto.
  apply IH. now apply obj_set_NoDup.
Qed.

Lemma fillTrack_has headers : forall i values t h,
  In h headers -> h <> proto_name ->
  In h (obj_keys (fillTrack headers i values t)).
Proof.
  assert (Hkeep : forall hs i values (t : JsObject string) h,
            In h (obj_keys t) -> In h (obj_keys (fillTrack hs i values t))).
  { induction hs as [|h0 hs IH]; intros i values t h Hin; simpl; auto.
    apply IH. unfold obj_set. destruct (String.eqb h0 proto_name); auto.
    clear - Hin. induction t as [|[k v] t IHt]; simpl in *; [tauto|].
    destruct (String.eqb h0 k); simpl; destruct Hin; auto. }
  induction headers as [|h0 hs IH]; intros i values t h Hin Hp; simpl.
  - destruct Hin.
  - destruct Hin as [->|Hin]; [|now apply IH].
    apply Hkeep. unfold obj_set.
    destruct (String.eqb_spec h proto_name) as [->|_]; [tauto|].
    clear. induction t as [|[k v] t IHt]; simpl; [now left|].
    destruct (String.eqb_spec h k) as [->|_]; simpl; auto.
Qed.

(** X10: all the records of one decode have the same property names in
    the same order, whatever the rows hold: the names are pairwise
    distinct, each is a header, and every header other than [__proto__]
    is among them. *)
Theorem tab_records_same_shape (content first : string) (rest : list string)
    (records : list (JsObject string)) :
  contentLines content = first :: rest ->
  parseFile content = Return records ->
  (forall r1 r2, In r1 records -> In r2 records -> obj_keys r1 = obj_keys r2) /\
  (forall r, In r records ->
     NoDup (obj_keys r) /\
     (forall h, In h (obj_keys r) <->
                In h (split tab first) /\ h <> proto_name)).
Proof.
  intros Hlines. unfold parseFile. rewrite Hlines. intros [= <-]. split.
  - intros r1 r2 H1 H2. apply in_map_iff in H1, H2.
    destruct H1 as (l1 & <- & _), H2 as (l2 & <- & _).
    now apply fillTrack_keys_same.
  - intros r Hr. apply in_map_iff in Hr. destruct Hr as (l & <- & _). split.
    + apply fillTrack_NoDup. constructor.
    + intros h. split.
      * intros Hin. split.
        -- destruct (fillTrack_keys _ _ _ _ _ Hin) as [H|[]]. exact H.
        -- intros ->.
           assert (Hno : forall hs i values (t : JsObject string),
                     ~ In proto_name (obj_keys t) ->
                     ~ In proto_name (obj_keys (fillTrack hs i values t))).
           { induction hs as [|h0 hs IH]; intros i values t Ht; simpl; auto.
             apply IH. intros Hin'.
             unfold obj_set in Hin'.
             destruct (String.eqb_spec h0 proto_name) as [->|Hne]; auto.
             destruct (obj_put_keys _ _ _ _ Hin') as [E|Hin'']; auto. }
           now apply (Hno (split tab first) 0 (split tab l) []) in Hin.
      * intros [Hin Hp]. now apply fillTrack_has.
Qed.

Lemma tab_records_same_shape_witness :
  obj_keys [("Name", "Let It Be"); ("Artist", "The Beatles"); ("Time", "4:03")]
  = obj_keys [("Name", "Yesterday"); ("Artist", "The Beatles"); ("Time", "")].
Proof.
  apply (proj1 (tab_records_same_shape Samples.tabExport
                  (join tab ["Name"; "Artist"; "Time"])
                  [join tab ["Let It Be"; "The Beatles"; "4:03"];
                   join tab ["Yesterday"; "The Beatles"]]
                  _ eq_refl eq_refl)).
  - now left.
  - right. now left.
Defined.

Lemma split_join sep (ls : list string) :
  ls <> [] ->
  Forall (fun l => lacks sep l = true) ls ->
  split sep (join sep ls) = ls.
Proof.
  intros Hne Hf. induction Hf as [|l ls Hl Hls IH]; [congruence|].
  destruct ls as [|l' ls'].
  - simpl. now apply split_lacks.
  - change (join sep (l :: l' :: ls'))
      with (l ++ String sep (join sep (l' :: ls')))%string.
    rewrite split_app by assumption. f_equal. apply IH. discriminate.
Qed.

Lemma filter_idem {A : Type} (f : A -> bool) l :
  filter f (filter f l) = filter f l.
Proof.
  induction l as [|x l IH]; simpl; auto.
  destruct (f x) eqn:E; simpl; rewrite ?E, IH; auto.
Qed.

(** X11: the decoder sees only the lines that are not blank: for lines
    without a line feed inside, the lines it keeps are the non-blank ones
    in order, and leaving the blank lines out of the content changes
    nothing in the result. *)
Theorem tab_blank_lines_ignored (lines : list string) :
  lines <> [] ->
  Forall (fun l => lacks newline l = true) lines ->
  contentLines (join newline lines) = filter nonBlank lines /\
  parseFile (join newline lines)
  = parseFile (join newline (filter nonBlank lines)).
Proof.
  intros Hne Hf.
  assert (H1 : contentLines (join newline lines) = filter nonBlank lines).
  { unfold contentLines. now rewrite split_join. }
  split; [exact H1|].
  unfold parseFile. rewrite H1.
  assert (H2 : contentLines (join newline (filter nonBlank lines))
               = filter nonBlank lines).
  { destruct (filter nonBlank lines) as [|l ls] eqn:E; [reflexivity|].
    unfold contentLines. rewrite split_join.
    - fold nonBlank. rewrite <- E. apply filter_idem.
    - discriminate.
    - rewrite <- E. apply Forall_forall. intros x Hx.
      apply filter_In in Hx. destruct Hx as [Hx _].
      now apply (proj1 (Forall_forall _ _) Hf). }
  now rewrite H2.
Qed.

Lemma tab_blank_lines_ignored_witness :
  parseFile Samples.tabExport
  = parseFile (join newline
                 [join tab ["Name"; "Artist"; "Time"];
                  join tab ["Let It Be"; "The Beatles"; "4:03"];
                  join tab ["Yesterday"; "The Beatles"]]).
Proof.
  apply (tab_blank_lines_ignored
           [join tab ["Name"; "Artist"; "Time"]; "";
            join tab ["Let It Be"; "The Beatles"; "4:03"]; "   ";
            join tab ["Yesterday"; "The Beatles"]]).
  - discriminate.
  - repeat constructor.
Defined.

End TabShapeFacts.

(** ** What unescaping preserves *)

Section UnescapeShape.
Import AppleXmlParser Auxiliary Reference.

Lemma str_length_app (a b : string) :
  String.length (a ++ b) = String.length a + String.length b.
Proof. induction a as [|c a IH]; simpl; auto. Qed.

Lemma startsWith_length p s :
  startsWith p s = true -> String.length p <= String.length s.
Proof.
  revert s. induction p as [|a p IH]; intros [|b s]; simpl; try lia;
    try discriminate.
  rewrite andb_true_iff. intros [_ H]. apply IH in H. lia.
Qed.

(** A pattern whose first character is absent from the string matches
    nowhere. *)
Lemma replaceAll_absent a p rep s :
  lacks a s = true -> replaceAll (String a p) rep s = s.
Proof.
  unfold replaceAll. induction s as [|c s IH]; simpl; auto.
  rewrite andb_true_iff, negb_true_iff. intros [Hc Hs].
  rewrite Ascii.eqb_sym, Hc. simpl. now rewrite IH.
Qed.

Lemma replaceFrom_length pat rep :
  String.length rep <= String.length pat ->
  forall s skip,
    skip <= String.length s ->
    String.length (replaceFrom pat rep skip s) <= String.length s - skip.
Proof.
  intros Hrep. induction s as [|c s IH]; intros skip Hskip; simpl; [lia|].
  destruct skip as [|n].
  - destruct (startsWith pat (String c s)) eqn:E.
    + apply startsWith_length in E. simpl in E.
      rewrite str_length_app.
      destruct (Nat.eq_dec (String.length pat) 0) as [Hz|Hnz].
      * rewrite Hz in *. specialize (IH 0 ltac:(lia)). simpl. lia.
      * specialize (IH (String.length pat - 1) ltac:(lia)). lia.
    + simpl. specialize (IH 0 ltac:(lia)). lia.
  - simpl in Hskip. specialize (IH n ltac:(lia)). lia.
Qed.

Lemma replaceAll_length pat rep s :
  String.length rep <= String.length pat ->
  String.length (replaceAll pat rep s) <= String.length s.
Proof.
  intros H. pose proof (replaceFrom_length pat rep H s 0 ltac:(lia)) as H'.
  unfold replaceAll. lia.
Qed.

Lemma replaceAll_truthy pat rep s :
  truthyStr rep = true ->
  truthyStr (replaceAll pat rep s) = truthyStr s.
Proof.
  intros Hrep. unfold replaceAll. destruct s as [|c s]; simpl; auto.
  destruct (startsWith pat (String c s)); auto.
  destruct rep; [discriminate|reflexivity].
Qed.

Lemma unescape_truthy s : truthyStr (unescape s) = truthyStr s.
Proof.
  unfold unescape. now rewrite !replaceAll_truthy.
Qed.

Lemma cleanString_truthy v : truthy (cleanString v) = truthy v.
Proof. destruct v; simpl; auto. apply unescape_truthy. Qed.

(** X17: unescaping leaves a string without an ampersand as it is, never
    makes a string longer, and yields the empty string only from the
    empty string. *)
Theorem unescape_shape (s : string) :
  (lacks ampersand s = true -> unescape s = s) /\
  String.length (unescape s) <= String.length s /\
  truthyStr (unescape s) = truthyStr s.
Proof.
  split; [|split; [|apply unescape_truthy]].
  - intros H. unfold unescape.
    change "&#38;" with (String ampersand "#38;").
    change "&#39;" with (String ampersand "#39;").
    change "&quot;" with (String ampersand "quot;").
    change "&lt;" with (String ampersand "lt;").
    change "&gt;" with (String ampersand "gt;").
    rewrite (replaceAll_absent ampersand "#38;" "&" s H).
    rewrite (replaceAll_absent ampersand "#39;" "'" s H).
    rewrite (replaceAll_absent ampersand "quot;" (String dquote EmptyString) s H).
    rewrite (replaceAll_absent ampersand "lt;" "<" s H).
    apply (replaceAll_absent ampersand "gt;" ">" s H).
  - unfold unescape.
    repeat (etransitivity; [apply replaceAll_length; simpl; lia|]).
    apply Nat.le_refl.
Qed.

Lemma unescape_shape_witness : unescape "Let It Be" = "Let It Be".
Proof. apply (unescape_shape "Let It Be"). reflexivity. Defined.

End UnescapeShape.

(** ** The shape of decoded records and of a parsed library *)

Section LibraryShape.
Import AppleXmlParser Auxiliary Reference.

Local Abbreviation assign :=
  (fold_left (fun (r : JsObject value) (kv : string * value) =>
                obj_set (fst kv) (snd kv) r)).

Lemma obj_set_no_proto {V : Type} k (v : V) (o : JsObject V) :
  ~ In proto_name (obj_keys o) -> ~ In proto_name (obj_keys (obj_set k v o)).
Proof.
  intros Ho Hin. unfold obj_set in Hin.
  destruct (String.eqb_spec k proto_name) as [->|Hne]; auto.
  destruct (obj_put_keys _ _ _ _ Hin) as [E|Hin']; auto.
Qed.

Lemma obj_put_length {V : Type} k (v : V) (o : JsObject V) :
  List.length (obj_put k v o) <= Datatypes.S (List.length o).
Proof.
  induction o as [|[k0 v0] o IH]; simpl; auto.
  destruct (String.eqb k k0); simpl; lia.
Qed.

Lemma obj_set_length {V : Type} k (v : V) (o : JsObject V) :
  List.length (obj_set k v o) <= Datatypes.S (List.length o).
Proof.
  unfold obj_set. destruct (String.eqb k proto_name);
    [lia|apply obj_put_length].
Qed.

Lemma assign_shape entries : forall o,
  NoDup (obj_keys o) ->
  ~ In proto_name (obj_keys o) ->
  NoDup (obj_keys (assign entries o)) /\
  ~ In proto_name (obj_keys (assign entries o)) /\
  (forall k, In k (obj_keys (assign entries o)) ->
             In k (obj_keys entries) \/ In k (obj_keys o)) /\
  List.length (assign entries o) <= List.length o + List.length entries.
Proof.
  induction entries as [|[k v] entries IH]; intros o Hnd Hp; simpl.
  - repeat split; auto. lia.
  - destruct (IH (obj_set k v o)) as (H1 & H2 & H3 & H4).
    + now apply obj_set_NoDup.
    + now apply obj_set_no_proto.
    + repeat split; auto.
      * intros k' Hin. destruct (H3 k' Hin) as [H|H]; auto.
        destruct (obj_set_keys _ _ _ _ H) as [->|H']; auto.
      * pose proof (obj_set_length k v o). lia.
Qed.

Lemma bucket_length v : List.length (bucket v) <= List.length (asArray v).
Proof. unfold bucket. destruct (truthyJs v); simpl; lia. Qed.

Lemma bucketEntries_length es :
  List.length (bucketEntries es) <= List.length es.
Proof.
  destruct es as [|[x o] [|e es]]; simpl; auto.
  destruct (truthyXml x); simpl; lia.
Qed.

(** X12: whatever the node, the record decoded from a dict never has two
    properties of the same name and never a property [__proto__]; every
    name in it is a declared key; it has at most as many entries as
    declared keys and at most as many as the node has values. *)
Theorem parseDict_record_shape (k s i d t f a dd : list xml) :
  let record := parseDict (Elem k s i d t f a dd) in
  NoDup (obj_keys record) /\
  ~ In proto_name (obj_keys record) /\
  (forall key, In key (obj_keys record) -> In key (map toStr k)) /\
  List.length record <= List.length k /\
  List.length record
  <= List.length s + List.length i + List.length d
     + List.length t + List.length f + List.length a.
Proof.
  cbv zeta. rewrite parseDict_Elem.
  destruct (negb (truthyJs (prop k))).
  { simpl. repeat split; auto; try lia. constructor. }
  change start
    with (cursorsAt (bucket (prop s)) (bucket (prop i)) (bucket (prop d))
                    (List.length t) (List.length f)
                    (bucketEntries (entriesOf a)) 0).
  rewrite parseDictLoop_pairUp.
  set (entries := pairUp _ _ _ _ _ _ _ 0).
  destruct (assign_shape entries []) as (H1 & H2 & H3 & H4);
    [constructor|intros []|].
  assert (Hkeys : obj_keys entries
                  = firstn (available (bucket (prop s)) (bucket (prop i))
                                      (bucket (prop d)) (List.length t)
                                      (List.length f)
                                      (bucketEntries (entriesOf a)))
                           (map toStr k)).
  { unfold entries. rewrite pairUp_keys. now rewrite Nat.sub_0_r. }
  assert (Hlen : List.length entries = List.length (obj_keys entries))
    by (unfold obj_keys; now rewrite length_map).
  rewrite Hkeys, length_firstn, length_map in Hlen.
  split; auto. split; auto. split; [|split].
  - intros key Hin. destruct (H3 key Hin) as [H|[]].
    rewrite Hkeys in H. destruct (firstn_In_nth _ _ _ H) as (j & _ & Hj).
    eapply nth_error_In; eauto.
  - simpl in H4. lia.
  - simpl in H4. unfold available in Hlen.
    pose proof (bucket_length (prop s)). pose proof (bucket_length (prop i)).
    pose proof (bucket_length (prop d)).
    pose proof (bucketEntries_length (entriesOf a)).
    rewrite !asArray_prop in *. unfold entriesOf in *.
    rewrite length_map in *. lia.
Qed.

Lemma extractPlaylists_tracks m q : tracks (extractPlaylists m q) = tracks q.
Proof.
  unfold extractPlaylists.
  destruct (negb (declaresKey "Playlists" m)); auto.
  destruct (negb _ || negb _); auto.
Qed.

Lemma extractTracks_playlists m q : playlists (extractTracks m q) = playlists q.
Proof.
  unfold extractTracks.
  destruct (negb (declaresKey "Tracks" m)); auto.
  destruct (negb _ || negb _ || negb _); auto.
Qed.

Lemma parseFile_playlists plist p :
  parseFile plist newParser = Return p ->
  exists dicts,
    playlists p
    = filter (fun pl => truthyOpt (obj_get "Name" pl)) (map parseDict dicts).
Proof.
  unfold parseFile.
  destruct (negb (truthyJs plist) || negb (truthyJs (field x_dict plist)));
    [discriminate|].
  intros [= <-]. unfold extractPlaylists.
  destruct (negb (declaresKey "Playlists" (field x_dict plist)));
    [exists []; now rewrite extractTracks_playlists|].
  destruct (negb _ || negb _);
    [exists []; now rewrite extractTracks_playlists|].
  simpl. rewrite extractTracks_playlists. simpl. eauto.
Qed.

Lemma stamped_shape e :
  retained e = true ->
  truthyOpt (obj_get "Name" (stamped e)) = true /\
  (truthyOpt (obj_get "Artist" (stamped e))
   || truthyOpt (obj_get "Album Artist" (stamped e))) = true /\
  obj_get "Track ID" (stamped e) = Some (VNum (parseInt (toStr (fst e)))).
Proof.
  unfold retained, stamped. rewrite andb_true_iff. intros [Hn Ha].
  rewrite !obj_set_other by discriminate.
  rewrite obj_set_same by discriminate. auto.
Qed.

Lemma parsed_tracks_named plist p t :
  parseFile plist newParser = Return p ->
  In t (tracks p) ->
  truthyOpt (obj_get "Name" t) = true /\
  (truthyOpt (obj_get "Artist" t)
   || truthyOpt (obj_get "Album Artist" t)) = true /\
  exists n, obj_get "Track ID" t = Some (VNum n).
Proof.
  intros Hp Ht.
  destruct (parseFile_tracks plist p Hp) as [E|E]; rewrite E in Ht;
    [destruct Ht|].
  apply in_map_iff in Ht. destruct Ht as (e & <- & He).
  apply filter_In in He.
  destruct (stamped_shape e (proj2 He)) as (H1 & H2 & H3). eauto.
Qed.

(** X13: in a parsed library every track has a truthy name, a truthy
    artist or album artist, and a number as [Track ID]; every playlist
    has a truthy name; there are no more tracks than entries in the
    Tracks dict. *)
Theorem parsed_library_shape (plist : jsval) (p : parser) :
  parseFile plist newParser = Return p ->
  Forall (fun t => truthyOpt (obj_get "Name" t) = true /\
                   (truthyOpt (obj_get "Artist" t)
                    || truthyOpt (obj_get "Album Artist" t)) = true /\
                   exists n, obj_get "Track ID" t = Some (VNum n))
         (tracks p) /\
  Forall (fun pl => truthyOpt (obj_get "Name" pl) = true) (playlists p) /\
  List.length (tracks p) <= List.length (tracksEntries plist).
Proof.
  intros Hp. split; [|split].
  - apply Forall_forall. intros t Ht.
    now apply (parsed_tracks_named plist p).
  - destruct (parseFile_playlists plist p Hp) as [dicts ->].
    apply Forall_forall. intros pl Hpl. now apply filter_In in Hpl.
  - destruct (parseFile_tracks plist p Hp) as [->| ->]; [simpl; lia|].
    rewrite length_map. clear.
    induction (tracksEntries plist) as [|e l IH]; simpl; auto.
    destruct (retained e); simpl; lia.
Qed.

Lemma parsed_library_shape_witness :
  Forall (fun pl => truthyOpt (obj_get "Name" pl) = true)
         (playlists Samples.parsedLibrary) /\
  List.length (tracks Samples.parsedLibrary)
  <= List.length (tracksEntries Samples.library).
Proof.
  apply (parsed_library_shape Samples.library Samples.parsedLibrary eq_refl).
Defined.

Lemma parsed_valid plist p t :
  parseFile plist newParser = Return p -> In t (tracks p) -> valid t = true.
Proof.
  intros Hp Ht.
  destruct (parsed_tracks_named plist p t Hp Ht) as (Hn & Ha & _).
  unfold valid, toCanonical. simpl. rewrite !cleanString_truthy.
  apply andb_true_iff. split.
  - destruct (obj_get "Name" t) as [v|]; [|discriminate]. simpl in *.
    now rewrite Hn.
  - destruct (obj_get "Artist" t) as [v|]; simpl in *.
    + destruct (truthy v) eqn:E; auto.
      destruct (obj_get "Album Artist" t) as [v'|]; [|discriminate].
      simpl in *. now rewrite Ha.
    + destruct (obj_get "Album Artist" t) as [v'|]; [|discriminate].
      simpl in *. now rewrite Ha.
Qed.

End LibraryShape.

Lemma parseDict_record_shape_witness :
  NoDup (obj_keys (AppleXmlParser.parseDict Samples.repeatedKey)) /\
  List.length (AppleXmlParser.parseDict Samples.repeatedKey) <= 2.
Proof.
  destruct (parseDict_record_shape
              [AppleXmlParser.Text "A"; AppleXmlParser.Text "A"]
              [AppleXmlParser.Text "x"; AppleXmlParser.Text "y"] [] [] [] [] [] [])
    as (H1 & _ & _ & H2 & _).
  split; [exact H1|exact H2].
Defined.

(** ** Counting tracks and listing playlists *)

Section LibraryCounts.
Import AppleXmlParser Auxiliary Reference.

Lemma filter_all {A : Type} (f : A -> bool) l :
  (forall x, In x l -> f x = true) -> filter f l = l.
Proof.
  induction l as [|x l IH]; simpl; intros H; auto.
  rewrite (H x (or_introl eq_refl)), IH; auto.
Qed.

Lemma filter_shorter {A : Type} (f : A -> bool) l :
  List.length (filter f l) <= List.length l.
Proof.
  induction l as [|x l IH]; simpl; auto. destruct (f x); simpl; lia.
Qed.

(** X14: in a parsed library every track is valid for conversion:
    [getTracksForSpotify()] returns one canonical track per library
    track, in order, and the library information reports as many valid
    tracks as tracks. *)
Theorem parsed_tracks_all_valid (plist : jsval) (p : parser) :
  parseFile plist newParser = Return p ->
  exists result info,
    getTracksForSpotify p None = Return result /\
    map originalTrack result = tracks p /\
    getPlaylistInfo p None = Return (LibraryInfo info) /\
    lib_validTracks info = lib_totalTracks info /\
    lib_totalTracks info = List.length (tracks p).
Proof.
  intros Hp.
  assert (Hall : map originalTrack (canonicalize (tracks p)) = tracks p).
  { rewrite canonicalize_sources. apply filter_all.
    intros t Ht. now apply (parsed_valid plist p). }
  eexists. eexists. split; [reflexivity|]. split; [exact Hall|].
  split; [reflexivity|]. simpl. split; auto.
  now rewrite <- (length_map originalTrack), Hall.
Qed.

Lemma parsed_tracks_all_valid_witness :
  exists result info,
    getTracksForSpotify Samples.parsedLibrary None = Return result /\
    map originalTrack result = tracks Samples.parsedLibrary /\
    getPlaylistInfo Samples.parsedLibrary None = Return (LibraryInfo info) /\
    lib_validTracks info = lib_totalTracks info /\
    lib_totalTracks info = List.length (tracks Samples.parsedLibrary).
Proof.
  apply (parsed_tracks_all_valid Samples.library Samples.parsedLibrary).
  reflexivity.
Defined.

Lemma sameValueZero_eq x v : sameValueZero x v = true -> x = v.
Proof.
  destruct x as [a|[|a]|?|a|?|?], v as [b|[|b]|?|b|?|?]; simpl;
    try discriminate; auto.
  - intros H. apply String.eqb_eq in H. now subst.
  - intros H. apply Z.eqb_eq in H. now subst.
  - intros H. apply Bool.eqb_prop in H. now subst.
Qed.

Lemma NoDup_map_filter {A B : Type} (f : A -> B) (g : A -> bool) l :
  NoDup (map f l) -> NoDup (map f (filter g l)).
Proof.
  induction l as [|x l IH]; simpl; intros H; auto.
  inversion H as [|? ? Hnin Hnd]; subst.
  destruct (g x); simpl; auto. constructor; auto.
  intros Hin. apply Hnin. apply in_map_iff in Hin.
  destruct Hin as (y & Hy & Hin). apply filter_In in Hin.
  apply in_map_iff. exists y. tauto.
Qed.

(** X15: when the tracks of a parsed library carry pairwise distinct
    identifiers and the playlist found holds a list of items,
    [getPlaylistInfo] reports the number of items as [totalTracks] and a
    number of valid tracks that does not exceed it. *)
Theorem playlist_info_counts (plist : jsval) (p : parser) (pname : string)
    (playlist : JsObject value) (ids : list value) :
  parseFile plist newParser = Return p ->
  NoDup (map (obj_get "Track ID") (tracks p)) ->
  truthyStr pname = true ->
  findPlaylist p pname = Some playlist ->
  obj_get "Playlist Items" playlist = Some (VItems ids) ->
  exists i,
    getPlaylistInfo p (Some pname) = Return (PlaylistInfo i) /\
    info_name i = Some (VStr pname) /\
    totalTracks i = Some (List.length ids) /\
    validTracks i <= List.length ids.
Proof.
  intros Hp Hnd Hname Hfind Hitems.
  unfold getPlaylistInfo, getTracksForSpotify. rewrite Hname, Hfind, Hitems.
  simpl. eexists. split; [reflexivity|]. simpl.
  split.
  { unfold findPlaylist in Hfind. apply find_some in Hfind.
    destruct Hfind as [_ Hf].
    destruct (obj_get "Name" playlist) as [[n| | | | |]|]; try discriminate.
    apply String.eqb_eq in Hf. now subst. }
  split.
  { unfold itemCount. now rewrite Hitems. }
  set (tids := filter truthy ids).
  set (l := filter (fun t => includesId tids (obj_get "Track ID" t)) (tracks p)).
  transitivity (List.length l).
  { unfold canonicalize. etransitivity; [apply filter_shorter|].
    now rewrite length_map. }
  transitivity (List.length tids); [|apply filter_shorter].
  rewrite <- (length_map (obj_get "Track ID") l), <- (length_map Some tids).
  apply NoDup_incl_length.
  - now apply NoDup_map_filter.
  - intros o Ho. apply in_map_iff in Ho. destruct Ho as (t & <- & Ht).
    apply filter_In in Ht. destruct Ht as [_ Hsel].
    destruct (obj_get "Track ID" t) as [v|]; [|discriminate]. simpl in Hsel.
    apply existsb_exists in Hsel. destruct Hsel as (x & Hx & Hsame).
    apply sameValueZero_eq in Hsame. subst. now apply in_map.
Qed.

Lemma playlist_info_counts_witness :
  exists i,
    getPlaylistInfo Samples.parsedLibrary (Some "Favourites")
    = Return (PlaylistInfo i) /\
    info_name i = Some (VStr "Favourites") /\
    totalTracks i = Some 3 /\
    validTracks i <= 3.
Proof.
  apply (playlist_info_counts Samples.library Samples.parsedLibrary "Favourites"
           [("Name", VStr "Favourites");
            ("Playlist Items", VItems [VNum (Fin 2); VNum (Fin 1); VNum (Fin 2)])]
           [VNum (Fin 2); VNum (Fin 1); VNum (Fin 2)]); try reflexivity.
  repeat constructor; simpl; intuition discriminate.
Defined.

(** X16: [listPlaylists] lists, in order and with the same names and
    item counts, exactly the playlists that the library information
    reports as neither master nor folder. *)
Theorem listPlaylists_matches_info (p : parser) :
  exists info,
    getPlaylistInfo p None = Return (LibraryInfo info) /\
    map (fun e => (entry_name e, entry_itemCount e)) (listPlaylists p)
    = map (fun s => (sum_name s, sum_itemCount s))
          (filter (fun s => negb (master s) && negb (folder s))
                  (lib_playlists info)) /\
    List.length (listPlaylists p) <= List.length (lib_playlists info) /\
    Forall (fun e => truthyOpt (entry_name e) = true) (listPlaylists p).
Proof.
  eexists. split; [reflexivity|]. unfold listPlaylists. simpl.
  induction (playlists p) as [|pl pls IH]; simpl.
  - repeat split; auto.
  - destruct IH as (IH1 & IH2 & IH3).
    destruct (truthyOpt (obj_get "Name" pl)) eqn:En; simpl; auto.
    destruct (truthyOpt (obj_get "Parent Persistent ID" pl)); simpl.
    + rewrite andb_false_r. simpl. repeat split; auto.
    + destruct (truthyOpt (obj_get "Master" pl)); simpl.
      * repeat split; auto.
      * repeat split; auto; [now rewrite IH1|lia].
Qed.

End LibraryCounts.

(** ** Finding a playlist by name *)

Section FindPlaylistLemmas.
Import AppleXmlParser Reference.

(** [find] returns the first element that passes the test. *)
Lemma find_first {A : Type} (f : A -> bool) (l : list A) (x : A) :
  find f l = Some x <->
  exists before after,
    l = before ++ x :: after /\ f x = true /\
    forall q, In q before -> f q = false.
Proof.
  induction l as [|y l IH]; simpl.
  - split; [discriminate|]. intros (b & a & E & _). destruct b; discriminate.
  - destruct (f y) eqn:Ey.
    + split.
      * intros [= <-]. exists [], l. repeat split; auto. intros q [].
      * intros (b & a & E & Hx & Hb). destruct b as [|z b]; simpl in E.
        -- now injection E as ->.
        -- injection E as -> _. rewrite (Hb z (or_introl eq_refl)) in Ey.
           discriminate.
    + rewrite IH. split.
      * intros (b & a & -> & Hx & Hb). exists (y :: b), a.
        repeat split; auto. intros q [<-|Hq]; auto.
      * intros (b & a & E & Hx & Hb). destruct b as [|z b]; simpl in E.
        -- injection E as -> _. congruence.
        -- injection E as -> ->. exists b, a. repeat split; auto.
           intros q Hq. apply Hb. now right.
Qed.

(** The test of [find] is the equality of the name with the string. *)
Lemma nameTest_named pname pl :
  match obj_get "Name" pl with
  | Some (VStr s) => String.eqb s pname
  | _ => false
  end = true <-> named pname pl.
Proof.
  unfold named. destruct (obj_get "Name" pl) as [[s| | | | |]|];
    try (split; [discriminate|congruence]).
  rewrite String.eqb_eq. split; congruence.
Qed.

Lemma findPlaylist_first p pname pl :
  findPlaylist p pname = Some pl <-> firstNamed (playlists p) pname pl.
Proof.
  unfold findPlaylist, firstNamed. rewrite find_first.
  split; intros (b & a & E & Hx & Hb); exists b, a; repeat split; auto.
  - now apply nameTest_named.
  - intros q Hq Hn. apply nameTest_named in Hn. rewrite (Hb q Hq) in Hn.
    discriminate.
  - now apply nameTest_named.
  - intros q Hq. apply not_true_is_false. intros Hn.
    apply nameTest_named in Hn. now apply (Hb q Hq).
Qed.

Lemma findPlaylist_absent p pname :
  findPlaylist p pname = None <->
  forall pl, In pl (playlists p) -> ~ named pname pl.
Proof.
  unfold findPlaylist. split.
  - intros H pl Hin Hname.
    pose proof (find_none _ _ H pl Hin) as Hf. cbv beta in Hf.
    apply nameTest_named in Hname. congruence.
  - intros H.
    destruct (find _ (playlists p)) as [pl|] eqn:E; auto.
    apply find_some in E. destruct E as [Hin Hf].
    exfalso. apply (H pl Hin). now apply nameTest_named.
Qed.

End FindPlaylistLemmas.

(** ** Library lookups *)

Section Lookup.
Import AppleXmlParser Reference.

Lemma append_inj_l (a x y : string) : (a ++ x = a ++ y)%string -> x = y.
Proof.
  induction a as [|c a IH]; simpl; auto. intros [= H]. auto.
Qed.

Lemma messages_differ pname : noTracksMessage pname <> notFoundMessage pname.
Proof.
  unfold noTracksMessage, notFoundMessage, quoted. simpl. intros [= H].
  apply append_inj_l in H. discriminate.
Qed.

Lemma tracks_error p pname msg :
  truthyStr pname = true ->
  getTracksForSpotify p (Some pname) = ThrowError msg ->
  msg = noTracksMessage pname.
Proof.
  intros Hname. unfold getTracksForSpotify. rewrite Hname.
  destruct (findPlaylist p pname) as [pl|]; [|congruence].
  destruct (obj_get "Playlist Items" pl) as [items|]; [|congruence].
  destruct (truthy items); simpl; [|congruence].
  destruct items; discriminate.
Qed.

Lemma tracks_throw_iff p pname :
  truthyStr pname = true ->
  (getTracksForSpotify p (Some pname) = ThrowError (noTracksMessage pname) <->
   findPlaylist p pname = None \/
   exists pl, findPlaylist p pname = Some pl /\
              truthyOpt (obj_get "Playlist Items" pl) = false).
Proof.
  intros Hname. unfold getTracksForSpotify. rewrite Hname.
  destruct (findPlaylist p pname) as [pl|]; [|tauto].
  destruct (obj_get "Playlist Items" pl) as [items|] eqn:E.
  - destruct (truthy items) eqn:Et; simpl.
    + split.
      * destruct items; discriminate.
      * intros [H|(pl' & [= <-] & H)]; [discriminate|].
        rewrite E in H. simpl in H. congruence.
    + split; auto. intros _. right. exists pl. rewrite E. auto.
  - split; auto. intros _. right. exists pl. rewrite E. auto.
Qed.

(** C4, as stated, fails on a playlist that has a name and no items: a
    playlist with the requested name exists in the decoded library, and
    both lookups raise. *)
Lemma lookup_empty_playlist_counterexample :
  parseFile Samples.library newParser = Return Samples.parsedLibrary /\
  In [("Name", VStr "Empty")] (playlists Samples.parsedLibrary) /\
  getTracksForSpotify Samples.parsedLibrary (Some "Empty")
    = ThrowError (noTracksMessage "Empty") /\
  getPlaylistInfo Samples.parsedLibrary (Some "Empty")
    = ThrowError (noTracksMessage "Empty").
Proof.
  repeat split; try reflexivity. vm_compute. auto.
Qed.

(** C4 (amended): for every non-empty requested name the lookup compares
    playlist names with the name by exact string equality and takes the
    first playlist of the library with that name; [getPlaylistInfo]
    raises [Playlist "name" not found] exactly when no playlist has that
    name; [getTracksForSpotify] raises
    [Playlist "name" not found or has no tracks] exactly when no
    playlist has that name or the first one with it has no truthy
    [Playlist Items] value, and [getPlaylistInfo] passes that error on;
    when the first playlist with the name holds a list of items, both
    lookups succeed and the information returned is about that
    playlist; when it holds a truthy value that is not a list of items,
    both raise a TypeError. *)
Theorem playlist_lookup (p : parser) (pname : string) :
  truthyStr pname = true ->
  let absent := forall pl, In pl (playlists p) -> ~ named pname pl in
  let first := firstNamed (playlists p) pname in
  (forall pl, findPlaylist p pname = Some pl <-> first pl) /\
  (findPlaylist p pname = None <-> absent) /\
  (getPlaylistInfo p (Some pname) = ThrowError (notFoundMessage pname) <->
   absent) /\
  (getTracksForSpotify p (Some pname) = ThrowError (noTracksMessage pname) <->
   absent \/
   exists pl, first pl /\ truthyOpt (obj_get "Playlist Items" pl) = false) /\
  (getPlaylistInfo p (Some pname) = ThrowError (noTracksMessage pname) <->
   exists pl, first pl /\ truthyOpt (obj_get "Playlist Items" pl) = false) /\
  (forall pl ids,
     first pl ->
     obj_get "Playlist Items" pl = Some (VItems ids) ->
     (exists ts, getTracksForSpotify p (Some pname) = Return ts) /\
     (exists i, getPlaylistInfo p (Some pname) = Return (PlaylistInfo i) /\
                info_playlist i = pl /\ info_name i = Some (VStr pname))) /\
  (forall pl v,
     first pl ->
     obj_get "Playlist Items" pl = Some v ->
     truthy v = true ->
     (forall ids, v <> VItems ids) ->
     getTracksForSpotify p (Some pname) = ThrowTypeError /\
     getPlaylistInfo p (Some pname) = ThrowTypeError) /\
  notFoundMessage pname = ("Playlist " ++ inQuotes pname ++ " not found")%string /\
  noTracksMessage pname
  = ("Playlist " ++ inQuotes pname ++ " not found or has no tracks")%string.
Proof.
  intros Hname absent first.
  pose proof (tracks_throw_iff p pname Hname) as Htracks.
  pose proof (fun msg => tracks_error p pname msg Hname) as Herr.
  pose proof (findPlaylist_first p pname) as Hfirst. fold first in Hfirst.
  pose proof (findPlaylist_absent p pname) as Habsent. fold absent in Habsent.
  assert (Hnone : (exists pl, findPlaylist p pname = Some pl /\
                     truthyOpt (obj_get "Playlist Items" pl) = false) <->
                  exists pl, first pl /\
                     truthyOpt (obj_get "Playlist Items" pl) = false).
  { split; intros (pl & H & Hno); exists pl; split; auto; now apply Hfirst. }
  split; [exact Hfirst|]. split; [exact Habsent|].
  split; [|split; [|split; [|split; [|split; [|split; reflexivity]]]]].
  - rewrite <- Habsent. unfold getPlaylistInfo. rewrite Hname.
    destruct (findPlaylist p pname) as [pl|]; [|tauto].
    split; [|discriminate].
    destruct (getTracksForSpotify p (Some pname)) as [ts|msg|];
      try discriminate.
    intros H. exfalso. apply (messages_differ pname).
    rewrite <- (Herr msg eq_refl). congruence.
  - rewrite <- Habsent, <- Hnone. exact Htracks.
  - rewrite <- Hnone. unfold getPlaylistInfo. rewrite Hname.
    destruct (findPlaylist p pname) as [pl|].
    + destruct (getTracksForSpotify p (Some pname)) as [ts|msg|].
      * split; [discriminate|]. intros H.
        assert (Return ts = ThrowError (noTracksMessage pname))
          by (apply Htracks; now right).
        discriminate.
      * rewrite (Herr msg eq_refl) in *. split.
        -- intros _. destruct (proj1 Htracks eq_refl) as [E|E];
             [discriminate|exact E].
        -- reflexivity.
      * split; [discriminate|]. intros H.
        assert (@ThrowTypeError (list canonical)
                = ThrowError (noTracksMessage pname))
          by (apply Htracks; now right).
        discriminate.
    + split.
      * intros H. exfalso. apply (messages_differ pname). congruence.
      * intros (pl & H & _). discriminate.
  - intros pl ids Hf Hitems. apply Hfirst in Hf.
    assert (Hts : exists ts, getTracksForSpotify p (Some pname) = Return ts).
    { unfold getTracksForSpotify. rewrite Hname, Hf, Hitems. simpl. eauto. }
    split; auto. destruct Hts as [ts Hts].
    unfold getPlaylistInfo. rewrite Hname, Hf, Hts.
    eexists. split; [reflexivity|]. split; [reflexivity|]. simpl.
    apply Hfirst in Hf. destruct Hf as (b & a & _ & Hn & _). exact Hn.
  - intros pl v Hf Hitems Hv Hnot. apply Hfirst in Hf.
    assert (Hts : getTracksForSpotify p (Some pname) = ThrowTypeError).
    { unfold getTracksForSpotify. rewrite Hname, Hf, Hitems, Hv. simpl.
      destruct v; auto. exfalso. now apply (Hnot ids). }
    split; auto. unfold getPlaylistInfo. now rewrite Hname, Hf, Hts.
Qed.

Lemma playlist_lookup_witness :
  (exists ts,
     getTracksForSpotify Samples.parsedLibrary (Some "Favourites") = Return ts) /\
  (exists i,
     getPlaylistInfo Samples.parsedLibrary (Some "Favourites")
     = Return (PlaylistInfo i) /\
     info_playlist i
     = [("Name", VStr "Favourites");
        ("Playlist Items", VItems [VNum (Fin 2); VNum (Fin 1); VNum (Fin 2)])] /\
     info_name i = Some (VStr "Favourites")).
Proof.
  destruct (playlist_lookup Samples.parsedLibrary "Favourites" eq_refl)
    as (_ & _ & _ & _ & _ & Hok & _).
  apply (Hok _ [VNum (Fin 2); VNum (Fin 1); VNum (Fin 2)]); [|reflexivity].
  exists [], [[("Name", VStr "Empty")]].
  split; [reflexivity|]. split; [reflexivity|]. intros q [].
Defined.

(** Of two playlists of the same name the lookup takes the first: in the
    library whose first playlist named [Mix] has no items and whose
    second lists a track, the lookup raises. *)
Example lookup_takes_first :
  playlists Samples.parsedShadowed
  = [[("Name", VStr "Mix")];
     [("Name", VStr "Mix"); ("Playlist Items", VItems [VNum (Fin 1)])]] /\
  findPlaylist Samples.parsedShadowed "Mix" = Some [("Name", VStr "Mix")] /\
  getPlaylistInfo Samples.parsedShadowed (Some "Mix")
  = ThrowError (noTracksMessage "Mix").
Proof. repeat split. Qed.

End Lookup.

(** ** Playlist members *)

Section Members.
Import AppleXmlParser Reference Auxiliary.

Lemma existsb_same {A : Type} (f : A -> bool) (l l' : list A) :
  (forall x, In x l <-> In x l') -> existsb f l = existsb f l'.
Proof.
  intros H. apply eq_iff_eq_true. rewrite !existsb_exists.
  split; intros (x & Hin & Hf); exists x; split; auto; now apply H.
Qed.

Lemma listed_same ids ids' t :
  (forall x, In x ids <-> In x ids') -> listed ids t = listed ids' t.
Proof.
  intros H. unfold listed.
  destruct (obj_get "Track ID" t) as [[| [|z] | | | |]|]; auto.
  f_equal. now apply existsb_same.
Qed.

(** A listed track, in words. *)
Lemma listed_spec ids t :
  listed ids t = true <->
  exists z, z <> 0%Z /\ obj_get "Track ID" t = Some (VNum (Fin z)) /\
            In (VNum (Fin z)) ids.
Proof.
  unfold listed.
  destruct (obj_get "Track ID" t) as [[| [|z] | | | |]|];
    try (split; [discriminate|intros (z' & _ & [= ] & _)]).
  rewrite andb_true_iff, negb_true_iff, Z.eqb_neq, existsb_exists. split.
  - intros (Hz & x & Hin & Hx). exists z. repeat split; auto.
    destruct x as [| [|y] | | | |]; try discriminate.
    apply Z.eqb_eq in Hx. now subst.
  - intros (z' & Hz & [= <-] & Hin). split; auto.
    exists (VNum (Fin z)). split; auto. apply Z.eqb_refl.
Qed.

(** On a track whose identifier is a number, the test of the source,
    [trackIds.includes(track['Track ID'])] over the truthy identifiers,
    tells whether the track is listed. *)
Lemma includesId_listed ids t n :
  obj_get "Track ID" t = Some (VNum n) ->
  includesId (filter truthy ids) (obj_get "Track ID" t) = listed ids t.
Proof.
  intros E. unfold listed, includesId. rewrite E. destruct n as [|z].
  - induction ids as [|x ids IH]; simpl; auto.
    destruct (truthy x) eqn:Ex; simpl; auto. rewrite IH, orb_false_r.
    destruct x as [| [|y] | | | |]; simpl in *; auto; discriminate.
  - induction ids as [|x ids IH]; simpl.
    + now rewrite andb_false_r.
    + rewrite andb_orb_distrib_r, <- IH.
      assert (Hx : (if truthy x then sameValueZero x (VNum (Fin z)) else false)
                   = negb (z =? 0)%Z
                     && match x with
                        | VNum (Fin y) => (y =? z)%Z
                        | _ => false
                        end).
      { destruct x as [| [|y] | | | |]; simpl; rewrite ?andb_false_r; auto;
          try (destruct (truthyStr _); reflexivity);
          try (destruct b; reflexivity).
        destruct (Z.eqb_spec y 0), (Z.eqb_spec y z), (Z.eqb_spec z 0);
          simpl; auto; lia. }
      rewrite <- Hx. destruct (truthy x); reflexivity.
Qed.

Lemma declaresKey_In name mainDict :
  declaresKey name mainDict = true <->
  In (Text name) (asArray (field x_key mainDict)).
Proof.
  unfold declaresKey. rewrite existsb_exists. split.
  - intros (x & Hin & Hx). destruct x as [s0|]; [|discriminate].
    apply String.eqb_eq in Hx. now subst.
  - intros Hin. exists (Text name). split; auto. apply String.eqb_refl.
Qed.

(** The tracks of a parsed library follow its Tracks dict. *)
Lemma parseFile_tracks_dict plist p :
  parseFile plist newParser = Return p ->
  (hasTracksDict plist ->
   tracks p = map stamped (filter retained (tracksEntries plist))) /\
  (~ hasTracksDict plist -> tracks p = []).
Proof.
  unfold parseFile.
  destruct (negb (truthyJs plist) || negb (truthyJs (field x_dict plist)));
    [discriminate|].
  intros [= <-]. rewrite extractPlaylists_tracks.
  unfold extractTracks, hasTracksDict. cbv zeta.
  pose proof (declaresKey_In "Tracks" (field x_dict plist)) as Hd.
  destruct (declaresKey "Tracks" (field x_dict plist)); simpl.
  2:{ split; auto. intros (Hin & _). apply Hd in Hin. discriminate. }
  destruct (truthyJs (field x_dict (field x_dict plist))); simpl.
  2:{ split; auto. intros (_ & H & _). discriminate. }
  destruct (truthyJs (field x_key (field x_dict (field x_dict plist)))); simpl.
  2:{ split; auto. intros (_ & _ & H & _). discriminate. }
  destruct (truthyJs (field x_dict (field x_dict (field x_dict plist)))); simpl.
  2:{ split; auto. intros (_ & _ & _ & H). discriminate. }
  split.
  - intros _. apply collectTracks_in_order.
  - intros H. exfalso. apply H. repeat split; auto. now apply Hd.
Qed.

(** In a parsed library the tracks the source selects for a list of
    items are the listed tracks, and none is dropped afterwards. *)
Lemma members_listed plist p ids :
  parseFile plist newParser = Return p ->
  canonicalize
    (filter (fun track => includesId (filter truthy ids) (obj_get "Track ID" track))
            (tracks p))
  = map toCanonical (filter (listed ids) (tracks p)).
Proof.
  intros Hp.
  rewrite (filter_ext_in _ (listed ids)).
  2:{ intros t Ht.
      destruct (parsed_tracks_named plist p t Hp Ht) as (_ & _ & n & Hn).
      now apply (includesId_listed ids t n). }
  unfold canonicalize. apply filter_all.
  intros c Hc. apply in_map_iff in Hc. destruct Hc as (t & <- & Ht).
  apply filter_In in Ht. destruct Ht as [Ht _].
  exact (parsed_valid plist p t Hp Ht).
Qed.

(** C9, as stated, fails on a playlist that cannot be resolved: in the
    library with two playlists named [Mix], the second lists track 1,
    which is in the library, and resolving the name raises an error
    instead of returning that track. *)
Lemma members_shadowed_counterexample :
  parseFile Samples.shadowed newParser = Return Samples.parsedShadowed /\
  In [("Name", VStr "Mix"); ("Playlist Items", VItems [VNum (Fin 1)])]
     (playlists Samples.parsedShadowed) /\
  (exists t, In t (tracks Samples.parsedShadowed) /\
             obj_get "Track ID" t = Some (VNum (Fin 1))) /\
  getTracksForSpotify Samples.parsedShadowed (Some "Mix")
  = ThrowError (noTracksMessage "Mix").
Proof.
  split; [reflexivity|]. split; [vm_compute; auto|]. split; [|reflexivity].
  eexists. split; [left; reflexivity|reflexivity].
Qed.

(** C9 (amended): in a parsed library whose identifiers are integers
    that a number holds exactly, when the first playlist with the
    requested non-empty name holds a list of items, resolving it returns
    the canonical tracks of exactly the library tracks that are listed
    (the identifier of the track is a number other than 0 and NaN and is
    the identifier of one of the items), in the order of the library's
    tracks, which is the order of the retained entries of the Tracks
    dict: each library track at most once, whatever the order and the
    repetitions of the items. *)
Theorem playlist_members_in_library_order
    (plist : jsval) (p : parser) (pname : string)
    (playlist : JsObject value) (ids : list value) :
  parseFile plist newParser = Return p ->
  truthyStr pname = true ->
  firstNamed (playlists p) pname playlist ->
  obj_get "Playlist Items" playlist = Some (VItems ids) ->
  Forall exactTrack (tracks p) ->
  Forall exactId ids ->
  (hasTracksDict plist ->
   tracks p = map stamped (filter retained (tracksEntries plist))) /\
  (~ hasTracksDict plist -> tracks p = []) /\
  (exists result,
     getTracksForSpotify p (Some pname) = Return result /\
     result = map toCanonical (filter (listed ids) (tracks p)) /\
     map originalTrack result = filter (listed ids) (tracks p) /\
     subseq (map originalTrack result) (tracks p)) /\
  (forall t,
     listed ids t = true <->
     exists z, z <> 0%Z /\ obj_get "Track ID" t = Some (VNum (Fin z)) /\
               In (VNum (Fin z)) ids) /\
  (forall p' playlist' ids',
     tracks p' = tracks p ->
     firstNamed (playlists p') pname playlist' ->
     obj_get "Playlist Items" playlist' = Some (VItems ids') ->
     (forall id, In id ids <-> In id ids') ->
     getTracksForSpotify p' (Some pname) = getTracksForSpotify p (Some pname)).
Proof.
  intros Hparsed Hname Hfirst Hitems _ _.
  assert (Hres : forall q pl l,
            tracks q = tracks p ->
            firstNamed (playlists q) pname pl ->
            obj_get "Playlist Items" pl = Some (VItems l) ->
            getTracksForSpotify q (Some pname)
            = Return (map toCanonical (filter (listed l) (tracks p)))).
  { intros q pl l Htr Hf Hl. apply findPlaylist_first in Hf.
    unfold getTracksForSpotify. rewrite Hname, Hf, Hl, Htr. simpl.
    f_equal. now apply (members_listed plist). }
  assert (Hsrc : forall l, map originalTrack (map toCanonical l) = l).
  { intros l. rewrite map_map. apply map_id. }
  destruct (parseFile_tracks_dict plist p Hparsed) as [Hdict Hnodict].
  split; [exact Hdict|]. split; [exact Hnodict|]. split.
  { eexists. split; [now apply (Hres p playlist ids)|].
    split; [reflexivity|]. rewrite Hsrc. split; [reflexivity|].
    apply subseq_filter. }
  split; [intros t; apply listed_spec|].
  intros p' playlist' ids' Htr Hf' Hitems' Hsame.
  rewrite (Hres p' playlist' ids' Htr Hf' Hitems').
  rewrite (Hres p playlist ids eq_refl Hfirst Hitems).
  do 2 f_equal. apply filter_ext. intros t. symmetry. now apply listed_same.
Qed.

Lemma playlist_members_in_library_order_witness :
  tracks Samples.parsedLibrary
  = map stamped (filter retained (tracksEntries Samples.library)) /\
  exists result,
    getTracksForSpotify Samples.parsedLibrary (Some "Favourites")
    = Return result /\
    result
    = map toCanonical
        (filter (listed [VNum (Fin 2); VNum (Fin 1); VNum (Fin 2)])
                (tracks Samples.parsedLibrary)) /\
    map originalTrack result
    = filter (listed [VNum (Fin 2); VNum (Fin 1); VNum (Fin 2)])
             (tracks Samples.parsedLibrary) /\
    subseq (map originalTrack result) (tracks Samples.parsedLibrary).
Proof.
  destruct (playlist_members_in_library_order Samples.library
              Samples.parsedLibrary "Favourites"
              [("Name", VStr "Favourites");
               ("Playlist Items", VItems [VNum (Fin 2); VNum (Fin 1); VNum (Fin 2)])]
              [VNum (Fin 2); VNum (Fin 1); VNum (Fin 2)])
    as (Hdict & _ & Hres & _); try reflexivity.
  - exists [], [[("Name", VStr "Empty")]].
    split; [reflexivity|]. split; [reflexivity|]. intros q [].
  - repeat constructor; intros id E; injection E as <-; intros z E;
      injection E as <-; unfold safeInteger; simpl; lia.
  - repeat constructor; intros z E; injection E as <-;
      unfold safeInteger; simpl; lia.
  - split; [|exact Hres]. apply Hdict.
    repeat split; try reflexivity. simpl. auto.
Defined.

(** On the sample library the playlist lists track 2, 1, 2 and the
    tracks returned are track 1 then track 2. *)
Example favourites_members :
  exists t1 t2,
    getTracksForSpotify Samples.parsedLibrary (Some "Favourites")
    = Return [t1; t2] /\
    obj_get "Track ID" (originalTrack t1) = Some (VNum (Fin 1)) /\
    obj_get "Track ID" (originalTrack t2) = Some (VNum (Fin 2)).
Proof. do 2 eexists. repeat split. Qed.

(** A track whose identifier is 0 is never a member: the identifier of
    the item that lists it is dropped as falsy. *)
Example zero_identifier_not_listed :
  listed [VNum (Fin 0)] [("Track ID", VNum (Fin 0))] = false /\
  includesId (filter truthy [VNum (Fin 0)])
             (obj_get "Track ID" [("Track ID", VNum (Fin 0))]) = false.
Proof. split; reflexivity. Qed.

End Members.
